(** * Bus route simulator: the circular doubly-linked route of BUS_ROUTE_SIM.c

    A shallow embedding of the route structure of [BUS_ROUTE_SIM.c] (the
    [Stop] nodes, the globals [head] and [next_id], the insertion, lookup,
    deletion, metric and CSV functions) together with the properties of the
    route that the specification states.

    Conventions of the model.
    - Memory is a finite map from addresses to [Stop] structures; a pointer is
      [option loc], [None] being [NULL].  Every function that dereferences a
      pointer returns [None] when the pointer is [NULL] or not allocated (the
      C program has no defined behaviour there), and every loop over the
      [next] links runs on a fuel equal to the number of allocated stops: a
      traversal that needs more steps than there are stops never comes back
      to its start, so [None] also stands for a run that does not return.
    - [int] is a [Z] reduced to 32 bits, two's complement ([wrap_int]).
    - [double] values and their arithmetic are the members of the class
      [Weight]; the instance for the program is IEEE binary64
      ([PrimFloat]).  The decimal conversions of [printf] and [sscanf] for
      doubles are the members of the class [WeightIO].
    - A C string is the [string] of its characters before the final NUL. *)

From Stdlib Require Import ZArith String Ascii List Floats.
From stdpp Require Import gmap strings list fin_maps.

#[local] Set Warnings "-clear-no-such-hyp".
Local Open Scope Z_scope.

(** ** Machine integers *)

Definition INT_MIN : Z := - 2 ^ 31.
Definition INT_MAX : Z := 2 ^ 31 - 1.

(** The value an [int] holds after an arithmetic result [z]. *)
Definition wrap_int (z : Z) : Z := (z + 2 ^ 31) mod 2 ^ 32 - 2 ^ 31.

Definition is_int (z : Z) : Prop := INT_MIN ≤ z ≤ INT_MAX.

(** ** C strings *)

Definition NAME_LEN : nat := 64.
Definition LINE_LEN : nat := 256.

(** [strncpy (dst, src, n)] followed by [dst[n] = 0]: the first [n]
    characters of [src]. *)
Fixpoint strncpy (n : nat) (src : string) : string :=
  match n, src with
  | S n', String c rest => String c (strncpy n' rest)
  | _, _ => EmptyString
  end.

(** [tolower] in the C locale. *)
Definition tolower (c : ascii) : ascii :=
  let n := nat_of_ascii c in
  if ((65 <=? n) && (n <=? 90))%nat then ascii_of_nat (n + 32) else c.

Definition uchar (c : ascii) : Z := Z.of_nat (nat_of_ascii c).

(** [strcasecmp]: the difference of the first pair of characters that
    differ after case folding, [0] when there is none. *)
Fixpoint strcasecmp (a b : string) : Z :=
  match a, b with
  | EmptyString, EmptyString => 0
  | EmptyString, String c _ => - uchar (tolower c)
  | String c _, EmptyString => uchar (tolower c)
  | String c a', String d b' =>
      if decide (tolower c = tolower d) then strcasecmp a' b'
      else uchar (tolower c) - uchar (tolower d)
  end.

(** ** Doubles *)

(** The arithmetic the program does on [double]: the constant [0.0] and
    [+=]. *)
Class Weight (W : Type) := {
  w_zero : W;
  w_add : W → W → W
}.

(** The conversions of the C library on [double]: [printf ("%.6f")] and the
    [%lf] directive of [sscanf], which returns the value read and the rest
    of the input. *)
Class WeightIO (W : Type) := {
  printf_f6 : W → string;
  scanf_lf : string → option (W * string)
}.

(** ** Stops and memory *)

Definition loc := positive.
Definition ptr := option loc.

Record Stop (W : Type) := mkStop {
  id : Z;
  name : string;
  passengers : Z;
  dist_to_next : W;
  time_to_next : W;
  prev : ptr;
  next : ptr
}.
Arguments mkStop {W}.
Arguments id {W}.
Arguments name {W}.
Arguments passengers {W}.
Arguments dist_to_next {W}.
Arguments time_to_next {W}.
Arguments prev {W}.
Arguments next {W}.

(** The program state: the allocated stops and the two globals. *)
Record State (W : Type) := mkState {
  heap : gmap loc (Stop W);
  head : ptr;
  next_id : Z
}.
Arguments mkState {W}.
Arguments heap {W}.
Arguments head {W}.
Arguments next_id {W}.

Definition init {W} : State W := mkState ∅ None 1.

Section Memory.
Context {W : Type}.
Implicit Types (h : gmap loc (Stop W)) (p v : ptr) (a : loc) (s : State W).

Definition set_prev (v : ptr) (st : Stop W) : Stop W :=
  mkStop (id st) (name st) (passengers st) (dist_to_next st) (time_to_next st)
         v (next st).

Definition set_next (v : ptr) (st : Stop W) : Stop W :=
  mkStop (id st) (name st) (passengers st) (dist_to_next st) (time_to_next st)
         (prev st) v.

(** [*p] *)
Definition deref h p : option (Stop W) := a ← p; h !! a.

(** [p->prev] and [p->next] *)
Definition load_prev h p : option ptr := prev <$> deref h p.
Definition load_next h p : option ptr := next <$> deref h p.

(** [p->prev = v] and [p->next = v] *)
Definition store_prev p v h : option (gmap loc (Stop W)) :=
  a ← p; st ← h !! a; Some (<[a := set_prev v st]> h).
Definition store_next p v h : option (gmap loc (Stop W)) :=
  a ← p; st ← h !! a; Some (<[a := set_next v st]> h).

(** [free (p)] on an allocated stop. *)
Definition free p h : option (gmap loc (Stop W)) :=
  a ← p; _ ← h !! a; Some (delete a h).

(** [malloc]: an address that is not allocated.  The program exits when the
    allocation fails, so a state after [create_stop] is one where it did
    not. *)
Definition malloc h : loc := fresh (dom h).

(** ** The route functions *)

Definition create_stop (nm : string) (pass : Z) (d t : W) s : ptr * State W :=
  let a := malloc (heap s) in
  (Some a,
   mkState (<[a := mkStop (next_id s) (strncpy (NAME_LEN - 1) nm) pass d t None None]> (heap s))
           (head s)
           (wrap_int (next_id s + 1))).

Definition insert_end (node : ptr) s : option (State W) :=
  match node with
  | None => Some s
  | Some _ =>
      match head s with
      | None =>
          h1 ← store_prev node node (heap s);
          h2 ← store_next node node h1;
          Some (mkState h2 node (next_id s))
      | Some _ =>
          tail ← load_prev (heap s) (head s);
          h1 ← store_next tail node (heap s);
          h2 ← store_prev node tail h1;
          h3 ← store_next node (head s) h2;
          h4 ← store_prev (head s) node h3;
          Some (mkState h4 (head s) (next_id s))
      end
  end.

(** The [do ... while (cur != head)] loop of [find_by_name]. *)
Fixpoint find_by_name_loop (fuel : nat) h (hd : ptr) (nm : string) (cur : ptr)
  : option ptr :=
  match fuel with
  | O => None
  | S fuel' =>
      st ← deref h cur;
      if decide (strcasecmp (name st) nm = 0) then Some cur
      else if decide (next st = hd) then Some None
      else find_by_name_loop fuel' h hd nm (next st)
  end.

Definition find_by_name (nm : string) s : option ptr :=
  match head s with
  | None => Some None
  | Some _ => find_by_name_loop (size (heap s)) (heap s) (head s) nm (head s)
  end.

Fixpoint find_by_id_loop (fuel : nat) h (hd : ptr) (i : Z) (cur : ptr)
  : option ptr :=
  match fuel with
  | O => None
  | S fuel' =>
      st ← deref h cur;
      if decide (id st = i) then Some cur
      else if decide (next st = hd) then Some None
      else find_by_id_loop fuel' h hd i (next st)
  end.

Definition find_by_id (i : Z) s : option ptr :=
  match head s with
  | None => Some None
  | Some _ => find_by_id_loop (size (heap s)) (heap s) (head s) i (head s)
  end.

Definition insert_after (existing newstop : ptr) s : option (State W) :=
  match newstop with
  | None => Some s
  | Some _ =>
      match existing with
      | None => insert_end newstop s
      | Some _ =>
          nxt ← load_next (heap s) existing;
          h1 ← store_next existing newstop (heap s);
          h2 ← store_prev newstop existing h1;
          h3 ← store_next newstop nxt h2;
          h4 ← store_prev nxt newstop h3;
          Some (mkState h4 (head s) (next_id s))
      end
  end.

(** The [while (cur->next != head && idx < pos-1)] loop of
    [insert_at_position]. *)
Fixpoint position_loop (fuel : nat) h (hd : ptr) (pos : Z) (cur : ptr) (idx : Z)
  : option ptr :=
  match fuel with
  | O => None
  | S fuel' =>
      nx ← load_next h cur;
      if decide (nx ≠ hd ∧ idx < pos - 1)
      then position_loop fuel' h hd pos nx (idx + 1)
      else Some cur
  end.

Definition insert_at_position (newstop : ptr) (pos : Z) s : option (State W) :=
  match newstop with
  | None => Some s
  | Some _ =>
      if decide (head s = None ∨ pos ≤ 1) then
        match head s with
        | None =>
            h1 ← store_prev newstop newstop (heap s);
            h2 ← store_next newstop newstop h1;
            Some (mkState h2 newstop (next_id s))
        | Some _ =>
            tail ← load_prev (heap s) (head s);
            h1 ← store_next newstop (head s) (heap s);
            h2 ← store_prev newstop tail h1;
            h3 ← store_next tail newstop h2;
            h4 ← store_prev (head s) newstop h3;
            Some (mkState h4 newstop (next_id s))
        end
      else
        cur ← position_loop (size (heap s)) (heap s) (head s) pos (head s) 1;
        insert_after cur newstop s
  end.

Definition delete_by_name (nm : string) s : option (Z * State W) :=
  target ← find_by_name nm s;
  match target with
  | None => Some (0, s)
  | Some _ =>
      tn ← load_next (heap s) target;
      if decide (tn = target) then
        h1 ← free target (heap s);
        Some (1, mkState h1 None (next_id s))
      else
        p ← load_prev (heap s) target;
        n ← load_next (heap s) target;
        h1 ← store_next p n (heap s);
        h2 ← store_prev n p h1;
        let hd := if decide (target = head s) then n else head s in
        h3 ← free target h2;
        Some (1, mkState h3 hd (next_id s))
  end.

(** The loop of [clear_route], which frees every stop but [head]. *)
Fixpoint clear_route_loop (fuel : nat) h (hd : ptr) (cur : ptr)
  : option (gmap loc (Stop W)) :=
  match fuel with
  | O => None
  | S fuel' =>
      if decide (cur = hd) then Some h
      else
        nx ← load_next h cur;
        h' ← free cur h;
        clear_route_loop fuel' h' hd nx
  end.

Definition clear_route s : option (State W) :=
  match head s with
  | None => Some s
  | Some _ =>
      cur ← load_next (heap s) (head s);
      h1 ← clear_route_loop (size (heap s)) (heap s) (head s) cur;
      h2 ← free (head s) h1;
      Some (mkState h2 None (next_id s))
  end.

End Memory.

Arguments deref : simpl never.
Arguments load_prev : simpl never.
Arguments load_next : simpl never.
Arguments store_prev : simpl never.
Arguments store_next : simpl never.
Arguments free : simpl never.

(** ** Metrics *)

Section Metrics.
Context {W : Type} `{Weight W}.
Implicit Types (h : gmap loc (Stop W)) (s : State W).

(** One [+=] on each of the two accumulators. *)
Definition accumulate (acc : W * W) (st : Stop W) : W * W :=
  (w_add (fst acc) (dist_to_next st), w_add (snd acc) (time_to_next st)).

Fixpoint total_distance_time_loop (fuel : nat) h (hd cur : ptr) (acc : W * W)
  : option (W * W) :=
  match fuel with
  | O => None
  | S fuel' =>
      st ← deref h cur;
      let acc' := accumulate acc st in
      if decide (next st = hd) then Some acc'
      else total_distance_time_loop fuel' h hd (next st) acc'
  end.

(** [total_distance_time (&tot_dist, &tot_time)]: the two outputs. *)
Definition total_distance_time s : option (W * W) :=
  match head s with
  | None => Some (w_zero, w_zero)
  | Some _ =>
      total_distance_time_loop (size (heap s)) (heap s) (head s) (head s)
                               (w_zero, w_zero)
  end.

Fixpoint distance_between_loop (fuel : nat) h (start target cur : ptr)
    (acc : W * W) : option (Z * (W * W)) :=
  match fuel with
  | O => None
  | S fuel' =>
      st ← deref h cur;
      let acc' := accumulate acc st in
      if decide (next st = target) then Some (1, acc')
      else if decide (next st = start) then Some (0, acc')
      else distance_between_loop fuel' h start target (next st) acc'
  end.

(** [distance_between (a_name, b_name, &dist_out, &time_out)]: the value
    returned and the two outputs. *)
Definition distance_between (a_name b_name : string) s : option (Z * (W * W)) :=
  match head s with
  | None => Some (0, (w_zero, w_zero))
  | Some _ =>
      start ← find_by_name a_name s;
      target ← find_by_name b_name s;
      if decide (start = None ∨ target = None) then Some (0, (w_zero, w_zero))
      else if decide (start = target) then Some (1, (w_zero, w_zero))
      else distance_between_loop (size (heap s)) (heap s) start target start
                                 (w_zero, w_zero)
  end.

End Metrics.

(** ** The C library on text *)

Definition is_digit (c : ascii) : bool :=
  let n := nat_of_ascii c in ((48 <=? n) && (n <=? 57))%nat.

Definition digit_val (c : ascii) : Z := Z.of_nat (nat_of_ascii c) - 48.

Definition digit_char (d : Z) : ascii := ascii_of_nat (48 + Z.to_nat d).

(** [isspace] in the C locale. *)
Definition is_space (c : ascii) : bool :=
  let n := nat_of_ascii c in (((9 <=? n) && (n <=? 13)) || (n =? 32))%nat.

Fixpoint skip_ws (s : string) : string :=
  match s with
  | String c rest => if is_space c then skip_ws rest else s
  | EmptyString => s
  end.

(** The decimal digits of a natural number, most significant first. *)
Fixpoint digits_of (fuel : nat) (n : Z) (acc : string) : string :=
  match fuel with
  | O => acc
  | S fuel' =>
      let acc' := String (digit_char (n mod 10)) acc in
      if n <? 10 then acc' else digits_of fuel' (n / 10) acc'
  end.

Definition print_nat (n : Z) : string :=
  digits_of (S (Z.to_nat (Z.log2 n))) n EmptyString.

(** [printf ("%d")] *)
Definition print_d (z : Z) : string :=
  if z <? 0 then String "-" (print_nat (- z)) else print_nat z.

(** The longest run of digits at the front of the input, as a number. *)
Fixpoint scan_digits (s : string) (acc : Z) : Z * string :=
  match s with
  | String c rest =>
      if is_digit c then scan_digits rest (acc * 10 + digit_val c) else (acc, s)
  | EmptyString => (acc, s)
  end.

Definition starts_with_digit (s : string) : bool :=
  match s with String c _ => is_digit c | EmptyString => false end.

(** The [%d] directive of [sscanf]: white space, an optional sign, one or
    more digits.  A number outside [long] is read as the nearest [long]
    (as [strtol] does) and the result is stored into an [int]. *)
Definition scan_d (s : string) : option (Z * string) :=
  let s1 := skip_ws s in
  let '(neg, s2) :=
    match s1 with
    | String "-" rest => (true, rest)
    | String "+" rest => (false, rest)
    | _ => (false, s1)
    end in
  if starts_with_digit s2 then
    let '(v, rest) := scan_digits s2 0 in
    let v' := if neg then - v else v in
    Some (wrap_int (Z.max (- 2 ^ 63) (Z.min (2 ^ 63 - 1) v')), rest)
  else None.

(** The [%63[^,]] directive: one to 63 characters other than a comma. *)
Fixpoint scan_not_comma (n : nat) (s : string) : string * string :=
  match n, s with
  | S n', String c rest =>
      if decide (c = ","%char) then (EmptyString, s)
      else let '(w, r) := scan_not_comma n' rest in (String c w, r)
  | _, _ => (EmptyString, s)
  end.

Definition scan_name (s : string) : option (string * string) :=
  match scan_not_comma (NAME_LEN - 1) s with
  | (EmptyString, _) => None
  | (w, r) => Some (w, r)
  end.

(** A comma of the format: the next character has to be one. *)
Definition scan_comma (s : string) : option string :=
  match s with
  | String "," rest => Some rest
  | _ => None
  end.

Definition NUL : ascii := ascii_of_nat 0.
Definition NL : ascii := ascii_of_nat 10.

(** The C string held by a buffer: what stands before the first NUL. *)
Fixpoint until_nul (s : string) : string :=
  match s with
  | String c rest => if decide (c = NUL) then EmptyString else String c (until_nul rest)
  | EmptyString => EmptyString
  end.

(** [fgets (line, n, f)] on the unread part of a file: at most [n - 1]
    characters, up to and including the first newline; the characters read
    and what is left of the file.  [None] is the [NULL] of the end of
    file. *)
Fixpoint fgets_chars (n : nat) (f : string) : string * string :=
  match n, f with
  | S n', String c rest =>
      if decide (c = NL) then (String c EmptyString, rest)
      else let '(l, r) := fgets_chars n' rest in (String c l, r)
  | _, _ => (EmptyString, f)
  end.

Definition fgets (n : nat) (f : string) : option (string * string) :=
  match f with
  | EmptyString => None
  | _ => Some (fgets_chars (n - 1) f)
  end.

(** ** Files *)

(** The files the program can see: their contents by name, and the names
    that [fopen] refuses. *)
Record FS := mkFS {
  files : gmap string string;
  denied : gset string
}.

(** [fopen (filename, "r")]: the contents of the file, when it opens. *)
Definition fopen_r (fs : FS) (filename : string) : option string :=
  if decide (filename ∈ denied fs) then None else files fs !! filename.

(** [fopen (filename, "w")] succeeds on every name that is not refused. *)
Definition fopen_w (fs : FS) (filename : string) : bool :=
  bool_decide (filename ∉ denied fs).

Definition write_file (fs : FS) (filename content : string) : FS :=
  mkFS (<[filename := content]> (files fs)) (denied fs).

(** ** Saving and loading *)

Section Persistence.
Context {W : Type} `{WeightIO W}.
Implicit Types (h : gmap loc (Stop W)) (s : State W).

Definition csv_header : string := "id,name,passengers,dist_to_next,time_to_next" +:+ String NL EmptyString.

(** [fprintf (f, "%d,%s,%d,%.6f,%.6f\n", ...)] *)
Definition format_row (st : Stop W) : string :=
  print_d (id st) +:+ "," +:+ name st +:+ "," +:+ print_d (passengers st) +:+ ","
  +:+ printf_f6 (dist_to_next st) +:+ "," +:+ printf_f6 (time_to_next st)
  +:+ String NL EmptyString.

Fixpoint save_to_file_loop (fuel : nat) h (hd cur : ptr) (out : string)
  : option string :=
  match fuel with
  | O => None
  | S fuel' =>
      st ← deref h cur;
      let out' := out +:+ format_row st in
      if decide (next st = hd) then Some out'
      else save_to_file_loop fuel' h hd (next st) out'
  end.

(** [save_to_file (filename)]: the value returned and the files
    afterwards. *)
Definition save_to_file (filename : string) (fs : FS) s : option (Z * FS) :=
  match head s with
  | None => Some (0, fs)
  | Some _ =>
      if fopen_w fs filename then
        out ← save_to_file_loop (size (heap s)) (heap s) (head s) (head s) csv_header;
        Some (1, write_file fs filename out)
      else Some (0, fs)
  end.

(** [sscanf (line, "%*d,%63[^,],%d,%lf,%lf", name, &passengers, &dist, &time)]:
    the value returned and, when all four were assigned, the four values.
    The value is [-1] ([EOF]) when the input ends before the first
    assignment. *)
Definition eof_or (assigned : Z) (input : string) : Z :=
  match input with
  | EmptyString => if assigned =? 0 then -1 else assigned
  | _ => assigned
  end.

Definition sscanf_row (line : string) : Z * option (string * Z * W * W) :=
  let l0 := until_nul line in
  match scan_d l0 with
  | None => (eof_or 0 (skip_ws l0), None)
  | Some (_, l1) =>
  match scan_comma l1 with
  | None => (eof_or 0 l1, None)
  | Some l2 =>
  match scan_name l2 with
  | None => (eof_or 0 l2, None)
  | Some (nm, l3) =>
  match scan_comma l3 with
  | None => (1, None)
  | Some l4 =>
  match scan_d l4 with
  | None => (1, None)
  | Some (pass, l5) =>
  match scan_comma l5 with
  | None => (2, None)
  | Some l6 =>
  match scanf_lf l6 with
  | None => (2, None)
  | Some (d, l7) =>
  match scan_comma l7 with
  | None => (3, None)
  | Some l8 =>
  match scanf_lf l8 with
  | None => (3, None)
  | Some (t, _) => (4, Some (nm, pass, d, t))
  end end end end end end end end end.

(** The [while (fgets (line, LINE_LEN, f))] loop of [load_from_file] on the
    unread part [f] of the file. *)
Fixpoint load_from_file_loop (fuel : nat) (f : string) s : option (State W) :=
  match fuel with
  | O => None
  | S fuel' =>
      match fgets LINE_LEN f with
      | None => Some s
      | Some (line, f') =>
          match sscanf_row line with
          | (n, Some (nm, pass, d, t)) =>
              if 4 <=? n then
                let '(node, s1) := create_stop nm pass d t s in
                s2 ← insert_end node s1;
                load_from_file_loop fuel' f' s2
              else load_from_file_loop fuel' f' s
          | (_, None) => load_from_file_loop fuel' f' s
          end
      end
  end.

(** [load_from_file (filename)]: the value returned and the state
    afterwards. *)
Definition load_from_file (filename : string) (fs : FS) s : option (Z * State W) :=
  match fopen_r fs filename with
  | None => Some (0, s)
  | Some f =>
      s1 ← clear_route s;
      match fgets LINE_LEN f with
      | None => Some (0, s1)
      | Some (_, f') =>
          s2 ← load_from_file_loop (S (String.length f')) f' s1;
          Some (1, s2)
      end
  end.

End Persistence.

(** ** The doubles of the program: IEEE binary64 *)

#[export] Instance double_weight : Weight float := {
  w_zero := 0%float;
  w_add := PrimFloat.add
}.

(** The double nearest to the fraction [a / b] (ties to even), with the sign
    [neg]: the correctly rounded quotient of the two integers. *)
Definition nearest_double (neg : bool) (a : Z) (b : positive) : float :=
  match a with
  | Zpos m =>
      SF2Prim (SFdiv prec emax (S754_finite neg m 0) (S754_finite false b 0))
  | _ => SF2Prim (S754_zero neg)
  end.

(** [n] decimal digits of [v], least significant last, with leading
    zeros. *)
Fixpoint fixed_digits (n : nat) (v : Z) (acc : string) : string :=
  match n with
  | O => acc
  | S n' => fixed_digits n' (v / 10) (String (digit_char (v mod 10)) acc)
  end.

(** The integer nearest to [num / den], ties to even. *)
Definition round_half_even (num den : Z) : Z :=
  let q := num / den in
  let r := num mod den in
  match 2 * r ?= den with
  | Lt => q
  | Gt => q + 1
  | Eq => if Z.even q then q else q + 1
  end.

(** [printf ("%.6f", x)]: the exact value of [x] rounded to six decimals. *)
Definition double_printf_f6 (x : float) : string :=
  match Prim2SF x with
  | S754_nan => "nan"
  | S754_infinity s => if s then "-inf" else "inf"
  | S754_zero s => (if s then "-" else "") +:+ "0.000000"
  | S754_finite s m e =>
      let v :=
        match e with
        | Zneg k => round_half_even (Zpos m * 10 ^ 6) (2 ^ Zpos k)
        | _ => Zpos m * 2 ^ e * 10 ^ 6
        end in
      (if s then "-" else "") +:+ print_nat (v / 10 ^ 6) +:+ "."
      +:+ fixed_digits 6 (v mod 10 ^ 6) EmptyString
  end.

(** A run of digits continuing the number [acc]: the number, how many
    digits were read, the rest. *)
Fixpoint scan_digits_count (s : string) (acc : Z) (n : Z) : Z * Z * string :=
  match s with
  | String c rest =>
      if is_digit c then scan_digits_count rest (acc * 10 + digit_val c) (n + 1)
      else (acc, n, s)
  | EmptyString => (acc, n, s)
  end.

(** The exponent part [e], sign, digits of a decimal constant, when there is
    a complete one at the front of the input. *)
Definition scan_exponent (s : string) : Z * string :=
  match s with
  | String c rest =>
      if decide (c = "e"%char ∨ c = "E"%char) then
        let '(neg, r1) :=
          match rest with
          | String "-" r => (true, r)
          | String "+" r => (false, r)
          | _ => (false, rest)
          end in
        if starts_with_digit r1 then
          let '(v, r2) := scan_digits r1 0 in ((if neg then - v else v), r2)
        else (0, s)
      else (0, s)
  | EmptyString => (0, s)
  end.

(** [prefix_ci p s]: [s] starts with [p], letter case apart; the rest. *)
Fixpoint prefix_ci (p s : string) : option string :=
  match p, s with
  | EmptyString, _ => Some s
  | String c p', String d s' =>
      if decide (tolower c = tolower d) then prefix_ci p' s' else None
  | String _ _, EmptyString => None
  end.

(** The [%lf] directive on a decimal constant (digits with an optional
    fraction and exponent), [inf], [infinity] or [nan], after white space
    and an optional sign.  Hexadecimal constants are read as far as their
    leading [0]. *)
Definition double_scanf_lf (s : string) : option (float * string) :=
  let s1 := skip_ws s in
  let '(neg, s2) :=
    match s1 with
    | String "-" rest => (true, rest)
    | String "+" rest => (false, rest)
    | _ => (false, s1)
    end in
  match prefix_ci "infinity" s2, prefix_ci "inf" s2, prefix_ci "nan" s2 with
  | Some r, _, _ | None, Some r, _ =>
      Some ((if neg then neg_infinity else infinity), r)
  | None, None, Some r => Some (nan, r)
  | None, None, None =>
      let '(ip, ni, r1) := scan_digits_count s2 0 0 in
      let '(m, nf, r2) :=
        match r1 with
        | String "." r => scan_digits_count r ip 0
        | _ => (ip, 0, r1)
        end in
      if ni + nf =? 0 then None
      else
        let '(ex, r3) := scan_exponent r2 in
        let e10 := ex - nf in
        let x :=
          if 0 <=? e10 then nearest_double neg (m * 10 ^ e10) 1
          else nearest_double neg m (Z.to_pos (10 ^ (- e10))) in
        Some (x, r3)
  end.

#[export] Instance double_io : WeightIO float := {
  printf_f6 := double_printf_f6;
  scanf_lf := double_scanf_lf
}.

(** ** The route as a cyclic list *)

Section Ring.
Context {W : Type}.
Implicit Types (h : gmap loc (Stop W)) (l : list loc) (a b : loc) (s : State W).

(** The fields of a stop other than its two links. *)
Definition data (st : Stop W) : Z * string * Z * W * W :=
  (id st, name st, passengers st, dist_to_next st, time_to_next st).

Definition data_at h a : option (Z * string * Z * W * W) := data <$> h !! a.

(** The successor and the predecessor that memory records for a stop. *)
Definition nxt h a : ptr := st ← h !! a; next st.
Definition prv h a : ptr := st ← h !! a; prev st.

(** [b] follows [a]: each is recorded as the other's neighbour. *)
Definition link h a b : Prop := nxt h a = Some b ∧ prv h b = Some a.

(** Every stop of the list is followed by the next one of the list. *)
Fixpoint links h l : Prop :=
  match l with
  | a :: (b :: _) as l' => link h a b ∧ links h l'
  | _ => True
  end.

(** The stops [l] form one cycle: a chain that closes on its first stop. *)
Definition ring h l : Prop :=
  match l with
  | [] => True
  | a :: _ => links h (l ++ [a])
  end.

(** The state holds the route [r]: the stops in traversal order from
    [head], each with its address and its data. *)
Definition route s (r : list (loc * (Z * string * Z * W * W))) : Prop :=
  head s = hd_error r.*1
  ∧ NoDup r.*1
  ∧ ring (heap s) r.*1
  ∧ Forall (λ ad, data_at (heap s) ad.1 = Some ad.2) r.

(** The cyclic invariant of the route. *)
Definition cyclic s : Prop := ∃ r, route s r.

(** [n] steps along [next]. *)
Fixpoint advance h (n : nat) (p : ptr) : ptr :=
  match n with
  | O => p
  | S n' => advance h n' (a ← p; nxt h a)
  end.

(** A stop that is allocated and not part of the route. *)
Definition detached s (r : list (loc * (Z * string * Z * W * W))) (p : ptr)
    (d : Z * string * Z * W * W) : Prop :=
  ∃ a, p = Some a ∧ (a ∉ r.*1) ∧ data_at (heap s) a = Some d.

End Ring.

Arguments links {W} h l : simpl nomatch.

(** ** Facts on memory *)

Section MemoryFacts.
Context {W : Type}.
Implicit Types (h : gmap loc (Stop W)) (l : list loc) (a b : loc) (s : State W).

(** What [h'] is after a store of [v] into the [next] field of [a]. *)
Definition next_stored h a (v : ptr) h' : Prop :=
  (∀ b, nxt h' b = (if decide (b = a) then v else nxt h b))
  ∧ (∀ b, prv h' b = prv h b)
  ∧ (∀ b, data_at h' b = data_at h b).

Definition prev_stored h a (v : ptr) h' : Prop :=
  (∀ b, prv h' b = (if decide (b = a) then v else prv h b))
  ∧ (∀ b, nxt h' b = nxt h b)
  ∧ (∀ b, data_at h' b = data_at h b).

Lemma data_at_is_Some h a : is_Some (data_at h a) ↔ is_Some (h !! a).
Proof. unfold data_at. by rewrite fmap_is_Some. Qed.

Lemma store_next_ok h a v :
  is_Some (data_at h a) →
  ∃ h', store_next (Some a) v h = Some h' ∧ next_stored h a v h'.
Proof.
  rewrite data_at_is_Some. intros [st Hst].
  exists (<[a := set_next v st]> h). split.
  - unfold store_next. simpl. by rewrite Hst.
  - repeat split; intros b; unfold nxt, prv, data_at;
      rewrite lookup_insert; repeat case_decide; simplify_eq; try done;
      by rewrite Hst.
Qed.

Lemma store_prev_ok h a v :
  is_Some (data_at h a) →
  ∃ h', store_prev (Some a) v h = Some h' ∧ prev_stored h a v h'.
Proof.
  rewrite data_at_is_Some. intros [st Hst].
  exists (<[a := set_prev v st]> h). split.
  - unfold store_prev. simpl. by rewrite Hst.
  - repeat split; intros b; unfold nxt, prv, data_at;
      rewrite lookup_insert; repeat case_decide; simplify_eq; try done;
      by rewrite Hst.
Qed.

Lemma nxt_is_Some h a b : nxt h a = Some b → is_Some (data_at h a).
Proof.
  unfold nxt, data_at. destruct (h !! a); [eauto | done].
Qed.

Lemma prv_is_Some h a b : prv h a = Some b → is_Some (data_at h a).
Proof.
  unfold prv, data_at. destruct (h !! a); [eauto | done].
Qed.

Lemma load_next_nxt h a b : nxt h a = Some b → load_next h (Some a) = Some (Some b).
Proof.
  unfold nxt, load_next, deref. simpl. destruct (h !! a); simpl; [|done].
  by intros ->.
Qed.

Lemma load_prev_prv h a b : prv h a = Some b → load_prev h (Some a) = Some (Some b).
Proof.
  unfold prv, load_prev, deref. simpl. destruct (h !! a); simpl; [|done].
  by intros ->.
Qed.

End MemoryFacts.

(** ** Facts on rings *)

(** Rewrites the links of the new memory and decides the comparisons of
    addresses. *)
Ltac fields Hnx Hpv :=
  rewrite ?Hnx, ?Hpv; repeat case_decide; simplify_eq; try done;
  try (clear Hnx Hpv; set_solver).

Section RingFacts.
Context {W : Type}.
Implicit Types (h : gmap loc (Stop W)) (l : list loc) (a b : loc) (s : State W).

Lemma links_app h l1 a l2 :
  links h (l1 ++ a :: l2) ↔ links h (l1 ++ [a]) ∧ links h (a :: l2).
Proof.
  induction l1 as [|x [|y l1] IH]; simpl in *; tauto.
Qed.

(** A chain is kept by a change of memory that leaves alone the [next] of
    its first stop, the [prev] of its last one and both links of the stops
    in between. *)
Lemma links_frame h h' x l z :
  links h (x :: l ++ [z]) →
  nxt h' x = nxt h x →
  prv h' z = prv h z →
  (∀ a, a ∈ l → nxt h' a = nxt h a ∧ prv h' a = prv h a) →
  links h' (x :: l ++ [z]).
Proof.
  revert x. induction l as [|y l IH]; intros x; simpl.
  - intros [[Hn Hp] _] Hx Hz _. repeat split; congruence.
  - intros [[Hn Hp] Hl] Hx Hz Hin.
    destruct (Hin y) as [Hy1 Hy2]; [left|]. split.
    + split; congruence.
    + apply IH; [done..|]. intros a Ha. apply Hin. by right.
Qed.


Lemma ring_splice h h' l1 e l2 n f :
  NoDup (l1 ++ e :: l2) → n ∉ l1 ++ e :: l2 →
  ring h (l1 ++ e :: l2) →
  nxt h e = Some f →
  (∀ b, nxt h' b = (if decide (b = n) then Some f
                    else if decide (b = e) then Some n else nxt h b)) →
  (∀ b, prv h' b = (if decide (b = n) then Some e
                    else if decide (b = f) then Some n else prv h b)) →
  ring h' (l1 ++ e :: n :: l2).
Proof.
  intros Hnd Hn Hr Hf Hnx Hpv.
  assert (Hen : link h' e n). { split; fields Hnx Hpv. }
  destruct l1 as [|x l1]; simpl in *.
  - destruct l2 as [|y l2]; simpl in *.
    + destruct Hr as [[Hr _] _]. assert (f = e) as -> by congruence.
      repeat split; fields Hnx Hpv.
    + destruct Hr as [[Hr _] Hl]. assert (f = y) as -> by congruence.
      rewrite !NoDup_cons in Hnd.
      repeat split; [fields Hnx Hpv..|].
      apply (links_frame h); [done|fields Hnx Hpv..|].
      intros a Ha. split; fields Hnx Hpv.
  - rewrite <-app_assoc in Hr. simpl in Hr.
    apply (links_app h (x :: l1)) in Hr as [Hl1 Hl2].
    rewrite <-app_assoc. simpl.
    rewrite !NoDup_cons, NoDup_app, NoDup_cons in Hnd.
    assert (Hfe : f ≠ e ∧ (f ∉ l1) ∧ f ≠ n ∧ links h' (n :: l2 ++ [x])).
    { destruct l2 as [|y l2]; simpl in *; destruct Hl2 as [[Hl2 _] Hl3].
      - assert (f = x) as -> by congruence.
        do 3 (split; [set_solver|]). repeat split; fields Hnx Hpv.
      - assert (f = y) as -> by congruence.
        rewrite NoDup_cons in Hnd.
        do 3 (split; [set_solver|]).
        repeat split; [fields Hnx Hpv..|].
        apply (links_frame h); [done|fields Hnx Hpv..|].
        intros a Ha. split; fields Hnx Hpv. }
    destruct Hfe as (Hfe & Hfl & Hfn & Hl3).
    apply (links_app h' (x :: l1)). split.
    + apply (links_frame h); [done|fields Hnx Hpv..|].
      intros a Ha. split; fields Hnx Hpv.
    + split; done.
Qed.

Lemma ring_rotate h l1 l2 : ring h (l1 ++ l2) ↔ ring h (l2 ++ l1).
Proof.
  destruct l1 as [|x l1]; [by rewrite app_nil_r|].
  destruct l2 as [|y l2]; [by rewrite app_nil_r|].
  simpl. rewrite <-!app_assoc. simpl.
  pose proof (links_app h (x :: l1) y (l2 ++ [x])) as H1.
  pose proof (links_app h (y :: l2) x (l1 ++ [y])) as H2.
  simpl in H1, H2. tauto.
Qed.

Lemma ring_unsplice_head h h' t m p n :
  NoDup (t :: m) → m ≠ [] →
  ring h (t :: m) →
  prv h t = Some p → nxt h t = Some n →
  (∀ b, b ≠ t → nxt h' b = (if decide (b = p) then Some n else nxt h b)) →
  (∀ b, b ≠ t → prv h' b = (if decide (b = n) then Some p else prv h b)) →
  ring h' m.
Proof.
  intros Hnd Hm Hr Hp Hn Hnx Hpv.
  destruct (exists_last Hm) as (m' & q & ->). clear Hm.
  simpl in Hr. rewrite <-app_assoc in Hr. simpl in Hr.
  apply (links_app h (t :: m') q) in Hr as [Hl1 [[_ Hq] _]].
  assert (q = p) as -> by congruence.
  rewrite NoDup_cons, NoDup_app, NoDup_cons in Hnd.
  destruct m' as [|y m']; simpl in *.
  - destruct Hl1 as [[Hl1 _] _]. assert (n = p) as -> by congruence.
    repeat split; fields Hnx Hpv.
  - destruct Hl1 as [[Hl1 _] Hl2]. assert (n = y) as <- by congruence.
    rewrite NoDup_cons in Hnd.
    rewrite <-app_assoc. simpl. apply (links_app h' (n :: m') p). split.
    + apply (links_frame h); [done|fields Hnx Hpv..|].
      intros a Ha. split; fields Hnx Hpv.
    + repeat split; fields Hnx Hpv.
Qed.

Lemma ring_unsplice h h' l1 t l2 p n :
  NoDup (l1 ++ t :: l2) → l1 ++ l2 ≠ [] →
  ring h (l1 ++ t :: l2) →
  prv h t = Some p → nxt h t = Some n →
  (∀ b, b ≠ t → nxt h' b = (if decide (b = p) then Some n else nxt h b)) →
  (∀ b, b ≠ t → prv h' b = (if decide (b = n) then Some p else prv h b)) →
  ring h' (l1 ++ l2).
Proof.
  intros Hnd Hm Hr Hp Hn Hnx Hpv.
  apply ring_rotate. apply (ring_rotate h l1 (t :: l2)) in Hr. simpl in Hr.
  apply (ring_unsplice_head h h' t (l2 ++ l1) p n); try done.
  - apply NoDup_cons. rewrite NoDup_app, NoDup_cons in Hnd.
    rewrite NoDup_app. set_solver.
  - destruct l1, l2; done.
Qed.
End RingFacts.

(** ** The insertions on a route *)

Section Insertion.
Context {W : Type}.
Implicit Types (h : gmap loc (Stop W)) (l : list loc) (a b : loc) (s : State W).
Implicit Types (r : list (loc * (Z * string * Z * W * W))) (d : Z * string * Z * W * W).

(** The last stop of a ring is linked to the first one. *)
Lemma ring_last h l q :
  ring h (l ++ [q]) → ∃ x, hd_error (l ++ [q]) = Some x ∧ link h q x.
Proof.
  destruct l as [|x l]; simpl.
  - intros [Hl _]. eauto.
  - intros Hl. exists x. split; [done|].
    rewrite <-app_assoc in Hl. simpl in Hl.
    apply (links_app h (x :: l) q [x]) in Hl as [_ [Hl _]]. done.
Qed.

(** Every stop of a ring is linked to a stop of the ring. *)
Lemma ring_succ h l1 a l2 :
  ring h (l1 ++ a :: l2) →
  ∃ b, hd_error (l2 ++ l1 ++ [a]) = Some b ∧ link h a b.
Proof.
  intros Hr. apply (ring_rotate h l1 (a :: l2)) in Hr. simpl in Hr.
  destruct (l2 ++ l1) as [|y l] eqn:E.
  - apply app_eq_nil in E as [-> ->]. simpl in *. destruct Hr as [Hr _]. eauto.
  - assert (hd_error (l2 ++ l1 ++ [a]) = Some y) as ->.
    { rewrite app_assoc, E. done. }
    simpl in Hr. destruct Hr as [Hr _]. eauto.
Qed.

Lemma route_data_at s r a d :
  route s r → (a, d) ∈ r → data_at (heap s) a = Some d.
Proof.
  intros (_ & _ & _ & Hd) Hin. rewrite Forall_forall in Hd.
  by apply (Hd (a, d)).
Qed.

Lemma route_alloc s r a : route s r → a ∈ r.*1 → is_Some (data_at (heap s) a).
Proof.
  intros Hr Ha. apply list_elem_of_fmap in Ha as [[a' d] [-> Hin]].
  simpl. rewrite (route_data_at s r a' d); eauto.
Qed.

Lemma hd_error_elem_of {A} (l : list A) (x : A) : hd_error l = Some x → x ∈ l.
Proof. destruct l; simpl; [done|]. intros [= ->]. left. Qed.

Lemma NoDup_insert_middle l1 a b l2 :
  NoDup (l1 ++ a :: l2) → b ∉ l1 ++ a :: l2 → NoDup (l1 ++ a :: b :: l2).
Proof.
  intros Hnd Hn.
  replace (l1 ++ a :: b :: l2) with ((l1 ++ [a]) ++ b :: l2)
    by (by rewrite <-app_assoc).
  rewrite <-Permutation_middle, <-app_assoc. simpl. by apply NoDup_cons.
Qed.

Lemma insert_after_spec s r1 e de r2 n d :
  route s (r1 ++ (e, de) :: r2) →
  detached s (r1 ++ (e, de) :: r2) (Some n) d →
  ∃ s', insert_after (Some e) (Some n) s = Some s'
        ∧ route s' (r1 ++ (e, de) :: (n, d) :: r2)
        ∧ head s' = head s
        ∧ next_id s' = next_id s
        ∧ ∀ b, data_at (heap s') b = data_at (heap s) b.
Proof.
  intros Hr (n' & [= <-] & Hn & Hdn).
  pose proof Hr as (Hhd & Hnd & Hring & Hdata).
  rewrite fmap_app, fmap_cons in Hnd, Hring, Hn. simpl in *.
  destruct (ring_succ _ _ _ _ Hring) as (f & Hfin & Hef).
  apply hd_error_elem_of in Hfin.
  pose proof Hef as [Hf1 Hf2].
  destruct (store_next_ok (heap s) e (Some n)) as (h1 & E1 & N1 & P1 & D1).
  { eapply nxt_is_Some, Hf1. }
  destruct (store_prev_ok h1 n (Some e)) as (h2 & E2 & P2 & N2 & D2).
  { rewrite D1, Hdn. eauto. }
  destruct (store_next_ok h2 n (Some f)) as (h3 & E3 & N3 & P3 & D3).
  { rewrite D2, D1, Hdn. eauto. }
  destruct (store_prev_ok h3 f (Some n)) as (h4 & E4 & P4 & N4 & D4).
  { rewrite D3, D2, D1. eapply prv_is_Some, Hf2. }
  assert (HD : ∀ b, data_at h4 b = data_at (heap s) b).
  { intros b. by rewrite D4, D3, D2, D1. }
  exists (mkState h4 (head s) (next_id s)).
  assert (Hfn : f ≠ n) by (intros ->; set_solver).
  split_and!; try done.
  - unfold insert_after. rewrite (load_next_nxt _ _ _ Hf1). simpl.
    rewrite E1. simpl. rewrite E2. simpl. rewrite E3. simpl. rewrite E4. done.
  - split_and!; simpl.
    + rewrite Hhd, !fmap_app. by destruct r1.
    + rewrite fmap_app, !fmap_cons. simpl.
      by apply NoDup_insert_middle.
    + rewrite fmap_app, !fmap_cons. simpl.
      eapply ring_splice; [done..| |].
      * intros b. rewrite N4, N3, N2, N1. repeat case_decide; simplify_eq; done.
      * intros b. rewrite P4, P3, P2, P1. repeat case_decide; simplify_eq; done.
    + rewrite Forall_app, !Forall_cons in *. simpl.
      destruct Hdata as (H1 & H2 & H3). split_and!.
      * eapply Forall_impl; [exact H1|]. intros x Hx. by rewrite HD.
      * by rewrite HD.
      * by rewrite HD.
      * eapply Forall_impl; [exact H3|]. intros x Hx. by rewrite HD.
Qed.

(** On a route that is not empty [insert_end] is [insert_after] the last
    stop. *)
Lemma insert_end_after s r q dq n :
  route s (r ++ [(q, dq)]) →
  insert_end (Some n) s = insert_after (Some q) (Some n) s.
Proof.
  intros (Hhd & _ & Hring & _). rewrite fmap_app in Hhd, Hring. simpl in *.
  destruct (ring_last _ _ _ Hring) as (x & Hx & Hq1 & Hq2).
  rewrite Hx in Hhd. unfold insert_end, insert_after. rewrite Hhd.
  rewrite (load_prev_prv _ _ _ Hq2), (load_next_nxt _ _ _ Hq1). done.
Qed.

Lemma insert_end_spec s r n d :
  route s r →
  detached s r (Some n) d →
  ∃ s', insert_end (Some n) s = Some s'
        ∧ route s' (r ++ [(n, d)])
        ∧ head s' = (if head s is None then Some n else head s)
        ∧ next_id s' = next_id s
        ∧ ∀ b, data_at (heap s') b = data_at (heap s) b.
Proof.
  intros Hr Hdet. destruct (decide (r = [])) as [->|Hne].
  - destruct Hr as (Hhd & _). destruct Hdet as (n' & [= <-] & _ & Hdn).
    simpl in Hhd.
    destruct (store_prev_ok (heap s) n (Some n)) as (h1 & E1 & P1 & N1 & D1).
    { rewrite Hdn. eauto. }
    destruct (store_next_ok h1 n (Some n)) as (h2 & E2 & N2 & P2 & D2).
    { rewrite D1, Hdn. eauto. }
    exists (mkState h2 (Some n) (next_id s)).
    unfold insert_end. rewrite Hhd, E1. simpl. rewrite E2. simpl.
    split_and!; try done.
    + split_and!; simpl; try done.
      * apply NoDup_singleton.
      * repeat split; rewrite ?N2, ?P2, ?P1, ?N1; by case_decide.
      * apply Forall_singleton. simpl. by rewrite D2, D1.
    + intros b. by rewrite D2, D1.
  - destruct (exists_last Hne) as (r' & [q dq] & ->).
    rewrite (insert_end_after s r' q dq n Hr).
    destruct (insert_after_spec s r' q dq [] n d Hr Hdet)
      as (s' & E & Hr' & Hh & Hi & HD).
    exists s'. rewrite <-app_assoc. simpl. split_and!; try done.
    rewrite Hh. destruct Hr as (-> & _). rewrite fmap_app.
    by destruct (r'.*1).
Qed.

(** The last stop of a route is linked to its head. *)
Lemma route_last_link s r q dq :
  route s (r ++ [(q, dq)]) → ∃ x, head s = Some x ∧ link (heap s) q x.
Proof.
  intros (Hhd & _ & Hring & _). rewrite fmap_app in Hhd, Hring. simpl in *.
  destruct (ring_last _ _ _ Hring) as (x & Hx & Hq). exists x.
  split; [congruence|done].
Qed.

(** A route has no more stops than memory. *)
Lemma route_size s r : route s r → (length r ≤ size (heap s))%nat.
Proof.
  intros Hr. pose proof Hr as (_ & Hnd & _).
  rewrite <-(length_fmap fst r), <-(size_list_to_set (C := gset loc) (r.*1)) by done.
  rewrite <-(size_dom (heap s)). apply subseteq_size.
  intros a Ha. apply elem_of_list_to_set in Ha.
  apply elem_of_dom, data_at_is_Some. by eapply route_alloc.
Qed.

(** The position loop stops on the stop of index [pos - 1] (counting from
    1), or on the last stop when there is none. *)
Lemma position_loop_spec h hd pos rest : ∀ c idx fuel,
  links h (c :: rest ++ [hd]) → hd ∉ rest → (length rest < fuel)%nat →
  position_loop fuel h (Some hd) pos (Some c) idx
  = Some ((c :: rest) !! (Z.to_nat (pos - 1 - idx) `min` length rest)%nat).
Proof.
  induction rest as [|c' rest IH]; intros c idx fuel Hl Hhd Hfuel;
    (destruct fuel as [|fuel]; [simpl in Hfuel; lia|]); simpl in Hl.
  - destruct Hl as [[Hn _] _]. simpl. rewrite (load_next_nxt _ _ _ Hn). simpl.
    rewrite decide_False by naive_solver. by rewrite Nat.min_0_r.
  - destruct Hl as [[Hn _] Hl]. simpl. rewrite (load_next_nxt _ _ _ Hn). simpl.
    case_decide as Hc.
    + rewrite IH; [|done|set_solver|simpl in Hfuel; lia].
      replace (Z.to_nat (pos - 1 - idx)) with (S (Z.to_nat (pos - 1 - (idx + 1)))) by lia.
      done.
    + assert (¬ idx < pos - 1).
      { intros ?. apply Hc. split; [|done]. intros [= ->]. set_solver. }
      replace (Z.to_nat (pos - 1 - idx)) with 0%nat by lia. done.
Qed.

(** The route after an insertion at position [pos]. *)
Definition insert_at {A} (pos : Z) (x : A) (r : list A) : list A :=
  if decide (pos ≤ 1) then x :: r
  else take (Z.to_nat (pos - 1)) r ++ x :: drop (Z.to_nat (pos - 1)) r.

Lemma insert_at_position_spec s r n d pos :
  route s r →
  detached s r (Some n) d →
  ∃ s', insert_at_position (Some n) pos s = Some s'
        ∧ route s' (insert_at pos (n, d) r)
        ∧ head s' = (if decide (head s = None ∨ pos ≤ 1) then Some n else head s)
        ∧ next_id s' = next_id s
        ∧ ∀ b, data_at (heap s') b = data_at (heap s) b.
Proof.
  intros Hr Hdet. unfold insert_at_position.
  destruct (decide (r = [])) as [->|Hne].
  - destruct (insert_end_spec s [] n d Hr Hdet) as (s' & E & Hr' & Hh & Hi & HD).
    destruct Hr as (Hhd & _). simpl in Hhd.
    unfold insert_end in E. rewrite Hhd in *.
    rewrite decide_True by auto. exists s'. split_and!; try done.
    unfold insert_at. case_decide; [done|]. by rewrite take_nil, drop_nil.
  - destruct r as [|[x dx] r]; [done|]. clear Hne.
    pose proof Hr as (Hhd & Hnd & Hring & Hdata). simpl in Hhd.
    rewrite Hhd. case_decide as Hpos.
    + destruct Hpos as [?|Hpos]; [done|].
      destruct Hdet as (n' & [= <-] & Hn & Hdn).
      destruct (exists_last (l := (x, dx) :: r)) as (r' & [q dq] & Er); [done|].
      pose proof Hn as Hn0.
      rewrite Er in Hring, Hnd, Hn. rewrite fmap_app in Hring, Hnd, Hn.
      simpl in Hring, Hnd, Hn.
      destruct (ring_last _ _ _ Hring) as (x' & Hx & Hq1 & Hq2).
      assert (x' = x) as ->.
      { assert (Hfm : x :: r.*1 = r'.*1 ++ [q]).
        { change (x :: r.*1) with (((x, dx) :: r).*1). by rewrite Er, fmap_app. }
        rewrite <-Hfm in Hx. simpl in Hx. congruence. }
      rewrite (load_prev_prv _ _ _ Hq2). simpl.
      destruct (store_next_ok (heap s) n (Some x)) as (h1 & E1 & N1 & P1 & D1).
      { rewrite Hdn. eauto. }
      destruct (store_prev_ok h1 n (Some q)) as (h2 & E2 & P2 & N2 & D2).
      { rewrite D1, Hdn. eauto. }
      destruct (store_next_ok h2 q (Some n)) as (h3 & E3 & N3 & P3 & D3).
      { rewrite D2, D1. eapply nxt_is_Some, Hq1. }
      destruct (store_prev_ok h3 x (Some n)) as (h4 & E4 & P4 & N4 & D4).
      { rewrite D3, D2, D1. eapply prv_is_Some, Hq2. }
      assert (HD : ∀ b, data_at h4 b = data_at (heap s) b).
      { intros b. by rewrite D4, D3, D2, D1. }
      rewrite E1. simpl. rewrite E2. simpl. rewrite E3. simpl. rewrite E4. simpl.
      exists (mkState h4 (Some n) (next_id s)).
      assert (Hxl : x ∈ r'.*1 ++ [q]).
      { apply hd_error_elem_of. done. }
      assert (Hxn : x ≠ n) by (intros ->; done).
      assert (Hqn : q ≠ n) by (intros ->; set_solver).
      split_and!; try done.
      unfold insert_at. rewrite decide_True by done.
      split_and!; simpl; try done.
      * apply NoDup_cons. split; [done|].
        destruct Hr as (_ & ? & _). done.
      * change (ring h4 ([n] ++ ((x, dx) :: r).*1)). apply ring_rotate.
        rewrite Er, fmap_app. simpl. rewrite <-app_assoc. simpl.
        eapply (ring_splice (heap s) h4 (r'.*1) q [] n x); [done..| |].
        -- intros b. rewrite N4, N3, N2, N1. repeat case_decide; simplify_eq; done.
        -- intros b. rewrite P4, P3, P2, P1. repeat case_decide; simplify_eq; done.
      * apply Forall_cons. simpl. split; [by rewrite HD|].
        eapply Forall_impl; [exact Hdata|]. intros y Hy. by rewrite HD.
    + assert (1 < pos) by (apply Z.nle_gt; intros ?; apply Hpos; auto).
      pose proof (route_size _ _ Hr) as Hsz. simpl in Hsz.
      rewrite fmap_cons in Hnd, Hring. simpl in Hnd, Hring.
      rewrite position_loop_spec with (rest := r.*1);
        [|done|rewrite NoDup_cons in Hnd; apply Hnd|rewrite length_fmap; lia].
      set (k := (Z.to_nat (pos - 1 - 1) `min` length r.*1)%nat).
      destruct (lookup_lt_is_Some_2 ((x, dx) :: r) k) as [[e de] He].
      { subst k. rewrite length_fmap. simpl. lia. }
      change (x :: r.*1) with (((x, dx) :: r).*1).
      rewrite list_lookup_fmap, He. simpl.
      pose proof (take_drop_middle _ _ _ He) as Hsplit.
      rewrite <-Hsplit in Hr, Hdet.
      destruct (insert_after_spec s _ e de _ n d Hr Hdet) as (s' & E & Hr' & Hh & Hi & HD).
      exists s'. split_and!; try done; [|congruence].
      unfold insert_at. rewrite decide_False by lia.
      replace (Z.to_nat (pos - 1)) with (S (Z.to_nat (pos - 1 - 1))) by lia.
      assert (Hk : (k = Z.to_nat (pos - 1 - 1) ∨ (k = length r ∧ k ≤ Z.to_nat (pos - 1 - 1)))%nat).
      { subst k. rewrite length_fmap. lia. }
      destruct Hk as [<-|[Hk1 Hk2]].
      * rewrite (take_S_r _ _ _ He), <-app_assoc. done.
      * rewrite take_ge, drop_ge by (simpl; lia).
        rewrite drop_ge in Hr', Hsplit by (simpl; lia).
        rewrite <-Hsplit at 1. rewrite <-app_assoc. done.
Qed.

End Insertion.

(** ** Lookup and deletion on a route *)

Section Deletion.
Context {W : Type}.
Implicit Types (h : gmap loc (Stop W)) (l : list loc) (a b : loc) (s : State W).
Implicit Types (r : list (loc * (Z * string * Z * W * W))) (d : Z * string * Z * W * W).

Definition d_id d : Z := d.1.1.1.1.
Definition d_name d : string := d.1.1.1.2.
Definition d_passengers d : Z := d.1.1.2.
Definition d_dist d : W := d.1.2.
Definition d_time d : W := d.2.

(** The first stop of the route whose name is [nm], letter case apart, and
    its index. *)
Definition lookup_name (nm : string) r
  : option (nat * (loc * (Z * string * Z * W * W))) :=
  list_find (λ ad, strcasecmp (d_name ad.2) nm = 0) r.

Lemma lookup_name_cons nm ad r :
  lookup_name nm (ad :: r)
  = (if decide (strcasecmp (d_name ad.2) nm = 0) then Some (0%nat, ad)
     else prod_map S Datatypes.id <$> lookup_name nm r).
Proof. done. Qed.

Lemma deref_ok h a d b :
  data_at h a = Some d → nxt h a = Some b →
  ∃ st, deref h (Some a) = Some st ∧ data st = d ∧ next st = Some b.
Proof.
  unfold data_at, nxt, deref. simpl. destruct (h !! a) as [st|]; [|done].
  simpl. intros [= <-] ?. eauto.
Qed.

Lemma find_by_name_loop_spec h hd nm rest : ∀ c fuel,
  links h (c.1 :: rest.*1 ++ [hd]) → hd ∉ rest.*1 →
  Forall (λ ad, data_at h ad.1 = Some ad.2) (c :: rest) →
  (length rest < fuel)%nat →
  find_by_name_loop fuel h (Some hd) nm (Some c.1)
  = Some ((λ x, x.2.1) <$> lookup_name nm (c :: rest)).
Proof.
  induction rest as [|c' rest IH]; intros [c dc] fuel Hl Hhd Hd Hfuel;
    (destruct fuel as [|fuel]; [simpl in Hfuel; lia|]);
    apply Forall_cons in Hd as [Hdc Hd]; rewrite lookup_name_cons;
    simpl in Hl, Hdc, Hhd, Hfuel; destruct Hl as [[Hn _] Hl];
    destruct (deref_ok _ _ _ _ Hdc Hn) as (st & Hst & <- & Hnx);
    cbn [find_by_name_loop fst]; rewrite Hst; cbn [mbind option_bind snd];
    change (d_name (data st)) with (name st);
    (case_decide; [done|]).
  - by rewrite decide_True.
  - rewrite decide_False.
    2:{ rewrite Hnx. intros [= Heq]. set_solver. }
    rewrite Hnx. rewrite (IH c'); [|done|set_solver|done|lia].
    destruct (lookup_name nm (c' :: rest)) as [[i y]|]; done.
Qed.

Lemma find_by_name_spec s r nm :
  route s r →
  find_by_name nm s = Some ((λ x, x.2.1) <$> lookup_name nm r).
Proof.
  intros Hr. pose proof (route_size _ _ Hr) as Hsz.
  destruct Hr as (Hhd & Hnd & Hring & Hdata).
  unfold find_by_name. rewrite Hhd. destruct r as [|[x dx] r]; [done|].
  rewrite fmap_cons in Hnd, Hring. simpl in *.
  apply (find_by_name_loop_spec (heap s) x nm r (x, dx)); try done.
  by apply NoDup_cons in Hnd as [? _].
Qed.

(** Every stop of a ring has a stop of the ring linked to it. *)
Lemma ring_pred h l1 a l2 :
  ring h (l1 ++ a :: l2) → ∃ p, p ∈ l1 ++ a :: l2 ∧ link h p a.
Proof.
  intros Hr. apply (ring_rotate h l1 (a :: l2)) in Hr. simpl in Hr.
  destruct (decide (l2 ++ l1 = [])) as [E|E].
  - rewrite E in Hr. simpl in Hr. destruct Hr as [Hr _].
    exists a. split; [|done]. apply elem_of_app. right. left.
  - destruct (exists_last E) as (m & q & E'). rewrite E' in Hr.
    rewrite <-app_assoc in Hr. simpl in Hr.
    apply (links_app h (a :: m) q [a]) in Hr as [_ [Hr _]].
    exists q. split; [|done].
    assert (q ∈ l2 ++ l1) as Hq by (rewrite E'; apply elem_of_app; right; left).
    apply elem_of_app in Hq as [Hq|Hq]; apply elem_of_app; [right; by right|by left].
Qed.

(** A stop that is its own successor is alone on the ring. *)
Lemma ring_self h l1 a l2 :
  NoDup (l1 ++ a :: l2) → ring h (l1 ++ a :: l2) → nxt h a = Some a →
  l1 = [] ∧ l2 = [].
Proof.
  intros Hnd Hr Ha. destruct (ring_succ _ _ _ _ Hr) as (b & Hb & Hab & _).
  assert (b = a) as -> by congruence.
  apply NoDup_app in Hnd as (_ & H1 & H2). apply NoDup_cons in H2 as [H2 _].
  destruct l2 as [|y l2]; [destruct l1 as [|x l1]; [done|]|]; simpl in Hb;
    injection Hb as ->; exfalso.
  - apply (H1 a); left.
  - apply H2. left.
Qed.

Lemma free_ok h a :
  is_Some (data_at h a) →
  free (Some a) h = Some (delete a h)
  ∧ (∀ b, b ≠ a → nxt (delete a h) b = nxt h b)
  ∧ (∀ b, b ≠ a → prv (delete a h) b = prv h b)
  ∧ (∀ b, b ≠ a → data_at (delete a h) b = data_at h b).
Proof.
  rewrite data_at_is_Some. intros [st Hst]. split.
  - unfold free. simpl. by rewrite Hst.
  - repeat split; intros b Hb; unfold nxt, prv, data_at;
      by rewrite lookup_delete_ne.
Qed.

Lemma delete_by_name_absent s r nm :
  route s r → lookup_name nm r = None → delete_by_name nm s = Some (0, s).
Proof.
  intros Hr Hl. unfold delete_by_name.
  rewrite (find_by_name_spec s r nm Hr), Hl. done.
Qed.

Lemma delete_by_name_found s r nm i a d :
  route s r → lookup_name nm r = Some (i, (a, d)) →
  ∃ s', delete_by_name nm s = Some (1, s')
        ∧ route s' (delete i r)
        ∧ next_id s' = next_id s
        ∧ heap s' !! a = None
        ∧ ∀ b, b ≠ a → data_at (heap s') b = data_at (heap s) b.
Proof.
  intros Hr Hl. unfold delete_by_name.
  rewrite (find_by_name_spec s r nm Hr), Hl. simpl.
  apply list_find_Some in Hl as (Hi & _ & _).
  rewrite delete_take_drop. rewrite <-(take_drop_middle _ _ _ Hi) in Hr.
  revert Hr. generalize (take i r) (drop (S i) r). clear Hi. intros r1 r2 Hr.
  pose proof Hr as (Hhd & Hnd & Hring & Hdata).
  rewrite fmap_app, fmap_cons in Hhd, Hnd, Hring. simpl in Hhd, Hnd, Hring.
  destruct (ring_succ _ _ _ _ Hring) as (n & Hn & Han).
  destruct (ring_pred _ _ _ _ Hring) as (p & _ & Hpa).
  pose proof Han as [Hn1 Hn2]. pose proof Hpa as [Hp1 Hp2].
  rewrite (load_next_nxt _ _ _ Hn1). simpl.
  assert (Ha : is_Some (data_at (heap s) a)) by (eapply nxt_is_Some, Hn1).
  assert (Hnd' : NoDup (r1.*1 ++ r2.*1)).
  { rewrite <-Permutation_middle in Hnd. by apply NoDup_cons in Hnd as [_ ?]. }
  assert (Hdata' : ∀ h', (∀ b, b ≠ a → data_at h' b = data_at (heap s) b) →
    Forall (λ ad, data_at h' ad.1 = Some ad.2) (r1 ++ r2)).
  { intros h' Hh'. rewrite <-Permutation_middle in Hnd, Hdata.
    apply NoDup_cons in Hnd as [Hnin _]. apply Forall_cons in Hdata as [_ Hdata].
    rewrite Forall_forall in Hdata |- *. intros [b db] Hb.
    simpl. rewrite Hh'; [by apply (Hdata (b, db))|].
    intros ->. apply Hnin. rewrite <-fmap_app.
    apply list_elem_of_fmap. by exists (a, db). }
  case_decide as Hself.
  - injection Hself as ->.
    destruct (ring_self _ _ _ _ Hnd Hring Hn1) as [E1 E2].
    apply fmap_nil_inv in E1, E2. subst r1 r2.
    destruct (free_ok (heap s) a Ha) as (-> & _ & _ & HD). simpl.
    eexists. split_and!; try done; simpl.
    apply lookup_delete_eq.
  - assert (Hna : n ≠ a) by congruence.
    assert (Hne : r1.*1 ++ r2.*1 ≠ []).
    { intros E. apply app_eq_nil in E as [E1 E2]. rewrite E1, E2 in Hn.
      simpl in Hn. congruence. }
    rewrite (load_prev_prv _ _ _ Hp2). simpl.
    destruct (store_next_ok (heap s) p (Some n)) as (h1 & E1 & N1 & P1 & D1).
    { eapply nxt_is_Some, Hp1. }
    destruct (store_prev_ok h1 n (Some p)) as (h2 & E2 & P2 & N2 & D2).
    { rewrite D1. eapply prv_is_Some, Hn2. }
    rewrite E1. simpl. rewrite E2. simpl.
    destruct (free_ok h2 a) as (-> & N3 & P3 & D3).
    { by rewrite D2, D1. }
    simpl. eexists. split_and!; try done; simpl.
    + split_and!; simpl.
      * rewrite fmap_app. destruct (r1.*1) as [|x l1] eqn:E; simpl in *.
        -- rewrite decide_True by done.
           destruct (r2.*1); [done|]. done.
        -- rewrite decide_False; [done|]. rewrite Hhd. intros [= ->].
           apply NoDup_cons in Hnd as [Hnd _]. apply Hnd. set_solver.
      * by rewrite fmap_app.
      * rewrite fmap_app.
        eapply (ring_unsplice (heap s) _ (r1.*1) a (r2.*1) p n); try done.
        -- intros b Hb. by rewrite N3, N2, N1.
        -- intros b Hb. by rewrite P3, P2, P1.
      * apply Hdata'. intros b Hb. by rewrite D3, D2, D1.
    + apply lookup_delete_eq.
    + intros b Hb. by rewrite D3, D2, D1.
Qed.

Lemma links_frame_all h h' l :
  links h l →
  (∀ a, a ∈ l → nxt h' a = nxt h a ∧ prv h' a = prv h a) →
  links h' l.
Proof.
  induction l as [|x [|y l] IH]; [done..|].
  intros [[Hn Hp] Hl] Hin. split.
  - destruct (Hin x) as [Hx _]; [left|].
    destruct (Hin y) as [_ Hy]; [right; left|].
    split; congruence.
  - apply IH; [done|]. intros a Ha. apply Hin. by right.
Qed.

Lemma clear_route_loop_spec hd rest : ∀ h fuel,
  links h (rest ++ [hd]) → NoDup rest → hd ∉ rest → (length rest < fuel)%nat →
  ∃ h', clear_route_loop fuel h (Some hd) (hd_error (rest ++ [hd])) = Some h'
        ∧ (∀ b, b ∈ rest → h' !! b = None)
        ∧ (∀ b, b ∉ rest → h' !! b = h !! b).
Proof.
  induction rest as [|c rest IH]; intros h fuel Hl Hnd Hhd Hfuel;
    (destruct fuel as [|fuel]; [simpl in Hfuel; lia|]); simpl.
  - rewrite decide_True by done. exists h. split_and!; [done| |done].
    intros b Hb. by apply elem_of_nil in Hb.
  - rewrite decide_False by (intros [= ->]; apply Hhd; left).
    apply NoDup_cons in Hnd as [Hc Hnd].
    assert (Hcn : ∃ b, hd_error (rest ++ [hd]) = Some b ∧ link h c b ∧ links h (rest ++ [hd])).
    { simpl in Hl. destruct (rest ++ [hd]) as [|b l] eqn:E.
      - by destruct rest.
      - destruct Hl as [? ?]. eauto. }
    destruct Hcn as (b & Hb & [Hcb _] & Hl').
    rewrite (load_next_nxt _ _ _ Hcb). simpl.
    destruct (free_ok h c) as (-> & N & P & D).
    { eapply nxt_is_Some, Hcb. }
    simpl. rewrite <-Hb.
    destruct (IH (delete c h) fuel) as (h' & -> & H1 & H2).
    + apply (links_frame_all h); [done|]. intros a Ha.
      assert (a ≠ c).
      { intros ->. apply elem_of_app in Ha as [Ha|Ha]; [done|].
        apply list_elem_of_singleton in Ha as ->. apply Hhd. left. }
      by rewrite N, P.
    + done.
    + intros ?. apply Hhd. by right.
    + simpl in Hfuel. lia.
    + exists h'. split_and!; [done|..].
      * intros a Ha. apply elem_of_cons in Ha as [->|Ha]; [|by apply H1].
        rewrite H2 by done. apply lookup_delete_eq.
      * intros a Ha. apply not_elem_of_cons in Ha as [Hac Ha].
        rewrite H2 by done. by apply lookup_delete_ne.
Qed.

Lemma clear_route_spec s r :
  route s r →
  ∃ s', clear_route s = Some s'
        ∧ route s' []
        ∧ next_id s' = next_id s
        ∧ (∀ b, b ∈ r.*1 → heap s' !! b = None)
        ∧ (∀ b, b ∉ r.*1 → heap s' !! b = heap s !! b).
Proof.
  intros Hr. pose proof (route_size _ _ Hr) as Hsz.
  pose proof Hr as (Hhd & Hnd & Hring & Hdata).
  unfold clear_route. destruct r as [|[x dx] r]; simpl in Hhd; rewrite Hhd.
  - exists s. split_and!; try done.
    intros b Hb. by apply elem_of_nil in Hb.
  - rewrite fmap_cons in Hnd, Hring. simpl in Hnd, Hring, Hsz.
    apply NoDup_cons in Hnd as [Hx Hnd].
    assert (Hcn : ∃ b, hd_error (r.*1 ++ [x]) = Some b ∧ link (heap s) x b
                       ∧ links (heap s) (r.*1 ++ [x])).
    { destruct (r.*1 ++ [x]) as [|b l] eqn:E.
      - by destruct (r.*1).
      - destruct Hring as [? ?]. eauto. }
    destruct Hcn as (b & Hb & [Hxb _] & Hl').
    rewrite (load_next_nxt _ _ _ Hxb). simpl. rewrite <-Hb.
    destruct (clear_route_loop_spec x (r.*1) (heap s) (size (heap s)))
      as (h1 & -> & H1 & H2); [done..|rewrite length_fmap; lia|].
    simpl. destruct (free_ok h1 x) as (-> & _).
    { apply data_at_is_Some. rewrite H2 by done.
      apply data_at_is_Some. eapply nxt_is_Some, Hxb. }
    simpl. eexists. split_and!; [done| |done|..]; simpl.
    + split_and!; simpl; try done. apply NoDup_nil_2.
    + intros a Ha. apply elem_of_cons in Ha as [->|Ha].
      * apply lookup_delete_eq.
      * rewrite lookup_delete_ne by (intros ->; done). by apply H1.
    + intros a Ha. apply not_elem_of_cons in Ha as [Hax Ha].
      rewrite lookup_delete_ne by done. by apply H2.
Qed.

End Deletion.

(** ** Creation of stops and the closure of the cycle *)

Section Creation.
Context {W : Type}.
Implicit Types (h : gmap loc (Stop W)) (l : list loc) (a b : loc) (s : State W).
Implicit Types (r : list (loc * (Z * string * Z * W * W))) (d : Z * string * Z * W * W).

(** A route is kept by a change of state that leaves its stops and [head]
    alone. *)
Lemma route_frame s s' r :
  route s r → head s' = head s →
  (∀ a, a ∈ r.*1 → heap s' !! a = heap s !! a) →
  route s' r.
Proof.
  intros (Hhd & Hnd & Hring & Hdata) Hh Hsame. split_and!; [congruence|done|..].
  - destruct (r.*1) as [|x l] eqn:E; [done|]. simpl in *.
    apply (links_frame_all (heap s)); [done|]. intros a Ha.
    assert (a ∈ x :: l) as Ha'.
    { apply elem_of_cons in Ha as [->|Ha]; [left|].
      apply elem_of_app in Ha as [Ha|Ha]; [by right|].
      apply list_elem_of_singleton in Ha as ->. left. }
    unfold nxt, prv. by rewrite Hsame.
  - rewrite Forall_forall in Hdata |- *. intros [a d] Had.
    unfold data_at. simpl. rewrite Hsame.
    + by apply (Hdata (a, d)).
    + apply list_elem_of_fmap. by exists (a, d).
Qed.

Lemma malloc_fresh h : h !! malloc h = None.
Proof. apply not_elem_of_dom. unfold malloc. apply is_fresh. Qed.

(** [create_stop] leaves the route as it is and returns a detached stop
    with the next identifier and the first 63 characters of the name. *)
Lemma create_stop_spec s r nm pass (dist time : W) :
  route s r →
  ∃ a s1, create_stop nm pass dist time s = (Some a, s1)
    ∧ route s1 r
    ∧ detached s1 r (Some a) (next_id s, strncpy (NAME_LEN - 1) nm, pass, dist, time)
    ∧ head s1 = head s
    ∧ next_id s1 = wrap_int (next_id s + 1)
    ∧ heap s !! a = None
    ∧ (∀ b, b ≠ a → heap s1 !! b = heap s !! b).
Proof.
  intros Hr. exists (malloc (heap s)), (create_stop nm pass dist time s).2.
  pose proof (malloc_fresh (heap s)) as Hf.
  assert (Hnin : malloc (heap s) ∉ r.*1).
  { intros Hin. apply (route_alloc s r _ Hr) in Hin.
    apply data_at_is_Some in Hin. rewrite Hf in Hin. by destruct Hin. }
  split_and!; try done; simpl.
  - apply (route_frame s); [done..|]. intros a Ha. simpl.
    apply lookup_insert_ne. by intros <-.
  - exists (malloc (heap s)). split_and!; [done..|].
    unfold data_at. simpl. by rewrite lookup_insert_eq.
  - intros b Hb. by apply lookup_insert_ne.
Qed.

(** [n] steps from a stop of the ring lead to the stop [n] places further,
    around the ring. *)
Lemma advance_links h l : ∀ a n b,
  links h (a :: l) → (a :: l) !! n = Some b → advance h n (Some a) = Some b.
Proof.
  induction l as [|c l IH]; intros a n b Hl Hn.
  - destruct n; simpl in *; [done|]. by destruct n.
  - destruct n as [|n]; [done|]. simpl in Hl, Hn. destruct Hl as [[Hac _] Hl].
    simpl. rewrite Hac. by apply IH.
Qed.

Lemma route_advance s r1 r2 a da :
  route s (r1 ++ (a, da) :: r2) →
  advance (heap s) (length (r1 ++ (a, da) :: r2)) (Some a) = Some a
  ∧ ∀ k, (0 < k < length (r1 ++ (a, da) :: r2))%nat →
         advance (heap s) k (Some a) ≠ Some a.
Proof.
  intros (_ & Hnd & Hring & _).
  rewrite fmap_app, fmap_cons in Hnd, Hring. simpl in Hnd, Hring.
  apply (ring_rotate _ (r1.*1) (a :: r2.*1)) in Hring. simpl in Hring.
  rewrite <-Permutation_middle, (Permutation_app_comm (r1.*1)) in Hnd.
  assert (Hlen : length (r1 ++ (a, da) :: r2) = S (length (r2.*1 ++ r1.*1))).
  { rewrite !length_app, !length_fmap. simpl. lia. }
  rewrite Hlen. revert Hnd Hring. generalize (r2.*1 ++ r1.*1). intros l Hnd' Hring.
  split.
  - apply (advance_links _ (l ++ [a])); [done|].
    change (a :: l ++ [a]) with ((a :: l) ++ [a]).
    rewrite lookup_app_r by (simpl; lia). simpl. by rewrite Nat.sub_diag.
  - intros k Hk Hadv.
    destruct (lookup_lt_is_Some_2 (a :: l) k) as [b Hb]; [simpl; lia|].
    rewrite (advance_links _ (l ++ [a]) a k b) in Hadv; [|done|].
    + injection Hadv as ->.
      pose proof (NoDup_lookup _ 0%nat k a Hnd' eq_refl Hb). lia.
    + change (a :: l ++ [a]) with ((a :: l) ++ [a]). by apply lookup_app_l_Some.
Qed.

End Creation.

(** ** Loading *)

Section Loading.
Context {W : Type} `{WeightIO W}.
Implicit Types (h : gmap loc (Stop W)) (l : list loc) (a b : loc) (s : State W).
Implicit Types (r : list (loc * (Z * string * Z * W * W))) (d : Z * string * Z * W * W).

(** The lines that successive calls of [fgets (line, LINE_LEN, f)] read
    from the unread part of a file. *)
Fixpoint fgets_lines (fuel : nat) (f : string) : list string :=
  match fuel with
  | O => []
  | S fuel' =>
      match fgets LINE_LEN f with
      | None => []
      | Some (line, f') => line :: fgets_lines fuel' f'
      end
  end.

(** The data rows of a file: the lines after the first one. *)
Definition data_lines (f : string) : list string :=
  match fgets LINE_LEN f with
  | None => []
  | Some (_, f') => fgets_lines (S (String.length f')) f'
  end.

(** The four values of a line on which [sscanf] assigns all four. *)
Definition row_of_line (line : string) : option (string * Z * W * W) :=
  match sscanf_row line with
  | (n, Some row) => if 4 <=? n then Some row else None
  | (_, None) => None
  end.

(** The stops that [create_stop] makes of a list of rows, the first one with
    the identifier [i]. *)
Fixpoint assign_ids (i : Z) (rows : list (string * Z * W * W))
  : list (Z * string * Z * W * W) :=
  match rows with
  | [] => []
  | (nm, pass, dist, time) :: rows' =>
      (i, strncpy (NAME_LEN - 1) nm, pass, dist, time)
      :: assign_ids (wrap_int (i + 1)) rows'
  end.

(** The value of [next_id] after [n] calls of [create_stop]. *)
Fixpoint next_id_after (n : nat) (i : Z) : Z :=
  match n with
  | O => i
  | S n' => next_id_after n' (wrap_int (i + 1))
  end.

Lemma fgets_chars_length n f line f' :
  fgets_chars n f = (line, f') →
  String.length f = (String.length line + String.length f')%nat.
Proof.
  revert f line f'. induction n as [|n IH]; intros [|c f] line f' E; simpl in E;
    try (injection E as <- <-; done).
  case_decide.
  - injection E as <- <-. done.
  - destruct (fgets_chars n f) as [l1 r1] eqn:E1. injection E as <- <-.
    simpl. by rewrite (IH _ _ _ E1).
Qed.

Lemma fgets_chars_nonempty n c f line f' :
  fgets_chars (S n) (String c f) = (line, f') → (0 < String.length line)%nat.
Proof.
  simpl. case_decide.
  - intros [= <- <-]. simpl. lia.
  - destruct (fgets_chars n f). intros [= <- <-]. simpl. lia.
Qed.

(** [fgets] reads at least one character. *)
Lemma fgets_shorter f line f' :
  fgets LINE_LEN f = Some (line, f') → (String.length f' < String.length f)%nat.
Proof.
  unfold fgets. destruct f as [|c f]; [done|]. intros E.
  apply (inj Some) in E.
  pose proof (fgets_chars_length _ _ _ _ E) as Hlen. rewrite Hlen.
  change (LINE_LEN - 1)%nat with (S 254) in E.
  apply fgets_chars_nonempty in E. lia.
Qed.

Lemma load_from_file_loop_spec : ∀ fuel f s r,
  (String.length f < fuel)%nat → route s r →
  ∃ s' r', load_from_file_loop fuel f s = Some s'
    ∧ route s' (r ++ r')
    ∧ r'.*2 = assign_ids (next_id s) (omap row_of_line (fgets_lines fuel f))
    ∧ next_id s' = next_id_after (length r') (next_id s).
Proof.
  induction fuel as [|fuel IH]; intros f s r Hfuel Hr; [lia|].
  cbn [load_from_file_loop fgets_lines].
  destruct (fgets LINE_LEN f) as [[line f']|] eqn:Eg.
  2:{ exists s, []. rewrite app_nil_r. done. }
  pose proof (fgets_shorter _ _ _ Eg) as Hlt.
  cbn [omap list_omap]. fold (omap row_of_line (fgets_lines fuel f')).
  assert (Hskip : row_of_line line = None →
    ∃ s' r', load_from_file_loop fuel f' s = Some s' ∧ route s' (r ++ r')
      ∧ r'.*2 = assign_ids (next_id s)
                  (match row_of_line line with
                   | Some y => y :: omap row_of_line (fgets_lines fuel f')
                   | None => omap row_of_line (fgets_lines fuel f')
                   end)
      ∧ next_id s' = next_id_after (length r') (next_id s)).
  { intros Hrow. rewrite Hrow. apply IH; [lia|done]. }
  unfold row_of_line at 1 2 in Hskip. unfold row_of_line at 1.
  destruct (sscanf_row line) as [n [[[[nm pass] dist] time]|]] eqn:Es; [|by apply Hskip].
  destruct (4 <=? n) eqn:En; [|by apply Hskip]. clear Hskip.
  destruct (create_stop_spec s r nm pass dist time Hr)
    as (a & s1 & -> & Hr1 & Hdet & Hh1 & Hi1 & _).
  destruct (insert_end_spec s1 r a _ Hr1 Hdet) as (s2 & -> & Hr2 & Hh2 & Hi2 & _).
  cbn [mbind option_bind].
  destruct (IH f' s2 (r ++ [(a, (next_id s, strncpy (NAME_LEN - 1) nm, pass, dist, time))]))
    as (s' & r' & -> & Hr' & Hd' & Hi'); [lia|done|].
  eexists s', (_ :: r'). split_and!; [done|..].
  - rewrite <-app_assoc in Hr'. exact Hr'.
  - cbn [fmap list_fmap snd assign_ids]. 
    change (list_fmap _ _ snd r') with (r'.*2).
    rewrite Hd', Hi2, Hi1. done.
  - cbn [length next_id_after]. rewrite Hi', Hi2, Hi1. done.
Qed.

Lemma load_from_file_closed s fs filename :
  fopen_r fs filename = None → load_from_file filename fs s = Some (0, s).
Proof. intros E. unfold load_from_file. by rewrite E. Qed.

Lemma load_from_file_open s r fs filename f :
  route s r → fopen_r fs filename = Some f →
  ∃ s1, clear_route s = Some s1 ∧ route s1 [] ∧ next_id s1 = next_id s
    ∧ match fgets LINE_LEN f with
      | None => load_from_file filename fs s = Some (0, s1)
      | Some _ =>
          ∃ s' r', load_from_file filename fs s = Some (1, s')
            ∧ route s' r'
            ∧ r'.*2 = assign_ids (next_id s) (omap row_of_line (data_lines f))
            ∧ next_id s' = next_id_after (length r') (next_id s)
      end.
Proof.
  intros Hr Ef. unfold load_from_file, data_lines. rewrite Ef.
  destruct (clear_route_spec s r Hr) as (s1 & E1 & Hr1 & Hi1 & _).
  exists s1. rewrite E1. cbn [mbind option_bind]. split_and!; [done..|].
  destruct (fgets LINE_LEN f) as [[line f']|]; [|done].
  destruct (load_from_file_loop_spec (S (String.length f')) f' s1 [])
    as (s' & r' & -> & Hr' & Hd & Hi); [lia|done|].
  exists s', r'. rewrite <-Hi1. done.
Qed.

End Loading.

(** ** The session *)

Section Session.
Context {W : Type} `{Weight W} `{WeightIO W}.
Implicit Types (h : gmap loc (Stop W)) (l : list loc) (a b : loc) (s : State W).
Implicit Types (r : list (loc * (Z * string * Z * W * W))) (d : Z * string * Z * W * W).

(** [insert_end (create_stop (...))] for each row of a table. *)
Fixpoint insert_all (rows : list (string * Z * W * W)) s : option (State W) :=
  match rows with
  | [] => Some s
  | (nm, pass, dist, time) :: rows' =>
      let '(node, s1) := create_stop nm pass dist time s in
      s2 ← insert_end node s1;
      insert_all rows' s2
  end.

(** [populate_sample] with the table of the five sample stops as a
    parameter. *)
Definition populate_with (rows : list (string * Z * W * W)) s : option (State W) :=
  s1 ← clear_route s;
  insert_all rows (mkState (heap s1) (head s1) 1).

(** The choices of the menu that change the route or the files, with the
    values read from the user. *)
Inductive command : Type :=
  | InsertEnd (nm : string) (pass : Z) (dist time : W)
  | InsertAfter (nm after : string) (pass : Z) (dist time : W)
  | InsertAtPosition (nm : string) (pos pass : Z) (dist time : W)
  | DeleteByName (nm : string)
  | SaveToFile (filename : string)
  | LoadFromFile (filename : string)
  | PopulateSample.

(** One pass of the loop of [menu] on such a choice. *)
Definition run_command (sample : list (string * Z * W * W)) (c : command)
    (fs : FS) s : option (FS * State W) :=
  match c with
  | InsertEnd nm pass dist time =>
      let '(node, s1) := create_stop nm pass dist time s in
      s2 ← insert_end node s1; Some (fs, s2)
  | InsertAfter nm after pass dist time =>
      let '(node, s1) := create_stop nm pass dist time s in
      existing ← find_by_name after s1;
      s2 ← match existing with
           | None => insert_end node s1
           | Some _ => insert_after existing node s1
           end;
      Some (fs, s2)
  | InsertAtPosition nm pos pass dist time =>
      let '(node, s1) := create_stop nm pass dist time s in
      s2 ← insert_at_position node pos s1; Some (fs, s2)
  | DeleteByName nm =>
      '(_, s1) ← delete_by_name nm s; Some (fs, s1)
  | SaveToFile filename =>
      '(_, fs1) ← save_to_file filename fs s; Some (fs1, s)
  | LoadFromFile filename =>
      '(_, s1) ← load_from_file filename fs s; Some (fs, s1)
  | PopulateSample =>
      s1 ← populate_with sample s; Some (fs, s1)
  end.

(** The states of a session: the program starts with an empty route, and
    the files are whatever they are at each choice. *)
Inductive reachable (sample : list (string * Z * W * W)) : State W → Prop :=
  | reachable_init : reachable sample init
  | reachable_step s c fs fs' s' :
      reachable sample s → run_command sample c fs s = Some (fs', s') →
      reachable sample s'.

End Session.

(** ** The traversals of the metrics and of the save *)

Lemma append_cons (x : ascii) (a b : string) :
  String x a +:+ b = String x (a +:+ b).
Proof. done. Qed.

Lemma append_assoc (a b c : string) : (a +:+ b) +:+ c = a +:+ (b +:+ c).
Proof. induction a as [|x a IH]; [done|]. by rewrite !append_cons, IH. Qed.

Lemma append_nil_r (a : string) : a +:+ "" = a.
Proof. induction a as [|x a IH]; [done|]. by rewrite append_cons, IH. Qed.

Lemma append_length (a b : string) :
  String.length (a +:+ b) = (String.length a + String.length b)%nat.
Proof.
  induction a as [|x a IH]; [done|]. rewrite append_cons. simpl. by rewrite IH.
Qed.

Section Traversals.
Context {W : Type} `{Weight W} `{WeightIO W}.
Implicit Types (h : gmap loc (Stop W)) (l : list loc) (a b : loc) (s : State W).
Implicit Types (r : list (loc * (Z * string * Z * W * W))) (d : Z * string * Z * W * W).

(** [accumulate] and [format_row] on the data of a stop. *)
Definition add_leg (acc : W * W) d : W * W :=
  (w_add acc.1 (d_dist d), w_add acc.2 (d_time d)).

Definition format_data d : string :=
  print_d (d_id d) +:+ "," +:+ d_name d +:+ "," +:+ print_d (d_passengers d) +:+ ","
  +:+ printf_f6 (d_dist d) +:+ "," +:+ printf_f6 (d_time d)
  +:+ String NL EmptyString.

(** The text of the rows of a route. *)
Definition format_rows (ds : list (Z * string * Z * W * W)) : string :=
  foldr (λ d out, format_data d +:+ out) EmptyString ds.

Lemma total_distance_time_loop_spec h hd rest : ∀ c fuel acc,
  links h (c.1 :: rest.*1 ++ [hd]) → hd ∉ rest.*1 →
  Forall (λ ad, data_at h ad.1 = Some ad.2) (c :: rest) →
  (length rest < fuel)%nat →
  total_distance_time_loop fuel h (Some hd) (Some c.1) acc
  = Some (foldl add_leg acc (c :: rest).*2).
Proof.
  induction rest as [|c' rest IH]; intros [c dc] fuel acc Hl Hhd Hd Hfuel;
    (destruct fuel as [|fuel]; [simpl in Hfuel; lia|]);
    apply Forall_cons in Hd as [Hdc Hd];
    simpl in Hl, Hdc, Hhd, Hfuel; destruct Hl as [[Hn _] Hl];
    destruct (deref_ok _ _ _ _ Hdc Hn) as (st & Hst & <- & Hnx);
    cbn [total_distance_time_loop fst]; rewrite Hst; cbn [mbind option_bind snd].
  - by rewrite decide_True.
  - rewrite decide_False.
    2:{ rewrite Hnx. intros [= Heq]. set_solver. }
    rewrite Hnx. rewrite (IH c'); [done|done|set_solver|done|lia].
Qed.

Lemma total_distance_time_spec s r :
  route s r →
  total_distance_time s = Some (foldl add_leg (w_zero, w_zero) r.*2).
Proof.
  intros Hr. pose proof (route_size _ _ Hr) as Hsz.
  destruct Hr as (Hhd & Hnd & Hring & Hdata).
  unfold total_distance_time. rewrite Hhd. destruct r as [|[x dx] r]; [done|].
  rewrite fmap_cons in Hnd, Hring. simpl in *.
  apply (total_distance_time_loop_spec (heap s) x r (x, dx)); try done.
  by apply NoDup_cons in Hnd as [? _].
Qed.

Lemma save_to_file_loop_spec h hd rest : ∀ c fuel out,
  links h (c.1 :: rest.*1 ++ [hd]) → hd ∉ rest.*1 →
  Forall (λ ad, data_at h ad.1 = Some ad.2) (c :: rest) →
  (length rest < fuel)%nat →
  save_to_file_loop fuel h (Some hd) (Some c.1) out
  = Some (out +:+ format_rows (c :: rest).*2).
Proof.
  induction rest as [|c' rest IH]; intros [c dc] fuel out Hl Hhd Hd Hfuel;
    (destruct fuel as [|fuel]; [simpl in Hfuel; lia|]);
    apply Forall_cons in Hd as [Hdc Hd];
    simpl in Hl, Hdc, Hhd, Hfuel; destruct Hl as [[Hn _] Hl];
    destruct (deref_ok _ _ _ _ Hdc Hn) as (st & Hst & <- & Hnx);
    cbn [save_to_file_loop fst]; rewrite Hst; cbn [mbind option_bind snd];
    change (format_row st) with (format_data (data st)).
  - rewrite decide_True by done.
    cbn [format_rows foldr fmap list_fmap snd]. by rewrite append_nil_r.
  - rewrite decide_False.
    2:{ rewrite Hnx. intros [= Heq]. set_solver. }
    rewrite Hnx. rewrite (IH c'); [|done|set_solver|done|lia].
    by rewrite append_assoc.
Qed.

Lemma save_to_file_spec s r filename fs :
  route s r →
  save_to_file filename fs s
  = Some (if decide (r ≠ [] ∧ filename ∉ denied fs)
          then (1, write_file fs filename (csv_header +:+ format_rows r.*2))
          else (0, fs)).
Proof.
  intros Hr. pose proof (route_size _ _ Hr) as Hsz.
  destruct Hr as (Hhd & Hnd & Hring & Hdata).
  unfold save_to_file. rewrite Hhd. destruct r as [|[x dx] r]; cbn [hd_error fmap list_fmap fst].
  { case_decide as Hc; [by destruct Hc as [Hc _]|done]. }
  unfold fopen_w. case_bool_decide.
  - rewrite decide_True by done.
    rewrite fmap_cons in Hnd, Hring. simpl in Hnd, Hring, Hsz.
    rewrite (save_to_file_loop_spec (heap s) x r (x, dx)); try done.
    by apply NoDup_cons in Hnd as [? _].
  - rewrite decide_False by naive_solver. done.
Qed.

Lemma distance_between_loop_spec h start target arc : ∀ c fuel acc,
  links h (c.1 :: arc.*1 ++ [target]) → start ∉ arc.*1 → target ∉ arc.*1 →
  Forall (λ ad, data_at h ad.1 = Some ad.2) (c :: arc) →
  (length arc < fuel)%nat →
  distance_between_loop fuel h (Some start) (Some target) (Some c.1) acc
  = Some (1, foldl add_leg acc (c :: arc).*2).
Proof.
  induction arc as [|c' arc IH]; intros [c dc] fuel acc Hl Hs Ht Hd Hfuel;
    (destruct fuel as [|fuel]; [simpl in Hfuel; lia|]);
    apply Forall_cons in Hd as [Hdc Hd];
    simpl in Hl, Hdc, Hs, Ht, Hfuel; destruct Hl as [[Hn _] Hl];
    destruct (deref_ok _ _ _ _ Hdc Hn) as (st & Hst & <- & Hnx);
    cbn [distance_between_loop fst]; rewrite Hst; cbn [mbind option_bind snd].
  - by rewrite decide_True.
  - rewrite decide_False.
    2:{ rewrite Hnx. intros [= Heq]. set_solver. }
    rewrite decide_False.
    2:{ rewrite Hnx. intros [= Heq]. set_solver. }
    rewrite Hnx. rewrite (IH c'); [done|done|set_solver|set_solver|done|lia].
Qed.

(** The walk from a stop [a] of the route to another one [b] adds up the
    legs of the stops from [a] up to the one before [b]. *)
Lemma distance_between_walk s r a da m b rest acc :
  route s r → r.*1 ≡ₚ (a :: m.*1 ++ b :: rest) →
  ring (heap s) (a :: m.*1 ++ b :: rest) →
  Forall (λ ad, data_at (heap s) ad.1 = Some ad.2) ((a, da) :: m) →
  distance_between_loop (size (heap s)) (heap s) (Some a) (Some b) (Some a) acc
  = Some (1, foldl add_leg acc ((a, da) :: m).*2).
Proof.
  intros Hr Hp Hring Hd. pose proof (route_size _ _ Hr) as Hsz.
  destruct Hr as (_ & Hnd & _). rewrite Hp in Hnd.
  rewrite <-(length_fmap fst), Hp in Hsz.
  simpl in Hsz. rewrite length_app in Hsz. simpl in Hsz.
  apply NoDup_cons in Hnd as [Ha Hnd]. apply NoDup_app in Hnd as (_ & Hm & Hb).
  apply NoDup_cons in Hb as [Hb _].
  simpl in Hring. rewrite <-app_assoc in Hring. simpl in Hring.
  apply (links_app (heap s) (a :: m.*1) b) in Hring as [Hl _].
  apply (distance_between_loop_spec (heap s) a b m (a, da)); try done.
  - intros Hin. apply Ha. apply elem_of_app. by left.
  - intros Hin. apply (Hm b Hin). left.
  - rewrite length_fmap in Hsz. lia.
Qed.

End Traversals.

(** ** The cyclic invariant *)

Section Invariant.
Context {W : Type} `{WeightIO W}.
Implicit Types (h : gmap loc (Stop W)) (l : list loc) (a b : loc) (s : State W).
Implicit Types (r : list (loc * (Z * string * Z * W * W))) (d : Z * string * Z * W * W).

(** Cyclic closure: every stop of the route has one successor and one
    predecessor among the stops of the route, and the walk along [next]
    from a stop comes back to it after as many steps as there are stops, and
    not before. *)
Definition closed_cycle s : Prop :=
  ∀ r a, route s r → a ∈ r.*1 →
    (∃ b c, b ∈ r.*1 ∧ c ∈ r.*1 ∧ link (heap s) a b ∧ link (heap s) c a
            ∧ ∀ c', c' ∈ r.*1 → nxt (heap s) c' = Some a → c' = c)
    ∧ advance (heap s) (length r) (Some a) = Some a
    ∧ ∀ k, (0 < k < length r)%nat → advance (heap s) k (Some a) ≠ Some a.

(** Every operation on the route returns, in a state that has the cyclic
    invariant.  New stops are detached ones, as [create_stop] returns them,
    and the stop after which one inserts is a stop of the route. *)
Definition preserved_by_operations s : Prop :=
  (∀ r node d, route s r → detached s r node d →
     ∃ s', insert_end node s = Some s' ∧ cyclic s')
  ∧ (∀ r existing node d, route s r → detached s r node d →
     (existing = None ∨ ∃ a, existing = Some a ∧ a ∈ r.*1) →
     ∃ s', insert_after existing node s = Some s' ∧ cyclic s')
  ∧ (∀ r node d pos, route s r → detached s r node d →
     ∃ s', insert_at_position node pos s = Some s' ∧ cyclic s')
  ∧ (∀ nm, ∃ n s', delete_by_name nm s = Some (n, s') ∧ cyclic s')
  ∧ (∃ s', clear_route s = Some s' ∧ cyclic s')
  ∧ (∀ filename fs, ∃ n s', load_from_file filename fs s = Some (n, s') ∧ cyclic s').

Lemma route_split s r a :
  route s r → a ∈ r.*1 → ∃ r1 da r2, r = r1 ++ (a, da) :: r2.
Proof.
  intros _ Ha. apply list_elem_of_fmap in Ha as [[a' da] [-> Hin]].
  apply list_elem_of_split in Hin as (r1 & r2 & ->). by exists r1, da, r2.
Qed.

Lemma closed_cycle_holds s : closed_cycle s.
Proof.
  intros r a Hr Ha. destruct (route_split s r a Hr Ha) as (r1 & da & r2 & ->).
  destruct (route_advance s r1 r2 a da Hr) as [Hadv Hfirst].
  split; [|done].
  destruct Hr as (_ & _ & Hring & _).
  rewrite fmap_app, fmap_cons in Hring |- *. simpl in Hring |- *.
  destruct (ring_succ _ _ _ _ Hring) as (b & Hb & Hab).
  destruct (ring_pred _ _ _ _ Hring) as (c & Hc & Hca).
  exists b, c. split_and!; try done.
  - apply hd_error_elem_of in Hb.
    apply elem_of_app in Hb as [Hb|Hb]; [apply elem_of_app; right; by right|].
    apply elem_of_app in Hb as [Hb|Hb]; [apply elem_of_app; by left|].
    apply list_elem_of_singleton in Hb as ->. apply elem_of_app. right. left.
  - intros c' Hc' Hn.
    apply list_elem_of_split in Hc' as (l1 & l2 & E). rewrite E in Hring.
    destruct (ring_succ _ _ _ _ Hring) as (b' & _ & Hn' & Hp').
    destruct Hca as [_ Hp]. congruence.
Qed.

Lemma insert_after_cyclic s r existing node d :
  route s r → detached s r node d →
  (existing = None ∨ ∃ a, existing = Some a ∧ a ∈ r.*1) →
  ∃ s', insert_after existing node s = Some s' ∧ cyclic s'.
Proof.
  intros Hr Hdet [->|(a & -> & Ha)].
  - pose proof Hdet as (n & -> & _).
    destruct (insert_end_spec s r n d Hr Hdet) as (s' & E & Hr' & _).
    exists s'. split; [done|]. by eexists.
  - pose proof Hdet as (n & -> & _).
    destruct (route_split s r a Hr Ha) as (r1 & da & r2 & ->).
    destruct (insert_after_spec s r1 a da r2 n d Hr Hdet) as (s' & E & Hr' & _).
    exists s'. split; [done|]. by eexists.
Qed.

Lemma delete_by_name_cyclic s nm :
  cyclic s → ∃ n s', delete_by_name nm s = Some (n, s') ∧ cyclic s'.
Proof.
  intros [r Hr]. destruct (lookup_name nm r) as [[i [a d]]|] eqn:E.
  - destruct (delete_by_name_found s r nm i a d Hr E) as (s' & E' & Hr' & _).
    exists 1, s'. split; [done|]. by eexists.
  - exists 0, s. split; [by apply (delete_by_name_absent s r)|]. by eexists.
Qed.

Lemma load_from_file_cyclic s filename fs :
  cyclic s → ∃ n s', load_from_file filename fs s = Some (n, s') ∧ cyclic s'.
Proof.
  intros [r Hr]. destruct (fopen_r fs filename) as [f|] eqn:Ef.
  - destruct (load_from_file_open s r fs filename f Hr Ef)
      as (s1 & _ & Hr1 & _ & Hload).
    destruct (fgets LINE_LEN f).
    + destruct Hload as (s' & r' & E & Hr' & _). exists 1, s'.
      split; [done|]. by eexists.
    + exists 0, s1. split; [done|]. by eexists.
  - exists 0, s. split; [by apply load_from_file_closed|]. by eexists.
Qed.

Lemma cyclic_preserved s : cyclic s → preserved_by_operations s.
Proof.
  intros Hc. split_and!.
  - intros r node d Hr Hdet. pose proof Hdet as (n & -> & _).
    destruct (insert_end_spec s r n d Hr Hdet) as (s' & E & Hr' & _).
    exists s'. split; [done|]. by eexists.
  - intros r existing node d. apply insert_after_cyclic.
  - intros r node d pos Hr Hdet. pose proof Hdet as (n & -> & _).
    destruct (insert_at_position_spec s r n d pos Hr Hdet) as (s' & E & Hr' & _).
    exists s'. split; [done|]. by eexists.
  - intros nm. by apply delete_by_name_cyclic.
  - destruct Hc as [r Hr].
    destruct (clear_route_spec s r Hr) as (s' & E & Hr' & _).
    exists s'. split; [done|]. by eexists.
  - intros filename fs. by apply load_from_file_cyclic.
Qed.

Lemma insert_all_spec rows : ∀ s r,
  route s r →
  ∃ s' r', insert_all rows s = Some s'
    ∧ route s' (r ++ r')
    ∧ r'.*2 = assign_ids (next_id s) rows
    ∧ next_id s' = next_id_after (length rows) (next_id s).
Proof.
  induction rows as [|[[[nm pass] dist] time] rows IH]; intros s r Hr.
  - exists s, []. rewrite app_nil_r. done.
  - cbn [insert_all].
    destruct (create_stop_spec s r nm pass dist time Hr)
      as (a & s1 & -> & Hr1 & Hdet & Hh1 & Hi1 & _).
    destruct (insert_end_spec s1 r a _ Hr1 Hdet) as (s2 & -> & Hr2 & Hh2 & Hi2 & _).
    cbn [mbind option_bind].
    destruct (IH s2 _ Hr2) as (s' & r' & -> & Hr' & Hd' & Hi').
    eexists s', (_ :: r'). split_and!; [done|..].
    + rewrite <-app_assoc in Hr'. exact Hr'.
    + cbn [fmap list_fmap snd assign_ids].
      change (list_fmap _ _ snd r') with (r'.*2).
      rewrite Hd', Hi2, Hi1. done.
    + cbn [length next_id_after]. rewrite Hi', Hi2, Hi1. done.
Qed.

Lemma run_command_cyclic sample c fs s :
  cyclic s → ∃ fs' s', run_command sample c fs s = Some (fs', s') ∧ cyclic s'.
Proof.
  intros [r Hr]. destruct c as [nm pass dist time|nm after pass dist time
    |nm pos pass dist time|nm|filename|filename|]; cbn [run_command].
  - destruct (create_stop_spec s r nm pass dist time Hr)
      as (a & s1 & -> & Hr1 & Hdet & _).
    destruct (insert_end_spec s1 r a _ Hr1 Hdet) as (s2 & -> & Hr2 & _).
    eexists _, _. split; [done|]. by eexists.
  - destruct (create_stop_spec s r nm pass dist time Hr)
      as (a & s1 & -> & Hr1 & Hdet & _).
    rewrite (find_by_name_spec s1 r after Hr1).
    cbn [mbind option_bind].
    destruct (lookup_name after r) as [[i [e de]]|] eqn:E; cbn [fmap option_fmap option_map snd fst].
    + apply list_find_Some in E as (Hi & _).
      destruct (insert_after_cyclic s1 r (Some e) (Some a) _ Hr1 Hdet) as (s2 & -> & Hc).
      { right. exists e. split; [done|]. apply list_elem_of_fmap.
        exists (e, de). split; [done|]. by eapply list_elem_of_lookup_2. }
      eexists _, _. done.
    + destruct (insert_end_spec s1 r a _ Hr1 Hdet) as (s2 & -> & Hr2 & _).
      eexists _, _. split; [done|]. by eexists.
  - destruct (create_stop_spec s r nm pass dist time Hr)
      as (a & s1 & -> & Hr1 & Hdet & _).
    destruct (insert_at_position_spec s1 r a _ pos Hr1 Hdet) as (s2 & -> & Hr2 & _).
    eexists _, _. split; [done|]. by eexists.
  - destruct (delete_by_name_cyclic s nm) as (n & s' & -> & Hc); [by eexists|].
    eexists _, _. done.
  - rewrite (save_to_file_spec s r filename fs Hr). cbn [mbind option_bind].
    case_decide; eexists _, _; (split; [done|]); by eexists.
  - destruct (load_from_file_cyclic s filename fs) as (n & s' & -> & Hc); [by eexists|].
    eexists _, _. done.
  - unfold populate_with.
    destruct (clear_route_spec s r Hr) as (s1 & -> & Hr1 & _).
    cbn [mbind option_bind].
    destruct (insert_all_spec sample (mkState (heap s1) (head s1) 1) [])
      as (s' & r' & -> & Hr' & _).
    { apply (route_frame s1); done. }
    eexists _, _. split; [done|]. by eexists.
Qed.

Lemma reachable_cyclic sample s : reachable sample s → cyclic s.
Proof.
  induction 1 as [|s c fs fs' s' _ IH E].
  - exists []. split_and!; try done. apply NoDup_nil_2.
  - destruct (run_command_cyclic sample c fs s IH) as (fs1 & s1 & E1 & Hc).
    congruence.
Qed.

End Invariant.

(** ** Sessions and sample data *)

Section Runs.
Context {W : Type} `{WeightIO W}.

(** The loop of [menu] over a list of choices. *)
Fixpoint run_session (sample : list (string * Z * W * W)) (cs : list (command (W := W)))
    (fs : FS) (s : State W) : option (FS * State W) :=
  match cs with
  | [] => Some (fs, s)
  | c :: cs' =>
      '(fs1, s1) ← run_command sample c fs s;
      run_session sample cs' fs1 s1
  end.

Lemma run_session_reachable sample cs : ∀ fs s fs' s',
  reachable sample s → run_session sample cs fs s = Some (fs', s') →
  reachable sample s'.
Proof.
  induction cs as [|c cs IH]; intros fs s fs' s' Hs E; simpl in E.
  - by injection E as _ <-.
  - destruct (run_command sample c fs s) as [[fs1 s1]|] eqn:E1; [|done].
    simpl in E. eapply IH; [|exact E]. by eapply reachable_step.
Qed.

End Runs.

#[local] Set Warnings "-inexact-float".

(** The five stops of [populate_sample]. *)
Definition sample_stops : list (string * Z * float * float) :=
  [ ("Central Station"%string, 12, 2.5%float, 6.0%float);
    ("Market Road"%string, 5, 1.2%float, 3.0%float);
    ("Library"%string, 3, 0.9%float, 2.0%float);
    ("College"%string, 8, 1.8%float, 4.0%float);
    ("Park"%string, 2, 2.0%float, 5.0%float) ].

Definition populate_sample (s : State float) : option (State float) :=
  populate_with sample_stops s.

(** No file, and no name refused. *)
Definition no_files : FS := mkFS ∅ ∅.

(** The state of the program after a list of choices of the menu, from the
    start. *)
Definition state_after (cs : list (command (W := float))) : State float :=
  match run_session sample_stops cs no_files init with
  | Some (_, s) => s
  | None => init
  end.

Definition files_after (cs : list (command (W := float))) : FS :=
  match run_session sample_stops cs no_files init with
  | Some (fs, _) => fs
  | None => no_files
  end.

(** The route A, B, C of the scenarios of the specification. *)
Definition abc_session : list (command (W := float)) :=
  [ InsertEnd "A" 10 1%float 2%float;
    InsertEnd "B" 20 3%float 4%float;
    InsertEnd "C" 30 5%float 6%float ].

Definition abc : State float := state_after abc_session.

Definition abc_route : list (loc * (Z * string * Z * float * float)) :=
  [ (1%positive, (1, "A"%string, 10, 1%float, 2%float));
    (2%positive, (2, "B"%string, 20, 3%float, 4%float));
    (3%positive, (3, "C"%string, 30, 5%float, 6%float)) ].

Lemma state_after_reachable cs :
  is_Some (run_session sample_stops cs no_files init) →
  reachable sample_stops (state_after cs).
Proof.
  unfold state_after. intros [[fs s] E]. rewrite E.
  eapply run_session_reachable; [apply reachable_init|exact E].
Qed.

Lemma abc_reachable : reachable sample_stops abc.
Proof. apply state_after_reachable. vm_compute. eauto. Qed.

Lemma abc_is_route : route abc abc_route.
Proof.
  split_and!.
  - vm_compute. done.
  - vm_compute. repeat (constructor; [set_solver|]). constructor.
  - vm_compute. done.
  - repeat constructor.
Qed.

(** ** The properties of the specification *)

(** C1.  Cyclic closure invariant.  Every state of a session has the cyclic
    invariant: its stops form one cycle, in which every stop has one
    successor and one predecessor and the walk along [next] returns to its
    start after exactly as many steps as there are stops; and each of
    [insert_end], [insert_after], [insert_at_position], [delete_by_name],
    [clear_route] and [load_from_file] returns in a state that has the
    invariant again. *)
Theorem cyclic_closure_invariant {W : Type} `{WeightIO W}
    (sample : list (string * Z * W * W)) (s : State W) :
  reachable sample s →
  cyclic s ∧ closed_cycle s ∧ preserved_by_operations s.
Proof.
  intros Hs. pose proof (reachable_cyclic sample s Hs) as Hc.
  split_and!; [done|apply closed_cycle_holds|by apply cyclic_preserved].
Qed.

Lemma cyclic_closure_invariant_witness :
  reachable sample_stops abc
  ∧ cyclic abc ∧ closed_cycle abc ∧ preserved_by_operations abc.
Proof.
  split; [exact abc_reachable|].
  exact (cyclic_closure_invariant sample_stops abc abc_reachable).
Defined.

(** C2, as the code has it.  A load whose file cannot be opened returns 0
    and leaves the state as it was.  A load whose file opens clears the
    route first: when no header line can be read it returns 0 in the cleared
    state; otherwise it returns 1 and the route holds the accepted rows of
    the file and nothing of the route before. *)
Theorem load_clears_once_opened {W : Type} `{WeightIO W} (s : State W) r
    (filename : string) (fs : FS) :
  route s r →
  match fopen_r fs filename with
  | None => load_from_file filename fs s = Some (0, s)
  | Some f =>
      ∃ s1, clear_route s = Some s1 ∧ route s1 [] ∧ head s1 = None
        ∧ ∃ n s' r', load_from_file filename fs s = Some (n, s')
            ∧ route s' r'
            ∧ r'.*2 = assign_ids (next_id s) (omap row_of_line (data_lines f))
            ∧ (n = 0 ↔ f = EmptyString)
            ∧ (n = 0 → s' = s1)
  end.
Proof.
  intros Hr. destruct (fopen_r fs filename) as [f|] eqn:Ef.
  - destruct (load_from_file_open s r fs filename f Hr Ef)
      as (s1 & E1 & Hr1 & Hi1 & Hload).
    exists s1. split_and!; [done|done|by destruct Hr1|].
    unfold data_lines in Hload |- *.
    destruct (fgets LINE_LEN f) as [[line f']|] eqn:Eg.
    + destruct Hload as (s' & r' & E & Hr' & Hd & _).
      exists 1, s', r'. split_and!; try done.
      split; [done|]. intros ->. done.
    + exists 0, s1, []. split_and!; try done.
      split; [|done]. intros _. by destruct f.
  - by apply load_from_file_closed.
Qed.

Lemma load_clears_once_opened_witness :
  route abc abc_route
  ∧ match fopen_r no_files "route.csv" with
    | None => load_from_file "route.csv" no_files abc = Some (0, abc)
    | Some f =>
        ∃ s1, clear_route abc = Some s1 ∧ route s1 [] ∧ head s1 = None
          ∧ ∃ n s' r', load_from_file "route.csv" no_files abc = Some (n, s')
              ∧ route s' r'
              ∧ r'.*2 = assign_ids (next_id abc) (omap row_of_line (data_lines f))
              ∧ (n = 0 ↔ f = EmptyString)
              ∧ (n = 0 → s' = s1)
    end.
Proof.
  split; [exact abc_is_route|].
  exact (load_clears_once_opened abc abc_route "route.csv" no_files abc_is_route).
Defined.

(** C2 fails as stated: a load from a file that cannot be opened returns 0
    and the route of three stops is still there. *)
Lemma load_unopened_keeps_route :
  fopen_r no_files "route.csv" = None
  ∧ load_from_file "route.csv" no_files abc = Some (0, abc)
  ∧ route abc abc_route
  ∧ head abc = Some 1%positive.
Proof.
  split_and!; [done|by apply load_from_file_closed|exact abc_is_route|].
  by vm_compute.
Qed.

(** C6.  [insert_at_position] at a position [pos <= 1], or on an empty
    route, makes the new stop the head, before the old head and after the
    old last stop; at a position beyond the length of the route it makes it
    the last stop, before the head, which stays. *)
Theorem insert_at_position_places {W : Type} (s : State W) r (n : loc) d (pos : Z) :
  route s r → detached s r (Some n) d →
  ∃ s', insert_at_position (Some n) pos s = Some s'
    ∧ route s' (insert_at pos (n, d) r)
    ∧ (r = [] ∨ pos ≤ 1 →
         route s' ((n, d) :: r) ∧ head s' = Some n
         ∧ ∀ x, head s = Some x →
             link (heap s') n x
             ∧ ∃ q, prv (heap s) x = Some q ∧ link (heap s') q n)
    ∧ (Z.of_nat (length r) < pos →
         route s' (r ++ [(n, d)]) ∧ (r ≠ [] → head s' = head s)).
Proof.
  intros Hr Hdet.
  destruct (insert_at_position_spec s r n d pos Hr Hdet) as (s' & E & Hr' & Hh & _).
  exists s'. split_and!; [done..| |].
  - intros Hcase.
    assert (Hins : insert_at pos (n, d) r = (n, d) :: r).
    { unfold insert_at. destruct (decide (pos ≤ 1)); [done|].
      destruct Hcase as [->|?]; [|lia]. by rewrite take_nil, drop_nil. }
    rewrite Hins in Hr'.
    assert (Hhd : head s' = Some n) by (by destruct Hr' as (-> & _)).
    split_and!; [done..|]. intros x Hx.
    destruct r as [|[x' dx] r]; [by destruct Hr as (Hr & _); simpl in Hr; congruence|].
    pose proof Hr as (Hhd0 & _).
    pose proof Hr' as (_ & _ & Hring' & _).
    simpl in Hhd0. assert (x' = x) as -> by congruence.
    rewrite !fmap_cons in Hring'. simpl in Hring'. destruct Hring' as [Hnx Hl'].
    split; [done|].
    destruct (exists_last (l := (x, dx) :: r)) as (r0 & [q dq] & Er); [done|].
    rewrite Er in Hr, Hr'.
    destruct (route_last_link s r0 q dq Hr) as (x0 & Hx0 & _ & Hq).
    assert (x0 = x) as -> by congruence.
    exists q. split; [done|].
    destruct (route_last_link s' ((n, d) :: r0) q dq Hr') as (n0 & Hn0 & Hqn).
    assert (n0 = n) as -> by congruence. done.
  - intros Hpos.
    assert (Hins : insert_at pos (n, d) r = r ++ [(n, d)]).
    { unfold insert_at. destruct (decide (pos ≤ 1)).
      - destruct r; [done|]. simpl in Hpos. lia.
      - rewrite take_ge, drop_ge by lia. done. }
    rewrite Hins in Hr'. split; [done|]. intros Hne. rewrite Hh.
    rewrite decide_False; [done|]. intros [Hnone|?].
    + destruct Hr as (Hr & _). rewrite Hnone in Hr. by destruct r.
    + destruct r; [done|]. simpl in Hpos. lia.
Qed.

(** The stop D of the scenario, created and not yet inserted. *)
Definition abc_d : State float := (create_stop "D" 40 7%float 8%float abc).2.

Definition d_stop : Z * string * Z * float * float :=
  (4, "D"%string, 40, 7%float, 8%float).

Lemma abc_d_detached :
  route abc_d abc_route ∧ detached abc_d abc_route (Some 4%positive) d_stop.
Proof.
  destruct (create_stop_spec abc abc_route "D" 40 7%float 8%float abc_is_route)
    as (a & s1 & E & Hr & Hdet & _).
  assert (E' : create_stop "D" 40 7%float 8%float abc = (Some 4%positive, abc_d))
    by (by vm_compute).
  rewrite E' in E. injection E as <- <-. split; assumption.
Qed.

(** The scenario of C6: D inserted at position 1 in A, B, C becomes the
    head, and the order is D, A, B, C. *)
Lemma insert_at_position_places_witness :
  route abc_d abc_route ∧ detached abc_d abc_route (Some 4%positive) d_stop
  ∧ ∃ s', insert_at_position (Some 4%positive) 1 abc_d = Some s'
      ∧ route s' ((4%positive, d_stop) :: abc_route)
      ∧ head s' = Some 4%positive.
Proof.
  destruct abc_d_detached as [Hr Hdet]. split_and!; [done..|].
  destruct (insert_at_position_places abc_d abc_route 4%positive d_stop 1 Hr Hdet)
    as (s' & E & _ & Hhead & _).
  exists s'. destruct Hhead as (Hr' & Hh & _); [right; lia|].
  split; [assumption|]. split; assumption.
Defined.

(** C7.  [delete_by_name] on the first stop whose name matches unlinks it
    and frees it: the route is the one before without that stop, so that
    [head] is cleared when it was the only stop and moves to the successor
    when it was the head, and the data of every other stop (its distance
    and time to the next stop among them) are what they were. *)
Theorem delete_by_name_removes {W : Type} (s : State W) r (nm : string)
    (i : nat) (a : loc) d :
  route s r → lookup_name nm r = Some (i, (a, d)) →
  ∃ s', delete_by_name nm s = Some (1, s')
    ∧ route s' (delete i r)
    ∧ (r = [(a, d)] → head s' = None ∧ route s' [])
    ∧ (i = 0%nat → ∀ n, nxt (heap s) a = Some n → n ≠ a → head s' = Some n)
    ∧ (i ≠ 0%nat → head s' = head s)
    ∧ heap s' !! a = None
    ∧ ∀ b, b ≠ a → data_at (heap s') b = data_at (heap s) b.
Proof.
  intros Hr Hl.
  destruct (delete_by_name_found s r nm i a d Hr Hl) as (s' & E & Hr' & _ & Ha & HD).
  exists s'. split_and!; try done.
  - intros ->. apply list_find_Some in Hl as (Hi & _).
    destruct i as [|i]; [|by destruct i]. simpl in Hr'.
    split; [by destruct Hr' as (-> & _)|done].
  - intros -> n Hn Hna. apply list_find_Some in Hl as (Hi & _).
    destruct r as [|[a' d'] r]; [done|]. injection Hi as -> ->.
    simpl in Hr'. pose proof Hr as (_ & Hnd & Hring & _).
    rewrite fmap_cons in Hring, Hnd.
    destruct (ring_succ _ [] a (r.*1) Hring) as (b & Hb & Hab & _).
    assert (b = n) as -> by congruence.
    destruct Hr' as (-> & _). destruct (r.*1) as [|x l]; [|done].
    simpl in Hb. congruence.
  - intros Hi0. apply list_find_Some in Hl as (Hi & _).
    destruct Hr as (-> & _). destruct Hr' as (-> & _).
    destruct i as [|i]; [done|]. by destruct r.
Qed.

Lemma delete_by_name_removes_witness :
  route abc abc_route
  ∧ lookup_name "b" abc_route
    = Some (1%nat, (2%positive, (2, "B"%string, 20, 3%float, 4%float)))
  ∧ ∃ s', delete_by_name "b" abc = Some (1, s')
      ∧ route s' [ (1%positive, (1, "A"%string, 10, 1%float, 2%float));
                   (3%positive, (3, "C"%string, 30, 5%float, 6%float)) ].
Proof.
  assert (Hl : lookup_name "b" abc_route
    = Some (1%nat, (2%positive, (2, "B"%string, 20, 3%float, 4%float)))) by done.
  split_and!; [exact abc_is_route|done|].
  destruct (delete_by_name_removes abc abc_route "b" 1 2%positive _ abc_is_route Hl)
    as (s' & E & Hr' & _).
  exists s'. split; assumption.
Defined.

(** C8.  [delete_by_name] on a name that no stop of the route has, letter
    case apart, returns 0 and leaves the state (the memory, [head] and
    [next_id]) as it was. *)
Theorem delete_by_name_no_match {W : Type} (s : State W) r (nm : string) :
  route s r →
  Forall (λ ad, strcasecmp (d_name ad.2) nm ≠ 0) r →
  delete_by_name nm s = Some (0, s).
Proof.
  intros Hr Hno. apply (delete_by_name_absent s r); [done|].
  apply list_find_None. done.
Qed.

Lemma delete_by_name_no_match_witness :
  route abc abc_route
  ∧ Forall (λ ad, strcasecmp (d_name ad.2) "Depot" ≠ 0) abc_route
  ∧ delete_by_name "Depot" abc = Some (0, abc).
Proof.
  assert (Hno : Forall (λ ad, strcasecmp (d_name ad.2) "Depot" ≠ 0) abc_route).
  { repeat constructor; by vm_compute. }
  split_and!; [exact abc_is_route|done|].
  exact (delete_by_name_no_match abc abc_route "Depot" abc_is_route Hno).
Defined.

(** *** Sums of legs in exact arithmetic *)

(** An addition that is exact: associative and commutative, with [0.0]
    neutral.  The addition of IEEE doubles is not one. *)
Class ExactWeight (W : Type) `{Weight W} : Prop := {
  w_add_assoc : ∀ x y z : W, w_add x (w_add y z) = w_add (w_add x y) z;
  w_add_comm : ∀ x y : W, w_add x y = w_add y x;
  w_add_zero : ∀ x : W, w_add w_zero x = x
}.

Section ExactSums.
Context {W : Type} `{ExactWeight W}.
Implicit Types (s : State W) (ds : list (Z * string * Z * W * W)).

Definition w_sum (ws : list W) : W := foldr w_add w_zero ws.

Lemma w_sum_app ws1 ws2 : w_sum (ws1 ++ ws2) = w_add (w_sum ws1) (w_sum ws2).
Proof.
  induction ws1 as [|x ws1 IH]; simpl.
  - by rewrite w_add_zero.
  - by rewrite IH, w_add_assoc.
Qed.

Lemma w_sum_cons x ws : w_sum (x :: ws) = w_add x (w_sum ws).
Proof. done. Qed.

Lemma foldl_add_leg ds : ∀ acc,
  foldl add_leg acc ds
  = (w_add acc.1 (w_sum (d_dist <$> ds)), w_add acc.2 (w_sum (d_time <$> ds))).
Proof.
  induction ds as [|d ds IH]; intros [x y]; simpl.
  - by rewrite !(w_add_comm _ w_zero), !w_add_zero.
  - rewrite IH. simpl. by rewrite !w_add_assoc.
Qed.

(** The two arcs between two stops make up the whole cycle. *)
Lemma arcs_sum (f : Z * string * Z * W * W → W) ds1 x m y ds3 :
  w_add (w_sum (f <$> x :: m)) (w_sum (f <$> y :: ds3 ++ ds1))
  = w_sum (f <$> ds1 ++ x :: m ++ y :: ds3).
Proof.
  repeat (rewrite fmap_app || rewrite fmap_cons).
  repeat (rewrite w_sum_app || rewrite w_sum_cons).
  generalize (w_sum (f <$> ds1)) (w_sum (f <$> m)) (w_sum (f <$> ds3)) (f x) (f y).
  intros s1 sm s3 fx fy.
  rewrite (w_add_comm s1 (w_add fx _)).
  rewrite !w_add_assoc. done.
Qed.

Lemma two_positions {A} (l : list A) (i j : nat) (x y : A) :
  l !! i = Some x → l !! j = Some y → (i < j)%nat →
  ∃ l1 m l3, l = l1 ++ x :: m ++ y :: l3.
Proof.
  intros Hi Hj Hlt. exists (take i l).
  pose proof (take_drop_middle _ _ _ Hi) as E1.
  assert (Hj' : drop (S i) l !! (j - S i)%nat = Some y).
  { rewrite lookup_drop. by replace (S i + (j - S i))%nat with j by lia. }
  pose proof (take_drop_middle _ _ _ Hj') as E2.
  exists (take (j - S i) (drop (S i) l)), (drop (S (j - S i)) (drop (S i) l)).
  by rewrite E2, E1.
Qed.

Lemma distance_between_arcs s r1 x dx m y dy r3 (x_name y_name : string) :
  route s (r1 ++ (x, dx) :: m ++ (y, dy) :: r3) →
  find_by_name x_name s = Some (Some x) →
  find_by_name y_name s = Some (Some y) →
  distance_between x_name y_name s
    = Some (1, foldl add_leg (w_zero, w_zero) ((x, dx) :: m).*2)
  ∧ distance_between y_name x_name s
    = Some (1, foldl add_leg (w_zero, w_zero) ((y, dy) :: r3 ++ r1).*2).
Proof.
  intros Hr Hx Hy. pose proof Hr as (Hhd & Hnd & Hring & Hdata).
  assert (Hxy : x ≠ y).
  { rewrite fmap_app, fmap_cons, fmap_app, fmap_cons in Hnd. simpl in Hnd.
    apply NoDup_app in Hnd as (_ & _ & Hnd). apply NoDup_cons in Hnd as [Hnd _].
    intros ->. apply Hnd. apply elem_of_app. right. left. }
  assert (Hhead : ∃ z, head s = Some z).
  { rewrite Hhd. destruct r1; simpl; eauto. }
  destruct Hhead as [z Hz].
  rewrite !Forall_app, !Forall_cons, !Forall_app, !Forall_cons in Hdata.
  destruct Hdata as (Hd1 & Hdx & Hdm & Hdy & Hd3).
  rewrite fmap_app, fmap_cons, fmap_app, fmap_cons in Hring. simpl in Hring.
  unfold distance_between. rewrite Hz, Hx, Hy. cbn [mbind option_bind].
  rewrite !decide_False by (try naive_solver; congruence).
  split.
  - apply (distance_between_walk s (r1 ++ (x, dx) :: m ++ (y, dy) :: r3)
             x dx m y (r3.*1 ++ r1.*1)); [done| | |].
    + rewrite fmap_app, fmap_cons, fmap_app, fmap_cons. simpl.
      rewrite <-Permutation_middle. constructor.
      rewrite (Permutation_app_comm (r1.*1)). by rewrite <-app_assoc.
    + apply (ring_rotate _ (r1.*1)) in Hring.
      replace ((x :: m.*1 ++ y :: r3.*1) ++ r1.*1)
        with (x :: m.*1 ++ y :: r3.*1 ++ r1.*1) in Hring; [done|].
      simpl. by rewrite <-app_assoc.
    + by apply Forall_cons.
  - apply (distance_between_walk s (r1 ++ (x, dx) :: m ++ (y, dy) :: r3)
             y dy (r3 ++ r1) x (m.*1)); [done| | |].
    + rewrite fmap_app, fmap_cons, fmap_app, fmap_cons, fmap_app. simpl.
      replace (r1.*1 ++ x :: m.*1 ++ y :: r3.*1)
        with ((r1.*1 ++ x :: m.*1) ++ y :: r3.*1) by (by rewrite <-app_assoc).
      rewrite <-Permutation_middle. constructor.
      rewrite (Permutation_app_comm _ (r3.*1)). by rewrite app_assoc.
    + rewrite fmap_app.
      replace (r1.*1 ++ x :: m.*1 ++ y :: r3.*1)
        with ((r1.*1 ++ x :: m.*1) ++ y :: r3.*1) in Hring
        by (by rewrite <-app_assoc).
      apply (ring_rotate _ (r1.*1 ++ x :: m.*1)) in Hring.
      replace ((y :: r3.*1) ++ r1.*1 ++ x :: m.*1)
        with (y :: (r3.*1 ++ r1.*1) ++ x :: m.*1) in Hring; [done|].
      simpl. by rewrite <-app_assoc.
    + apply Forall_cons. split; [done|]. by apply Forall_app.
Qed.

End ExactSums.

(** In an exact arithmetic.  On a route with the cyclic invariant, for two
    names that [find_by_name] resolves to two different stops, both calls of
    [distance_between] return 1, each having added up, in traversal order,
    the legs of one of the two arcs between the stops; when the addition of
    weights is exact the two results add up to the result of
    [total_distance_time], for the distance and for the time. *)
Lemma distance_between_sums_exact {W : Type} `{ExactWeight W}
    (s : State W) (a_name b_name : string) (a b : loc) :
  cyclic s →
  find_by_name a_name s = Some (Some a) →
  find_by_name b_name s = Some (Some b) →
  a ≠ b →
  ∃ ab ba total,
    distance_between a_name b_name s = Some (1, ab)
    ∧ distance_between b_name a_name s = Some (1, ba)
    ∧ total_distance_time s = Some total
    ∧ w_add ab.1 ba.1 = total.1
    ∧ w_add ab.2 ba.2 = total.2.
Proof.
  intros [r Hr] Ha Hb Hab.
  pose proof Ha as Ha'. pose proof Hb as Hb'.
  rewrite (find_by_name_spec s r a_name Hr) in Ha'.
  rewrite (find_by_name_spec s r b_name Hr) in Hb'.
  destruct (lookup_name a_name r) as [[i [a' da]]|] eqn:Ea; [|done].
  destruct (lookup_name b_name r) as [[j [b' db]]|] eqn:Eb; [|done].
  simpl in Ha', Hb'. injection Ha' as ->. injection Hb' as ->.
  apply list_find_Some in Ea as (Hi & _). apply list_find_Some in Eb as (Hj & _).
  rewrite (total_distance_time_spec s r Hr).
  assert (Hij : (i < j ∨ j < i)%nat).
  { destruct (decide (i = j)) as [->|]; [congruence|lia]. }
  destruct Hij as [Hij|Hij].
  - destruct (two_positions r i j _ _ Hi Hj Hij) as (r1 & m & r3 & ->).
    destruct (distance_between_arcs s r1 a da m b db r3 a_name b_name Hr Ha Hb)
      as [-> ->].
    eexists _, _, _. split_and!; [done..| |]; rewrite !foldl_add_leg;
      cbn [fst snd]; rewrite !w_add_zero;
      replace ((r1 ++ (a, da) :: m ++ (b, db) :: r3).*2)
        with (r1.*2 ++ da :: m.*2 ++ db :: r3.*2)
        by (by rewrite fmap_app, fmap_cons, fmap_app, fmap_cons);
      replace (((b, db) :: r3 ++ r1).*2) with (db :: r3.*2 ++ r1.*2)
        by (by rewrite fmap_cons, fmap_app);
      change (((a, da) :: m).*2) with (da :: m.*2).
    + apply (arcs_sum d_dist r1.*2 da m.*2 db r3.*2).
    + apply (arcs_sum d_time r1.*2 da m.*2 db r3.*2).
  - destruct (two_positions r j i _ _ Hj Hi Hij) as (r1 & m & r3 & ->).
    destruct (distance_between_arcs s r1 b db m a da r3 b_name a_name Hr Hb Ha)
      as [-> ->].
    eexists _, _, _. split_and!; [done..| |]; rewrite !foldl_add_leg;
      cbn [fst snd]; rewrite !w_add_zero;
      replace ((r1 ++ (b, db) :: m ++ (a, da) :: r3).*2)
        with (r1.*2 ++ db :: m.*2 ++ da :: r3.*2)
        by (by rewrite fmap_app, fmap_cons, fmap_app, fmap_cons);
      replace (((a, da) :: r3 ++ r1).*2) with (da :: r3.*2 ++ r1.*2)
        by (by rewrite fmap_cons, fmap_app);
      change (((b, db) :: m).*2) with (db :: m.*2); rewrite w_add_comm.
    + apply (arcs_sum d_dist r1.*2 db m.*2 da r3.*2).
    + apply (arcs_sum d_time r1.*2 db m.*2 da r3.*2).
Qed.

(** Weights counted in whole units: an exact arithmetic. *)
Definition units_weight : Weight Z := {| w_zero := 0; w_add := Z.add |}.

Lemma units_exact : @ExactWeight Z units_weight.
Proof. split; simpl; intros; lia. Qed.

(** The route A (1, 2), B (3, 4), C (5, 6) of the specification in whole
    units. *)
Definition abc_units : State Z :=
  match insert_all [("A"%string, 10, 1, 2); ("B"%string, 20, 3, 4);
                    ("C"%string, 30, 5, 6)] init with
  | Some s => s
  | None => init
  end.

Lemma abc_units_cyclic : cyclic abc_units.
Proof.
  destruct (insert_all_spec [("A"%string, 10, 1, 2); ("B"%string, 20, 3, 4);
                             ("C"%string, 30, 5, 6)] (init (W := Z)) [])
    as (s' & r' & E & Hr & _).
  { split_and!; try done. apply NoDup_nil_2. }
  unfold abc_units. rewrite E. by exists r'.
Qed.

Lemma distance_between_sums_exact_units :
  cyclic abc_units
  ∧ find_by_name "A" abc_units = Some (Some 1%positive)
  ∧ find_by_name "C" abc_units = Some (Some 3%positive)
  ∧ ∃ ab ba total,
      @distance_between Z units_weight "A" "C" abc_units = Some (1, ab)
      ∧ @distance_between Z units_weight "C" "A" abc_units = Some (1, ba)
      ∧ @total_distance_time Z units_weight abc_units = Some total
      ∧ ab.1 + ba.1 = total.1
      ∧ ab.2 + ba.2 = total.2.
Proof.
  assert (Ha : find_by_name "A" abc_units = Some (Some 1%positive))
    by (vm_compute; reflexivity).
  assert (Hc : find_by_name "C" abc_units = Some (Some 3%positive))
    by (vm_compute; reflexivity).
  split_and!; [exact abc_units_cyclic|assumption..|].
  exact (@distance_between_sums_exact Z units_weight units_exact abc_units
           "A" "C" 1%positive 3%positive abc_units_cyclic Ha Hc ltac:(discriminate)).
Defined.

(** The scenario of the specification: the total is (9, 12), from A to C it
    is (4, 6), and from C to A it is (5, 6). *)
Example scenario_metrics :
  total_distance_time abc = Some (9%float, 12%float)
  ∧ distance_between "A" "C" abc = Some (1, (4%float, 6%float))
  ∧ distance_between "C" "A" abc = Some (1, (5%float, 6%float)).
Proof. split_and!; vm_compute; reflexivity. Qed.

(** A route whose first leg is 2^53 long, and the others 1. *)
Definition long_leg_session : list (command (W := float)) :=
  [ InsertEnd "A" 0 9007199254740992%float 9007199254740992%float;
    InsertEnd "B" 0 1%float 1%float;
    InsertEnd "C" 0 1%float 1%float ].

Definition long_leg : State float := state_after long_leg_session.

(** C3 fails in the arithmetic of doubles: on the route A (2^53), B (1),
    C (1) the total is 2^53, each addition of 1 being rounded away, while
    from A to B it is 2^53 and from B to A it is 2, which add up to
    2^53 + 2. *)
Lemma distance_between_rounding :
  reachable sample_stops long_leg
  ∧ find_by_name "A" long_leg = Some (Some 1%positive)
  ∧ find_by_name "B" long_leg = Some (Some 2%positive)
  ∧ distance_between "A" "B" long_leg
    = Some (1, (9007199254740992%float, 9007199254740992%float))
  ∧ distance_between "B" "A" long_leg = Some (1, (2%float, 2%float))
  ∧ total_distance_time long_leg
    = Some (9007199254740992%float, 9007199254740992%float)
  ∧ (9007199254740992 + 2)%float ≠ 9007199254740992%float.
Proof.
  split; [apply state_after_reachable; vm_compute; eauto|].
  do 5 (split; [vm_compute; reflexivity|]).
  intros E.
  apply (f_equal (λ x, PrimFloat.eqb x 9007199254740992%float)) in E.
  vm_compute in E. discriminate.
Qed.

(** *** A name found after its insertion *)

Lemma strcasecmp_refl (a : string) : strcasecmp a a = 0.
Proof. induction a as [|c a IH]; simpl; [done|]. by rewrite decide_True. Qed.

Lemma strncpy_short (n : nat) (nm : string) :
  (String.length nm ≤ n)%nat → strncpy n nm = nm.
Proof.
  revert n. induction nm as [|c nm IH]; intros [|n] Hn; simpl in *; try done; [lia|].
  rewrite IH; [done|lia].
Qed.

Lemma wrap_int_id (z : Z) : is_int z → wrap_int z = z.
Proof.
  unfold is_int, INT_MIN, INT_MAX, wrap_int. intros Hz.
  rewrite Z.mod_small; lia.
Qed.





(** [populate_sample] resets [next_id]: the identifier 6, given to the sixth
    stop of a session, is given again to the first stop inserted after the
    sample. *)
Definition six_stops_session : list (command (W := float)) :=
  abc_session ++ [ InsertEnd "D" 0 0%float 0%float; InsertEnd "E" 0 0%float 0%float;
                   InsertEnd "F" 0 0%float 0%float ].

Example identifier_given_twice :
  find_by_name "F" (state_after six_stops_session) = Some (Some 6%positive)
  ∧ id <$> heap (state_after six_stops_session) !! 6%positive = Some 6
  ∧ next_id (state_after (six_stops_session ++ [PopulateSample])) = 6
  ∧ (d_id (W := float)) <$>
      data_at (heap (state_after (six_stops_session
                 ++ [PopulateSample; InsertEnd "G" 0 0%float 0%float]))) 6%positive
    = Some 6.
Proof. split_and!; vm_compute; reflexivity. Qed.

(** *** Rows accepted and rows skipped *)

Section Rows.
Context {W : Type} `{WeightIO W}.

Lemma eof_or_0 (input : string) : eof_or 0 input < 4.
Proof. unfold eof_or. destruct input; simpl; lia. Qed.

(** [sscanf] returns 4 with the four values, or less than 4. *)
Lemma sscanf_row_count (line : string) :
  match sscanf_row line with
  | (n, Some _) => n = 4
  | (n, None) => n < 4
  end.
Proof.
  unfold sscanf_row.
  repeat first
    [ apply eof_or_0 | lia | done
    | match goal with
      | |- context [scan_d ?x] => destruct (scan_d x) as [[??]|]
      | |- context [scan_comma ?x] => destruct (scan_comma x)
      | |- context [scan_name ?x] => destruct (scan_name x) as [[??]|]
      | |- context [scanf_lf ?x] => destruct (scanf_lf x) as [[??]|]
      end ].
Qed.

Lemma row_of_line_None (line : string) :
  row_of_line line = None ↔ (sscanf_row line).1 < 4.
Proof.
  unfold row_of_line. pose proof (sscanf_row_count line) as Hc.
  destruct (sscanf_row line) as [n [row|]]; simpl.
  - subst n. simpl. split; [done|lia].
  - split; [done|]. done.
Qed.

Lemma row_of_line_Some (line : string) row :
  row_of_line line = Some row ↔ sscanf_row line = (4, Some row).
Proof.
  unfold row_of_line. pose proof (sscanf_row_count line) as Hc.
  destruct (sscanf_row line) as [n [row'|]]; simpl.
  - subst n. simpl. split; intros [= ->]; done.
  - split; [done|]. intros [= _]. 
Qed.

Lemma omap_row_of_line_nil (ls : list string) :
  Forall (λ line, (sscanf_row line).1 < 4) ls → omap row_of_line ls = [].
Proof.
  induction ls as [|l ls IH]; [done|]. intros Hall.
  apply Forall_cons in Hall as [Hl Hall]. cbn [omap list_omap].
  apply row_of_line_None in Hl. rewrite Hl. by apply IH.
Qed.

(** The identifiers that [create_stop] gives to rows are the successive
    values of [next_id]. *)
Lemma assign_ids_ids (rows : list (string * Z * W * W)) : ∀ i,
  d_id <$> assign_ids i rows
  = (λ k, next_id_after k i) <$> seq 0 (length rows).
Proof.
  induction rows as [|[[[nm pass] dist] time] rows IH]; intros i; [done|].
  cbn [assign_ids length seq fmap list_fmap]. f_equal.
  change (list_fmap _ _ d_id (assign_ids (wrap_int (i + 1)) rows))
    with (d_id <$> assign_ids (wrap_int (i + 1)) rows).
  rewrite IH. rewrite <-(fmap_S_seq 0). rewrite <-list_fmap_compose. done.
Qed.

End Rows.

(** X20.  When the file opens and a first line can be read from it,
    [load_from_file] returns 1 whatever the rows are, and the route holds
    the accepted rows; with no accepted row (a header alone, or only rows
    that [sscanf] does not read in full) the route is empty. *)
Theorem load_succeeds_after_header {W : Type} `{WeightIO W} (s : State W) r
    (filename : string) (fs : FS) (f : string) :
  route s r → fopen_r fs filename = Some f → f ≠ EmptyString →
  ∃ s' r', load_from_file filename fs s = Some (1, s')
    ∧ route s' r'
    ∧ length r' = length (omap row_of_line (data_lines f))
    ∧ (Forall (λ line, (sscanf_row line).1 < 4) (data_lines f) →
         r' = [] ∧ head s' = None).
Proof.
  intros Hr Ef Hne.
  destruct (load_from_file_open s r fs filename f Hr Ef) as (s1 & _ & _ & _ & Hload).
  destruct (fgets LINE_LEN f) as [[line f']|] eqn:Eg; [|by destruct f].
  destruct Hload as (s' & r' & E & Hr' & Hd & _).
  assert (Hlen : ∀ (rows : list (string * Z * W * W)) i,
    length (assign_ids i rows) = length rows).
  { induction rows as [|[[[??]?]?] rows IH]; intros i; simpl; [done|]. by rewrite IH. }
  exists s', r'. split_and!; [done..| |].
  - by rewrite <-(length_fmap snd r'), Hd, Hlen.
  - intros Hall.
    assert (Hnone : omap row_of_line (data_lines f) = []).
    { by apply omap_row_of_line_nil. }
    rewrite Hnone in Hd. simpl in Hd. apply fmap_nil_inv in Hd. subst r'.
    split; [done|]. by destruct Hr' as (-> & _).
Qed.

(** *** Text written and read back *)

(** Every character of a string has a property. *)
Fixpoint chars_all (P : ascii → Prop) (s : string) : Prop :=
  match s with
  | EmptyString => True
  | String c rest => P c ∧ chars_all P rest
  end.

(** A character that neither ends a C string nor a line. *)
Definition plain (c : ascii) : Prop := c ≠ NUL ∧ c ≠ NL.

Lemma chars_all_append P (a b : string) :
  chars_all P (a +:+ b) ↔ chars_all P a ∧ chars_all P b.
Proof.
  induction a as [|c a IH]; [simpl; tauto|].
  rewrite append_cons. simpl. rewrite IH. tauto.
Qed.

Lemma chars_all_impl (P Q : ascii → Prop) (s : string) :
  (∀ c, P c → Q c) → chars_all P s → chars_all Q s.
Proof. intros HPQ. induction s as [|c s IH]; simpl; [done|]. naive_solver. Qed.

Lemma digit_char_spec (d : Z) :
  0 ≤ d < 10 →
  is_digit (digit_char d) = true ∧ digit_val (digit_char d) = d
  ∧ plain (digit_char d).
Proof.
  intros Hd.
  assert (Hcases : d = 0 ∨ d = 1 ∨ d = 2 ∨ d = 3 ∨ d = 4 ∨ d = 5 ∨ d = 6
                   ∨ d = 7 ∨ d = 8 ∨ d = 9) by lia.
  repeat (destruct Hcases as [->|Hcases]; [by vm_compute|]). subst d. by vm_compute.
Qed.

Lemma digit_not_space (c : ascii) :
  is_digit c = true →
  is_space c = false ∧ c ≠ "-"%char ∧ c ≠ "+"%char ∧ c ≠ ","%char.
Proof.
  destruct c as [[] [] [] [] [] [] [] []]; vm_compute; intros; try done;
    split_and!; done.
Qed.

Lemma digits_of_append (fuel : nat) : ∀ (n : Z) (acc rest : string),
  digits_of fuel n acc +:+ rest = digits_of fuel n (acc +:+ rest).
Proof.
  induction fuel as [|fuel IH]; intros n acc rest; simpl; [done|].
  destruct (n <? 10); [done|]. by rewrite IH.
Qed.

Lemma digits_of_plain (fuel : nat) : ∀ (n : Z) (acc : string),
  chars_all plain acc → chars_all plain (digits_of fuel n acc).
Proof.
  induction fuel as [|fuel IH]; intros n acc Hacc; simpl; [done|].
  assert (chars_all plain (String (digit_char (n mod 10)) acc)).
  { split; [|done]. apply digit_char_spec. apply Z.mod_pos_bound. lia. }
  destruct (n <? 10); [done|]. by apply IH.
Qed.

Lemma digits_of_head (fuel : nat) : ∀ (n : Z) (acc : string),
  ∃ c r, digits_of (S fuel) n acc = String c r ∧ is_digit c = true.
Proof.
  induction fuel as [|fuel IH]; intros n acc.
  - exists (digit_char (n mod 10)), acc. split.
    + simpl. by destruct (n <? 10).
    + apply digit_char_spec. apply Z.mod_pos_bound. lia.
  - change (digits_of (S (S fuel)) n acc)
      with (let acc' := String (digit_char (n mod 10)) acc in
            if n <? 10 then acc' else digits_of (S fuel) (n / 10) acc').
    cbv zeta. destruct (n <? 10); [|apply IH].
    eexists _, _. split; [done|].
    apply digit_char_spec. apply Z.mod_pos_bound. lia.
Qed.

(** Reading the digits written for [n] continues the number read so
    far. *)
Lemma scan_digits_digits_of (fuel : nat) : ∀ (n : Z) (acc : string) (a : Z),
  0 ≤ n < 10 ^ Z.of_nat fuel →
  ∃ k, 0 ≤ k ∧ scan_digits (digits_of fuel n acc) a = scan_digits acc (a * 10 ^ k + n).
Proof.
  induction fuel as [|fuel IH]; intros n acc a Hn.
  - exists 0. cbn [digits_of]. split; [done|]. f_equal.
    change (10 ^ Z.of_nat 0) with 1 in Hn. lia.
  - cbn [digits_of]. cbv zeta. destruct (n <? 10) eqn:E.
    + apply Z.ltb_lt in E. exists 1. split; [lia|].
      rewrite Z.mod_small by lia.
      destruct (digit_char_spec n) as (Hd & Hv & _); [lia|].
      cbn [scan_digits]. rewrite Hd, Hv. f_equal; lia.
    + apply Z.ltb_ge in E.
      destruct (IH (n / 10) (String (digit_char (n mod 10)) acc) a) as (k & Hk & ->).
      { split; [apply Z.div_pos; lia|].
        apply Z.div_lt_upper_bound; [lia|].
        rewrite Nat2Z.inj_succ, Z.pow_succ_r in Hn by lia. lia. }
      exists (k + 1). split; [lia|].
      destruct (digit_char_spec (n mod 10)) as (Hd & Hv & _).
      { apply Z.mod_pos_bound. lia. }
      cbn [scan_digits]. rewrite Hd, Hv. f_equal.
      rewrite Z.pow_add_r by lia. pose proof (Z.div_mod n 10 ltac:(lia)).
      change (10 ^ 1) with 10. lia.
Qed.

Lemma print_nat_fuel (n : Z) : 0 ≤ n → n < 10 ^ Z.of_nat (S (Z.to_nat (Z.log2 n))).
Proof.
  intros Hn. rewrite Nat2Z.inj_succ, Z2Nat.id by apply Z.log2_nonneg.
  destruct (decide (n = 0)) as [->|Hn0]; [done|].
  pose proof (Z.log2_spec n ltac:(lia)) as [_ Hlt].
  eapply Z.lt_le_trans; [exact Hlt|].
  apply Z.pow_le_mono_l. pose proof (Z.log2_nonneg n). lia.
Qed.

Lemma scan_digits_print_nat (n : Z) (rest : string) :
  0 ≤ n → starts_with_digit rest = false →
  scan_digits (print_nat n +:+ rest) 0 = (n, rest).
Proof.
  intros Hn Hrest. unfold print_nat. rewrite digits_of_append.
  destruct (scan_digits_digits_of _ n (EmptyString +:+ rest) 0 (conj Hn (print_nat_fuel n Hn)))
    as (k & _ & ->).
  change (EmptyString +:+ rest) with rest. simpl.
  destruct rest as [|c rest]; [done|]. simpl in *. by rewrite Hrest.
Qed.

Lemma print_nat_head (n : Z) (rest : string) :
  ∃ c r, print_nat n +:+ rest = String c r ∧ is_digit c = true.
Proof.
  unfold print_nat. rewrite digits_of_append. apply digits_of_head.
Qed.

(** The value an [int] holds after [%d] has read the number [z]. *)
Definition int_of_long (z : Z) : Z :=
  wrap_int (Z.max (- 2 ^ 63) (Z.min (2 ^ 63 - 1) z)).

Lemma int_of_long_int (z : Z) : is_int z → int_of_long z = z.
Proof.
  intros Hz. unfold int_of_long. rewrite wrap_int_id.
  - unfold is_int, INT_MIN, INT_MAX in Hz. lia.
  - unfold is_int, INT_MIN, INT_MAX in *. lia.
Qed.

(** [%d] reads back what [printf ("%d")] wrote, up to the character after
    it when that is not a digit. *)
Lemma scan_d_print_d (z : Z) (rest : string) :
  starts_with_digit rest = false →
  scan_d (print_d z +:+ rest) = Some (int_of_long z, rest).
Proof.
  intros Hrest. unfold scan_d, print_d. destruct (z <? 0) eqn:E.
  - apply Z.ltb_lt in E. rewrite append_cons.
    destruct (print_nat_head (- z) rest) as (c & r & Ec & Hc).
    cbn [skip_ws]. change (is_space "-") with false. cbv iota.
    rewrite Ec. cbn [starts_with_digit]. rewrite Hc. rewrite <-Ec.
    rewrite scan_digits_print_nat by (done || lia).
    unfold int_of_long. do 3 f_equal. lia.
  - apply Z.ltb_ge in E.
    destruct (print_nat_head z rest) as (c & r & Ec & Hc).
    destruct (digit_not_space c Hc) as (Hsp & Hminus & Hplus & _).
    rewrite Ec. cbn [skip_ws]. rewrite Hsp.
    assert (Hsign : match String c r with
                    | String "-" rest0 => (true, rest0)
                    | String "+" rest0 => (false, rest0)
                    | _ => (false, String c r)
                    end = (false, String c r)).
    { clear -Hminus Hplus. destruct c as [[] [] [] [] [] [] [] []]; done. }
    rewrite Hsign. cbn [starts_with_digit]. rewrite Hc. rewrite <-Ec.
    rewrite scan_digits_print_nat by done. done.
Qed.

Lemma print_d_plain (z : Z) : chars_all plain (print_d z).
Proof.
  unfold print_d, print_nat. destruct (z <? 0).
  - split; [by vm_compute|]. by apply digits_of_plain.
  - by apply digits_of_plain.
Qed.

Lemma until_nul_plain (s : string) :
  chars_all (λ c, c ≠ NUL) s → until_nul s = s.
Proof.
  induction s as [|c s IH]; simpl; [done|]. intros [Hc Hs].
  rewrite decide_False by done. by rewrite IH.
Qed.

(** [%63[^,]] reads a name up to the comma that follows it. *)
Lemma scan_not_comma_name (nm rest : string) : ∀ n : nat,
  chars_all (λ c, c ≠ ","%char) nm → (String.length nm ≤ n)%nat →
  scan_not_comma n (nm +:+ String "," rest) = (nm, String "," rest).
Proof.
  induction nm as [|c nm IH]; intros n Hnm Hlen.
  - change (EmptyString +:+ String "," rest) with (String "," rest).
    destruct n; [done|]. cbn [scan_not_comma]. by destruct (decide _).
  - rewrite append_cons. destruct n as [|n]; [simpl in Hlen; lia|].
    destruct Hnm as [Hc Hnm]. cbn [scan_not_comma].
    rewrite decide_False by done.
    rewrite IH; [done|done|simpl in Hlen; lia].
Qed.

Lemma scan_name_name (nm rest : string) :
  nm ≠ EmptyString → chars_all (λ c, c ≠ ","%char) nm →
  (String.length nm ≤ 63)%nat →
  scan_name (nm +:+ String "," rest) = Some (nm, String "," rest).
Proof.
  intros Hne Hnm Hlen. unfold scan_name.
  change (NAME_LEN - 1)%nat with 63%nat.
  rewrite scan_not_comma_name by done. by destruct nm.
Qed.

(** [fgets] reads a line of fewer than 255 characters with its newline. *)
Lemma fgets_chars_line (body rest : string) : ∀ n : nat,
  chars_all (λ c, c ≠ NL) body → (String.length body < n)%nat →
  fgets_chars n (body +:+ String NL rest) = (body +:+ String NL EmptyString, rest).
Proof.
  induction body as [|c body IH]; intros n Hb Hlen.
  - change (EmptyString +:+ String NL rest) with (String NL rest).
    destruct n; [simpl in Hlen; lia|]. cbn [fgets_chars]. by destruct (decide _).
  - rewrite !append_cons. destruct n as [|n]; [simpl in Hlen; lia|].
    destruct Hb as [Hc Hb]. cbn [fgets_chars].
    rewrite decide_False by done.
    rewrite IH; [done|done|simpl in Hlen; lia].
Qed.

Lemma fgets_line (body rest : string) :
  chars_all (λ c, c ≠ NL) body → (String.length body < 255)%nat →
  fgets LINE_LEN (body +:+ String NL rest)
  = Some (body +:+ String NL EmptyString, rest).
Proof.
  intros Hb Hlen. unfold fgets.
  change (LINE_LEN - 1)%nat with 255%nat.
  rewrite <-(fgets_chars_line body rest 255) by done.
  destruct body; done.
Qed.

(** The lines that [fgets] reads do not depend on the fuel, once there is
    enough of it. *)
Lemma fgets_lines_fuel : ∀ (fuel1 fuel2 : nat) (f : string),
  (String.length f < fuel1)%nat → (String.length f < fuel2)%nat →
  fgets_lines fuel1 f = fgets_lines fuel2 f.
Proof.
  induction fuel1 as [|fuel1 IH]; intros fuel2 f H1 H2; [lia|].
  destruct fuel2 as [|fuel2]; [lia|]. cbn [fgets_lines].
  destruct (fgets LINE_LEN f) as [[line f']|] eqn:E; [|done].
  pose proof (fgets_shorter _ _ _ E). f_equal. apply IH; lia.
Qed.

(** * Further properties of the route functions *)

(** ** Lookup *)

Section Lookup.
Context {W : Type}.
Implicit Types (h : gmap loc (Stop W)) (l : list loc) (a b : loc) (s : State W).
Implicit Types (r : list (loc * (Z * string * Z * W * W))) (d : Z * string * Z * W * W).

(** No stop of [r] has the name [nm], letter case apart. *)
Definition no_match (nm : string) r : Prop :=
  Forall (λ ad, strcasecmp (d_name ad.2) nm ≠ 0) r.

Lemma lookup_name_Some nm r i a d :
  lookup_name nm r = Some (i, (a, d)) →
  ∃ r1 r2, r = r1 ++ (a, d) :: r2 ∧ length r1 = i ∧ no_match nm r1
           ∧ strcasecmp (d_name d) nm = 0.
Proof.
  intros E. apply list_find_Some in E as (Hi & Hm & Hbefore).
  exists (take i r), (drop (S i) r). split_and!; [|..|done].
  - by rewrite take_drop_middle.
  - apply length_take_le. apply lookup_lt_Some in Hi. lia.
  - apply Forall_lookup. intros j y Hj.
    apply lookup_take_Some in Hj as [Hj Hlt]. by apply (Hbefore j).
Qed.

Lemma lookup_name_None nm r : lookup_name nm r = None ↔ no_match nm r.
Proof. apply list_find_None. Qed.

Lemma lookup_name_middle nm r1 a d r2 :
  no_match nm r1 → strcasecmp (d_name d) nm = 0 →
  lookup_name nm (r1 ++ (a, d) :: r2) = Some (length r1, (a, d)).
Proof.
  intros Hno Hm. apply list_find_Some. split_and!.
  - by apply list_lookup_middle.
  - done.
  - intros j y Hj Hlt. rewrite lookup_app_l in Hj by done.
    by apply (proj1 (Forall_lookup _ _) Hno j).
Qed.

(** The first stop of the route with the identifier [i], and its index. *)
Definition lookup_id (i : Z) r
  : option (nat * (loc * (Z * string * Z * W * W))) :=
  list_find (λ ad, d_id ad.2 = i) r.

Lemma lookup_id_cons i ad r :
  lookup_id i (ad :: r)
  = (if decide (d_id ad.2 = i) then Some (0%nat, ad)
     else prod_map S Datatypes.id <$> lookup_id i r).
Proof. done. Qed.

Lemma find_by_id_loop_spec h hd i rest : ∀ c fuel,
  links h (c.1 :: rest.*1 ++ [hd]) → hd ∉ rest.*1 →
  Forall (λ ad, data_at h ad.1 = Some ad.2) (c :: rest) →
  (length rest < fuel)%nat →
  find_by_id_loop fuel h (Some hd) i (Some c.1)
  = Some ((λ x, x.2.1) <$> lookup_id i (c :: rest)).
Proof.
  induction rest as [|c' rest IH]; intros [c dc] fuel Hl Hhd Hd Hfuel;
    (destruct fuel as [|fuel]; [simpl in Hfuel; lia|]);
    apply Forall_cons in Hd as [Hdc Hd]; rewrite lookup_id_cons;
    simpl in Hl, Hdc, Hhd, Hfuel; destruct Hl as [[Hn _] Hl];
    destruct (deref_ok _ _ _ _ Hdc Hn) as (st & Hst & <- & Hnx);
    cbn [find_by_id_loop fst]; rewrite Hst; cbn [mbind option_bind snd];
    change (d_id (data st)) with (id st);
    (case_decide; [done|]).
  - by rewrite decide_True.
  - rewrite decide_False.
    2:{ rewrite Hnx. intros [= Heq]. set_solver. }
    rewrite Hnx. rewrite (IH c'); [|done|set_solver|done|lia].
    destruct (lookup_id i (c' :: rest)) as [[j y]|]; done.
Qed.

Lemma find_by_id_spec s r i :
  route s r →
  find_by_id i s = Some ((λ x, x.2.1) <$> lookup_id i r).
Proof.
  intros Hr. pose proof (route_size _ _ Hr) as Hsz.
  destruct Hr as (Hhd & Hnd & Hring & Hdata).
  unfold find_by_id. rewrite Hhd. destruct r as [|[x dx] r]; [done|].
  rewrite fmap_cons in Hnd, Hring. simpl in *.
  apply (find_by_id_loop_spec (heap s) x i r (x, dx)); try done.
  by apply NoDup_cons in Hnd as [? _].
Qed.

End Lookup.

(** X1.  [find_by_name] returns the first stop, in the order of the traversal
    from [head], whose name is the one asked for, letter case apart; it
    returns [NULL] when there is none, and on the empty route. *)
Theorem find_by_name_first_match {W : Type} (s : State W) r (nm : string) :
  route s r →
  (∃ r1 a d r2, r = r1 ++ (a, d) :: r2
     ∧ no_match nm r1
     ∧ strcasecmp (d_name d) nm = 0
     ∧ find_by_name nm s = Some (Some a))
  ∨ (no_match nm r ∧ find_by_name nm s = Some None).
Proof.
  intros Hr. rewrite (find_by_name_spec s r nm Hr).
  destruct (lookup_name nm r) as [[i [a d]]|] eqn:E.
  - left. apply lookup_name_Some in E as (r1 & r2 & -> & _ & Hno & Hm).
    by exists r1, a, d, r2.
  - right. by apply lookup_name_None in E.
Qed.

Lemma find_by_name_first_match_witness :
  route abc abc_route
  ∧ ((∃ r1 a d r2, abc_route = r1 ++ (a, d) :: r2
        ∧ no_match "b" r1
        ∧ strcasecmp (d_name d) "b" = 0
        ∧ find_by_name "b" abc = Some (Some a))
     ∨ (no_match "b" abc_route ∧ find_by_name "b" abc = Some None)).
Proof.
  split; [exact abc_is_route|].
  exact (find_by_name_first_match abc abc_route "b" abc_is_route).
Defined.

(** X2.  [find_by_id] returns the first stop of the traversal from [head] that
    has the identifier, and [NULL] when no stop has it. *)
Theorem find_by_id_first_match {W : Type} (s : State W) r (i : Z) :
  route s r →
  (∃ r1 a d r2, r = r1 ++ (a, d) :: r2
     ∧ Forall (λ ad, d_id ad.2 ≠ i) r1
     ∧ d_id d = i
     ∧ find_by_id i s = Some (Some a))
  ∨ (Forall (λ ad, d_id ad.2 ≠ i) r ∧ find_by_id i s = Some None).
Proof.
  intros Hr. rewrite (find_by_id_spec s r i Hr).
  destruct (lookup_id i r) as [[j [a d]]|] eqn:E.
  - left. apply list_find_Some in E as (Hj & Hm & Hbefore).
    exists (take j r), a, d, (drop (S j) r). split_and!; [|..|done|done].
    + by rewrite take_drop_middle.
    + apply Forall_lookup. intros k y Hk.
      apply lookup_take_Some in Hk as [Hk Hlt]. by apply (Hbefore k).
  - right. split; [|done]. by apply list_find_None in E.
Qed.

Lemma find_by_id_first_match_witness :
  route abc abc_route
  ∧ ((∃ r1 a d r2, abc_route = r1 ++ (a, d) :: r2
        ∧ Forall (λ ad, d_id ad.2 ≠ 3) r1
        ∧ d_id d = 3
        ∧ find_by_id 3 abc = Some (Some a))
     ∨ (Forall (λ ad, d_id ad.2 ≠ 3) abc_route ∧ find_by_id 3 abc = Some None)).
Proof.
  split; [exact abc_is_route|].
  exact (find_by_id_first_match abc abc_route 3 abc_is_route).
Defined.

(** ** Insertion and clearing *)

(** X3.  [insert_end] makes the new stop the last one of the traversal: its
    successor is [head] and it is the predecessor of [head].  On the empty
    route the stop becomes [head]; otherwise [head] stays.  Nothing is done
    on a [NULL] stop. *)
Theorem insert_end_appends {W : Type} (s : State W) r (n : loc) d :
  route s r → detached s r (Some n) d →
  insert_end None s = Some s
  ∧ ∃ s', insert_end (Some n) s = Some s'
      ∧ route s' (r ++ [(n, d)])
      ∧ (r = [] → head s' = Some n)
      ∧ (r ≠ [] → head s' = head s)
      ∧ (∃ x, head s' = Some x ∧ link (heap s') n x)
      ∧ next_id s' = next_id s
      ∧ ∀ b, data_at (heap s') b = data_at (heap s) b.
Proof.
  intros Hr Hdet. split; [done|].
  destruct (insert_end_spec s r n d Hr Hdet) as (s' & E & Hr' & Hh & Hi & Hd).
  exists s'. pose proof Hr as (Hhd & _).
  split_and!; try done.
  - intros ->. simpl in Hhd. by rewrite Hhd in Hh.
  - intros Hne. destruct r as [|[x dx] r]; [done|]. simpl in Hhd.
    by rewrite Hhd in Hh |- *.
  - by apply (route_last_link s' r n d).
Qed.

Lemma insert_end_appends_witness :
  route abc_d abc_route ∧ detached abc_d abc_route (Some 4%positive) d_stop
  ∧ ∃ s', insert_end (Some 4%positive) abc_d = Some s'
      ∧ route s' (abc_route ++ [(4%positive, d_stop)])
      ∧ head s' = head abc_d.
Proof.
  destruct abc_d_detached as [Hr Hdet]. split_and!; [done..|].
  destruct (insert_end_appends abc_d abc_route 4%positive d_stop Hr Hdet)
    as (_ & s' & E & Hr' & _ & Hh & _).
  exists s'. split_and!; [assumption..|]. by apply Hh.
Defined.

(** X4.  [insert_after] links the new stop right after the given stop of the
    route and leaves [head] and every other stop in place; with a [NULL]
    first argument it is [insert_end], and on a [NULL] new stop it does
    nothing. *)
Theorem insert_after_splices {W : Type} (s : State W) r1 (e : loc) de r2
    (n : loc) d :
  route s (r1 ++ (e, de) :: r2) →
  detached s (r1 ++ (e, de) :: r2) (Some n) d →
  insert_after (Some e) None s = Some s
  ∧ insert_after None (Some n) s = insert_end (Some n) s
  ∧ ∃ s', insert_after (Some e) (Some n) s = Some s'
      ∧ route s' (r1 ++ (e, de) :: (n, d) :: r2)
      ∧ head s' = head s
      ∧ link (heap s') e n
      ∧ next_id s' = next_id s
      ∧ ∀ b, data_at (heap s') b = data_at (heap s) b.
Proof.
  intros Hr Hdet. split; [done|]. split; [done|].
  destruct (insert_after_spec s r1 e de r2 n d Hr Hdet)
    as (s' & E & Hr' & Hh & Hi & Hd).
  exists s'. split_and!; try done.
  destruct Hr' as (_ & _ & Hring & _).
  rewrite fmap_app, !fmap_cons in Hring. cbn [fst] in Hring.
  destruct (ring_succ _ _ _ _ Hring) as (b & Hb & Hl).
  simpl in Hb. by injection Hb as <-.
Qed.

Lemma insert_after_splices_witness :
  route abc_d ([] ++ (1%positive, (1, "A"%string, 10, 1%float, 2%float))
                  :: [ (2%positive, (2, "B"%string, 20, 3%float, 4%float));
                       (3%positive, (3, "C"%string, 30, 5%float, 6%float)) ])
  ∧ detached abc_d abc_route (Some 4%positive) d_stop
  ∧ ∃ s', insert_after (Some 1%positive) (Some 4%positive) abc_d = Some s'
      ∧ route s' [ (1%positive, (1, "A"%string, 10, 1%float, 2%float));
                   (4%positive, d_stop);
                   (2%positive, (2, "B"%string, 20, 3%float, 4%float));
                   (3%positive, (3, "C"%string, 30, 5%float, 6%float)) ].
Proof.
  destruct abc_d_detached as [Hr Hdet]. split_and!; [exact Hr|exact Hdet|].
  destruct (insert_after_splices abc_d [] 1%positive _ _ 4%positive d_stop Hr Hdet)
    as (_ & _ & s' & E & Hr' & _).
  exists s'. split; assumption.
Defined.

(** X5.  [clear_route] frees every stop of the route and no other allocated
    stop, and leaves the route empty with [head] [NULL]; the counter of
    identifiers keeps its value, and a second call changes nothing. *)
Theorem clear_route_frees {W : Type} (s : State W) r :
  route s r →
  ∃ s', clear_route s = Some s'
    ∧ head s' = None
    ∧ route s' []
    ∧ next_id s' = next_id s
    ∧ (∀ b, b ∈ r.*1 → heap s' !! b = None)
    ∧ (∀ b, b ∉ r.*1 → heap s' !! b = heap s !! b)
    ∧ clear_route s' = Some s'.
Proof.
  intros Hr.
  destruct (clear_route_spec s r Hr) as (s' & E & Hr' & Hi & Hin & Hout).
  exists s'. pose proof Hr' as (Hhd & _). simpl in Hhd.
  split_and!; try done. unfold clear_route. by rewrite Hhd.
Qed.

Lemma clear_route_frees_witness :
  route abc abc_route
  ∧ ∃ s', clear_route abc = Some s' ∧ head s' = None
      ∧ heap s' !! 2%positive = None.
Proof.
  split; [exact abc_is_route|].
  destruct (clear_route_frees abc abc_route abc_is_route)
    as (s' & E & Hh & _ & _ & Hin & _).
  exists s'. split_and!; [assumption..|].
  apply Hin. right. left.
Defined.

(** ** A stop on its own *)

(** X6.  [create_stop] allocates a stop that was not allocated before, gives it
    the value of the counter as identifier and the first 63 characters of
    the name, with both links [NULL], and leaves every allocated stop and
    [head] as they were. *)
Theorem create_stop_allocates {W : Type} (s : State W) (nm : string)
    (pass : Z) (dist time : W) :
  ∃ a s1, create_stop nm pass dist time s = (Some a, s1)
    ∧ heap s !! a = None
    ∧ heap s1 !! a
      = Some (mkStop (next_id s) (strncpy 63 nm) pass dist time None None)
    ∧ strncpy 63 nm = String.substring 0 63 nm
    ∧ (String.length (strncpy 63 nm) ≤ 63)%nat
    ∧ (∀ b, b ≠ a → heap s1 !! b = heap s !! b)
    ∧ head s1 = head s
    ∧ (INT_MIN ≤ next_id s < INT_MAX → next_id s1 = next_id s + 1).
Proof.
  eexists _, _. split; [reflexivity|]. cbn [heap head next_id].
  change (NAME_LEN - 1)%nat with 63%nat.
  split_and!.
  - apply malloc_fresh.
  - by rewrite lookup_insert_eq.
  - generalize 63%nat. intros k. revert nm.
    induction k as [|k IH]; intros [|c nm]; simpl; try done. by rewrite IH.
  - generalize 63%nat. intros k. revert nm.
    induction k as [|k IH]; intros [|c nm]; simpl; try lia.
    specialize (IH nm). lia.
  - intros b Hb. by rewrite lookup_insert_ne.
  - done.
  - intros Hi. unfold wrap_int, INT_MIN, INT_MAX in *.
    rewrite Z.mod_small by lia. lia.
Qed.

(** ** Metrics *)

(** The stops of the forward walk on the route from the stop at index [i]
    up to, and without, the stop at index [j]: through the end of the
    traversal and [head] when [j] comes before [i]. *)
Definition arc {A} (i j : nat) (r : list A) : list A :=
  if decide (i < j)%nat then take (j - i) (drop i r)
  else drop i r ++ take j r.

Lemma arc_forward {A} (r1 m r3 : list A) (x y : A) :
  arc (length r1) (length r1 + S (length m)) (r1 ++ x :: m ++ y :: r3) = x :: m.
Proof.
  unfold arc. rewrite decide_True by lia.
  rewrite drop_app_length.
  replace (length r1 + S (length m) - length r1)%nat with (length (x :: m))
    by (simpl; lia).
  change (x :: m ++ y :: r3) with ((x :: m) ++ y :: r3).
  by rewrite take_app_length.
Qed.

Lemma arc_around {A} (r1 m r3 : list A) (x y : A) :
  arc (length r1 + S (length m)) (length r1) (r1 ++ x :: m ++ y :: r3)
  = y :: r3 ++ r1.
Proof.
  unfold arc. rewrite decide_False by lia.
  rewrite take_app_length.
  replace (r1 ++ x :: m ++ y :: r3) with ((r1 ++ x :: m) ++ y :: r3)
    by (by rewrite <-app_assoc).
  replace (length r1 + S (length m))%nat with (length (r1 ++ x :: m))
    by (rewrite length_app; simpl; lia).
  by rewrite drop_app_length.
Qed.

(** X7.  [total_distance_time] adds the two weights of every stop of the route,
    the last one's leg back to [head] included, one stop after the other
    from [head], starting from [0.0]; on the empty route both outputs are
    [0.0]. *)
Theorem total_distance_time_sums {W : Type} `{Weight W} (s : State W) r :
  route s r →
  total_distance_time s = Some (foldl add_leg (w_zero, w_zero) r.*2)
  ∧ (r = [] → total_distance_time s = Some (w_zero, w_zero))
  ∧ ∀ a d, r = [(a, d)] →
      total_distance_time s
      = Some (w_add w_zero (d_dist d), w_add w_zero (d_time d)).
Proof.
  intros Hr. rewrite (total_distance_time_spec s r Hr).
  split_and!; [done|by intros ->|by intros a d ->].
Qed.

Lemma total_distance_time_sums_witness :
  route abc abc_route
  ∧ total_distance_time abc = Some (9%float, 12%float).
Proof.
  split; [exact abc_is_route|].
  destruct (total_distance_time_sums abc abc_route abc_is_route) as [E _].
  rewrite E. vm_compute. reflexivity.
Defined.

Lemma distance_between_spec {W : Type} `{Weight W} (s : State W) r
    (a_name b_name : string) :
  route s r →
  match lookup_name a_name r, lookup_name b_name r with
  | Some (i, _), Some (j, _) =>
      distance_between a_name b_name s
      = Some (1, if decide (i = j) then (w_zero, w_zero)
                 else foldl add_leg (w_zero, w_zero) (arc i j r).*2)
  | _, _ => distance_between a_name b_name s = Some (0, (w_zero, w_zero))
  end.
Proof.
  intros Hr.
  pose proof (find_by_name_spec s r a_name Hr) as Ea.
  pose proof (find_by_name_spec s r b_name Hr) as Eb.
  destruct (lookup_name a_name r) as [[i [a da]]|] eqn:La.
  2:{ unfold distance_between. destruct (head s); [|done].
      rewrite Ea. cbn [fmap option_fmap option_map mbind option_bind].
      destruct (lookup_name b_name r); rewrite Eb;
        cbn [fmap option_fmap option_map mbind option_bind];
        rewrite decide_True; auto. }
  destruct (lookup_name b_name r) as [[j [b db]]|] eqn:Lb.
  2:{ unfold distance_between. destruct (head s); [|done].
      rewrite Ea, Eb. cbn [fmap option_fmap option_map mbind option_bind].
      rewrite decide_True; auto. }
  cbn [fmap option_fmap option_map snd fst] in Ea, Eb.
  apply list_find_Some in La as (Hi & _). apply list_find_Some in Lb as (Hj & _).
  destruct (decide (i = j)) as [->|Hij].
  - assert (a = b) as -> by congruence.
    unfold distance_between. pose proof Hr as (Hhd & _).
    destruct (head s) eqn:Eh.
    2:{ destruct r; [done|]. simpl in Hhd. congruence. }
    rewrite Ea, Eb. cbn [mbind option_bind].
    rewrite decide_False by (intros [?|?]; congruence).
    by rewrite decide_True.
  - destruct (decide (i < j)%nat) as [Hlt|Hge].
    + destruct (two_positions r i j _ _ Hi Hj Hlt) as (r1 & m & r3 & E).
      assert (i = length r1 ∧ j = (length r1 + S (length m))%nat) as [-> ->].
      { pose proof Hr as (_ & Hnd & _). rewrite E in Hi, Hj, Hnd.
        assert (Hi' : (r1 ++ (a, da) :: m ++ (b, db) :: r3) !! length r1
                      = Some (a, da)) by (by apply list_lookup_middle).
        assert (Hj' : (r1 ++ (a, da) :: m ++ (b, db) :: r3)
                        !! (length r1 + S (length m))%nat = Some (b, db)).
        { rewrite lookup_app_r by lia.
          replace (length r1 + S (length m) - length r1)%nat
            with (S (length m)) by lia.
          by apply (list_lookup_middle m). }
        split.
        - apply (NoDup_lookup _ _ _ a Hnd); rewrite list_lookup_fmap;
            [by rewrite Hi|by rewrite Hi'].
        - apply (NoDup_lookup _ _ _ b Hnd); rewrite list_lookup_fmap;
            [by rewrite Hj|by rewrite Hj']. }
      subst r. rewrite arc_forward.
      by destruct (distance_between_arcs s r1 a da m b db r3 a_name b_name Hr Ea Eb)
        as [-> _].
    + assert (Hlt : (j < i)%nat) by lia.
      destruct (two_positions r j i _ _ Hj Hi Hlt) as (r1 & m & r3 & E).
      assert (j = length r1 ∧ i = (length r1 + S (length m))%nat) as [-> ->].
      { pose proof Hr as (_ & Hnd & _). rewrite E in Hi, Hj, Hnd.
        assert (Hj' : (r1 ++ (b, db) :: m ++ (a, da) :: r3) !! length r1
                      = Some (b, db)) by (by apply list_lookup_middle).
        assert (Hi' : (r1 ++ (b, db) :: m ++ (a, da) :: r3)
                        !! (length r1 + S (length m))%nat = Some (a, da)).
        { rewrite lookup_app_r by lia.
          replace (length r1 + S (length m) - length r1)%nat
            with (S (length m)) by lia.
          by apply (list_lookup_middle m). }
        split.
        - apply (NoDup_lookup _ _ _ b Hnd); rewrite list_lookup_fmap;
            [by rewrite Hj|by rewrite Hj'].
        - apply (NoDup_lookup _ _ _ a Hnd); rewrite list_lookup_fmap;
            [by rewrite Hi|by rewrite Hi']. }
      subst r. rewrite arc_around.
      by destruct (distance_between_arcs s r1 b db m a da r3 b_name a_name Hr Eb Ea)
        as [_ ->].
Qed.

(** X8.  [distance_between] returns 0 with both outputs [0.0] when one of the
    two names is the name of no stop.  When both are, it returns 1: with
    both outputs [0.0] when the two names give the same stop, and otherwise
    with the sums of the weights of the stops of the forward walk from the
    first stop up to the second one, which goes through the end of the
    traversal and [head] when the second stop comes first on the route.
    It never returns 0 when both stops are found. *)
Theorem distance_between_forward {W : Type} `{Weight W} (s : State W) r
    (a_name b_name : string) :
  route s r →
  match lookup_name a_name r, lookup_name b_name r with
  | Some (i, _), Some (j, _) =>
      distance_between a_name b_name s
      = Some (1, if decide (i = j) then (w_zero, w_zero)
                 else foldl add_leg (w_zero, w_zero) (arc i j r).*2)
  | _, _ => distance_between a_name b_name s = Some (0, (w_zero, w_zero))
  end.
Proof. apply distance_between_spec. Qed.

Lemma distance_between_forward_witness :
  route abc abc_route
  ∧ distance_between "C" "B" abc = Some (1, (6%float, 8%float))
  ∧ distance_between "a" "A" abc = Some (1, (0%float, 0%float))
  ∧ distance_between "A" "Depot" abc = Some (0, (0%float, 0%float)).
Proof.
  split; [exact abc_is_route|].
  pose proof (distance_between_forward abc abc_route "C" "B" abc_is_route) as E1.
  pose proof (distance_between_forward abc abc_route "a" "A" abc_is_route) as E2.
  pose proof (distance_between_forward abc abc_route "A" "Depot" abc_is_route) as E3.
  split_and!.
  - etransitivity; [exact E1|]. vm_compute. reflexivity.
  - etransitivity; [exact E2|]. vm_compute. reflexivity.
  - etransitivity; [exact E3|]. vm_compute. reflexivity.
Defined.

(** ** Saving *)

(** X9.  [save_to_file] returns 1 exactly when the route has a stop and the file
    opens for writing.  The file then holds the header line and one line
    per stop, in the order of the traversal from [head], and no other file
    is touched.  When it returns 0 nothing is written. *)
Theorem save_to_file_writes {W : Type} `{WeightIO W} (s : State W) r
    (filename : string) (fs : FS) :
  route s r →
  ∃ n fs', save_to_file filename fs s = Some (n, fs')
    ∧ (n = 0 ∨ n = 1)
    ∧ (n = 1 ↔ r ≠ [] ∧ filename ∉ denied fs)
    ∧ (n = 0 → fs' = fs)
    ∧ (n = 1 →
         fopen_r fs' filename = Some (csv_header +:+ format_rows r.*2)
         ∧ denied fs' = denied fs
         ∧ ∀ other, other ≠ filename → files fs' !! other = files fs !! other).
Proof.
  intros Hr. rewrite (save_to_file_spec s r filename fs Hr).
  case_decide as Hc; eexists _, _; (split; [reflexivity|]).
  - split_and!; [by right|done|done|]. intros _. destruct Hc as [_ Hc].
    unfold fopen_r, write_file. cbn [files denied].
    rewrite decide_False by done. rewrite lookup_insert_eq.
    split_and!; [done..|]. intros other Ho. by rewrite lookup_insert_ne.
  - split_and!; [by left|split; [done|by intros ?]|done..].
Qed.

Lemma save_to_file_writes_witness :
  route abc abc_route
  ∧ ∃ fs', save_to_file "route.csv" no_files abc = Some (1, fs')
      ∧ fopen_r fs' "route.csv"
        = Some (csv_header +:+ format_rows abc_route.*2).
Proof.
  split; [exact abc_is_route|].
  destruct (save_to_file_writes abc abc_route "route.csv" no_files abc_is_route)
    as (n & fs' & E & _ & Hn & _ & Hw).
  assert (n = 1) as ->.
  { apply Hn. split; [done|]. vm_compute. set_solver. }
  exists fs'. split; [assumption|]. by apply Hw.
Defined.

(** ** The sample route *)

(** X10.  [populate_sample] replaces the route, whatever it was, by the five
    sample stops in the order of the table, with the identifiers 1 to 5,
    and leaves the counter at 6. *)
Theorem populate_sample_route (s : State float) r :
  route s r →
  ∃ s' r', populate_sample s = Some s'
    ∧ route s' r'
    ∧ r'.*2 = [ (1, "Central Station"%string, 12, 2.5%float, 6%float);
                (2, "Market Road"%string, 5, 1.2%float, 3%float);
                (3, "Library"%string, 3, 0.9%float, 2%float);
                (4, "College"%string, 8, 1.8%float, 4%float);
                (5, "Park"%string, 2, 2%float, 5%float) ]
    ∧ next_id s' = 6.
Proof.
  intros Hr. unfold populate_sample, populate_with.
  destruct (clear_route_spec s r Hr) as (s1 & -> & Hr1 & _).
  cbn [mbind option_bind].
  destruct (insert_all_spec sample_stops (mkState (heap s1) (head s1) 1) [])
    as (s' & r' & -> & Hr' & Hd & Hi).
  { apply (route_frame s1); done. }
  exists s', r'. split_and!; [done|done|..].
  - rewrite Hd. vm_compute. reflexivity.
  - rewrite Hi. vm_compute. reflexivity.
Qed.

Lemma populate_sample_route_witness :
  route abc abc_route
  ∧ ∃ s' r', populate_sample abc = Some s' ∧ route s' r' ∧ next_id s' = 6.
Proof.
  split; [exact abc_is_route|].
  destruct (populate_sample_route abc abc_route abc_is_route)
    as (s' & r' & E & Hr' & _ & Hi).
  exists s', r'. split_and!; assumption.
Defined.

(** ** Insertion at a position *)

(** X11.  For a position from 1 up to one more than the number of stops,
    [insert_at_position] puts the new stop at that place of the traversal,
    counted from 1: the stops before it keep their places and the others
    move one place further. *)
Theorem insert_at_position_index {W : Type} (s : State W) r (n : loc) d
    (pos : Z) :
  route s r → detached s r (Some n) d →
  1 ≤ pos ≤ Z.of_nat (length r) + 1 →
  ∃ s' r', insert_at_position (Some n) pos s = Some s'
    ∧ route s' r'
    ∧ length r' = S (length r)
    ∧ r' !! Z.to_nat (pos - 1) = Some (n, d)
    ∧ (∀ k, (k < Z.to_nat (pos - 1))%nat → r' !! k = r !! k)
    ∧ (∀ k, (Z.to_nat (pos - 1) ≤ k)%nat → r' !! S k = r !! k).
Proof.
  intros Hr Hdet Hpos.
  destruct (insert_at_position_spec s r n d pos Hr Hdet) as (s' & E & Hr' & _).
  exists s', (insert_at pos (n, d) r). split; [done|]. split; [done|].
  unfold insert_at. destruct (decide (pos ≤ 1)) as [Hle|Hgt].
  - assert (pos = 1) as -> by lia. cbn [Z.to_nat Z.sub Z.add Z.opp Z.pos_sub].
    split_and!; [done|done|intros k; lia|done].
  - set (i := Z.to_nat (pos - 1)).
    assert (Hi : (i ≤ length r)%nat) by lia.
    assert (Hlen : length (take i r) = i) by (rewrite length_take; lia).
    split_and!.
    + rewrite length_app, Hlen. cbn [length]. rewrite length_drop. lia.
    + rewrite <-Hlen at 1. by apply list_lookup_middle.
    + intros k Hk. rewrite lookup_app_l by lia. by rewrite lookup_take_lt.
    + intros k Hk. rewrite lookup_app_r by lia. rewrite Hlen.
      replace (S k - i)%nat with (S (k - i)) by lia.
      change (drop i r !! (k - i)%nat = r !! k).
      rewrite lookup_drop. f_equal. lia.
Qed.

Lemma insert_at_position_index_witness :
  route abc_d abc_route ∧ detached abc_d abc_route (Some 4%positive) d_stop
  ∧ 1 ≤ 3 ≤ Z.of_nat (length abc_route) + 1
  ∧ ∃ s' r', insert_at_position (Some 4%positive) 3 abc_d = Some s'
      ∧ route s' r'
      ∧ r' !! 2%nat = Some (4%positive, d_stop).
Proof.
  destruct abc_d_detached as [Hr Hdet].
  assert (Hpos : 1 ≤ 3 ≤ Z.of_nat (length abc_route) + 1) by (simpl; lia).
  split_and!; [done..|].
  destruct (insert_at_position_index abc_d abc_route 4%positive d_stop 3 Hr Hdet Hpos)
    as (s' & r' & E & Hr' & _ & Hat & _).
  exists s', r'. split_and!; assumption.
Defined.

(** ** Operations one after the other *)

Section Composition.
Context {W : Type}.
Implicit Types (h : gmap loc (Stop W)) (l : list loc) (a b : loc) (s : State W).
Implicit Types (r : list (loc * (Z * string * Z * W * W))) (d : Z * string * Z * W * W).

Lemma list_find_delete {A} (P : A → Prop) `{!∀ x, Decision (P x)}
    (xs : list A) (i j : nat) (x : A) :
  list_find P xs = Some (i, x) → j ≠ i →
  list_find P (delete j xs) = Some (if decide (j < i)%nat then pred i else i, x).
Proof.
  intros E Hji. apply list_find_Some in E as (Hi & HP & Hbefore).
  apply list_find_Some. case_decide as Hlt.
  - split_and!; [|done|].
    + rewrite list_lookup_delete_ge by lia. by replace (S (pred i)) with i by lia.
    + intros k y Hk Hki. destruct (decide (k < j)%nat).
      * rewrite list_lookup_delete_lt in Hk by done. apply (Hbefore k); [done|lia].
      * rewrite list_lookup_delete_ge in Hk by lia. apply (Hbefore (S k)); [done|lia].
  - split_and!; [|done|].
    + rewrite list_lookup_delete_lt by lia. done.
    + intros k y Hk Hki. rewrite list_lookup_delete_lt in Hk by lia.
      by apply (Hbefore k).
Qed.

Lemma lookup_name_after nm r1 r2 :
  no_match nm r1 →
  (λ x, x.2.1) <$> lookup_name nm (r1 ++ r2) = (λ x, x.2.1) <$> lookup_name nm r2.
Proof.
  intros Hno. unfold lookup_name.
  rewrite list_find_app_r by (by apply list_find_None).
  by destruct (list_find _ r2) as [[k y]|].
Qed.

(** Two states with the same route hold the same stop at every address of
    the route. *)
Lemma route_cells s s' r a :
  route s r → route s' r → a ∈ r.*1 → heap s !! a = heap s' !! a.
Proof.
  intros Hr Hr' Ha.
  destruct (route_split s r a Hr Ha) as (r1 & da & r2 & ->).
  assert (Hin : (a, da) ∈ r1 ++ (a, da) :: r2) by (apply elem_of_app; right; left).
  pose proof (route_data_at s _ a da Hr Hin) as Hd.
  pose proof (route_data_at s' _ a da Hr' Hin) as Hd'.
  destruct Hr as (_ & _ & Hring & _). destruct Hr' as (_ & _ & Hring' & _).
  rewrite fmap_app, fmap_cons in Hring, Hring'. cbn [fst] in Hring, Hring'.
  destruct (ring_succ _ _ _ _ Hring) as (n & Hn & Hnx & _).
  destruct (ring_succ _ _ _ _ Hring') as (n' & Hn' & Hnx' & _).
  assert (n' = n) as -> by congruence.
  destruct (ring_pred _ _ _ _ Hring) as (p & Hp & Hpn & Hpv).
  assert (Hpv' : prv (heap s') a = Some p).
  { apply list_elem_of_split in Hp as (q1 & q2 & E).
    rewrite E in Hring, Hring'.
    destruct (ring_succ _ _ _ _ Hring) as (b & Hb & Hpb & _).
    destruct (ring_succ _ _ _ _ Hring') as (b' & Hb' & _ & Hpb').
    assert (b = a) as -> by congruence. assert (b' = a) as -> by congruence.
    done. }
  unfold data_at, nxt, prv in *.
  destruct (heap s !! a) as [[i1 n1 p1 d1 t1 pv1 nx1]|]; [|done].
  destruct (heap s' !! a) as [[i2 n2 p2 d2 t2 pv2 nx2]|]; [|done].
  simpl in *. unfold data in *. simpl in *. congruence.
Qed.

End Composition.

(** X12.  [delete_by_name] removes the first stop with the name and no other:
    afterwards [find_by_name] on that name gives the next stop of the
    traversal that has it, or [NULL] when there was only one, and then a
    second deletion returns 0 and changes nothing.  Every other stop that a
    name gave before is still the one that name gives. *)
Theorem delete_by_name_first_only {W : Type} (s : State W) r1 (a : loc) d r2
    (nm : string) :
  route s (r1 ++ (a, d) :: r2) →
  no_match nm r1 → strcasecmp (d_name d) nm = 0 →
  ∃ s', delete_by_name nm s = Some (1, s')
    ∧ route s' (r1 ++ r2)
    ∧ find_by_name nm s' = Some ((λ x, x.2.1) <$> lookup_name nm r2)
    ∧ (no_match nm r2 →
         find_by_name nm s' = Some None ∧ delete_by_name nm s' = Some (0, s'))
    ∧ ∀ (nm' : string) (b : loc),
        find_by_name nm' s = Some (Some b) → b ≠ a →
        find_by_name nm' s' = Some (Some b).
Proof.
  intros Hr Hno Hm.
  pose proof (lookup_name_middle nm r1 a d r2 Hno Hm) as Hl.
  destruct (delete_by_name_found s _ nm _ a d Hr Hl) as (s' & E & Hr' & _).
  rewrite delete_middle in Hr'. exists s'.
  assert (Hf : find_by_name nm s' = Some ((λ x, x.2.1) <$> lookup_name nm r2)).
  { rewrite (find_by_name_spec s' _ nm Hr'). f_equal.
    by apply lookup_name_after. }
  split_and!; [done..| |].
  - intros Hno2. apply lookup_name_None in Hno2 as Hl2.
    rewrite Hl2 in Hf. split; [done|].
    apply (delete_by_name_absent s' (r1 ++ r2)); [done|].
    apply lookup_name_None. by apply Forall_app.
  - intros nm' b Hb Hba.
    rewrite (find_by_name_spec s _ nm' Hr) in Hb.
    destruct (lookup_name nm' (r1 ++ (a, d) :: r2)) as [[k [b' db]]|] eqn:Lb;
      [|done].
    injection Hb as ->.
    assert (Hk : length r1 ≠ k).
    { intros <-. apply list_find_Some in Lb as (Hk & _).
      rewrite list_lookup_middle in Hk by done. congruence. }
    apply (list_find_delete _ _ _ (length r1)) in Lb; [|done].
    rewrite delete_middle in Lb.
    rewrite (find_by_name_spec s' _ nm' Hr').
    unfold lookup_name. by rewrite Lb.
Qed.

Lemma delete_by_name_first_only_witness :
  route abc ([(1%positive, (1, "A"%string, 10, 1%float, 2%float))]
             ++ (2%positive, (2, "B"%string, 20, 3%float, 4%float))
             :: [(3%positive, (3, "C"%string, 30, 5%float, 6%float))])
  ∧ no_match "b" [(1%positive, (1, "A"%string, 10, 1%float, 2%float))]
  ∧ strcasecmp "B" "b" = 0
  ∧ ∃ s', delete_by_name "b" abc = Some (1, s')
      ∧ find_by_name "b" s' = Some None
      ∧ find_by_name "c" s' = Some (Some 3%positive).
Proof.
  assert (Hno : no_match "b" [(1%positive, (1, "A"%string, 10, 1%float, 2%float))]).
  { repeat constructor. by vm_compute. }
  assert (Hm : strcasecmp "B" "b" = 0) by (vm_compute; reflexivity).
  split_and!; [exact abc_is_route|exact Hno|exact Hm|].
  destruct (delete_by_name_first_only abc
              [(1%positive, (1, "A"%string, 10, 1%float, 2%float))]
              2%positive (2, "B"%string, 20, 3%float, 4%float)
              [(3%positive, (3, "C"%string, 30, 5%float, 6%float))]
              "b" abc_is_route Hno Hm)
    as (s' & E & _ & _ & Hnone & Hother).
  exists s'. split_and!; [assumption| |].
  - apply Hnone. repeat constructor. by vm_compute.
  - apply Hother; [vm_compute; reflexivity|done].
Defined.

(** X13.  A stop put at the end of the route under a name that no stop has, and
    then removed by that name, leaves the route as it was: the same stops
    in the same order with the same links and [head], and the new stop
    freed.  Only the counter of identifiers has moved on. *)
Theorem delete_by_name_undoes_insert_end {W : Type} (s : State W) r
    (nm : string) (pass : Z) (dist time : W) :
  route s r → no_match nm r → (String.length nm ≤ 63)%nat →
  ∃ a s1 s2 s3,
    create_stop nm pass dist time s = (Some a, s1)
    ∧ insert_end (Some a) s1 = Some s2
    ∧ delete_by_name nm s2 = Some (1, s3)
    ∧ route s3 r
    ∧ head s3 = head s
    ∧ heap s3 !! a = None
    ∧ (∀ b, b ∈ r.*1 → heap s3 !! b = heap s !! b)
    ∧ next_id s3 = wrap_int (next_id s + 1).
Proof.
  intros Hr Hno Hlen.
  destruct (create_stop_spec s r nm pass dist time Hr)
    as (a & s1 & E1 & Hr1 & Hdet & Hh1 & Hi1 & _).
  change (NAME_LEN - 1)%nat with 63%nat in Hdet.
  rewrite (strncpy_short 63 nm Hlen) in Hdet.
  destruct (insert_end_spec s1 r a _ Hr1 Hdet) as (s2 & E2 & Hr2 & _ & Hi2 & _).
  assert (Hl : lookup_name nm (r ++ [(a, (next_id s, nm, pass, dist, time))])
               = Some (length r, (a, (next_id s, nm, pass, dist, time)))).
  { apply lookup_name_middle; [done|]. apply strcasecmp_refl. }
  destruct (delete_by_name_found s2 _ nm _ a _ Hr2 Hl)
    as (s3 & E3 & Hr3 & Hi3 & Hfree & _).
  rewrite delete_middle, app_nil_r in Hr3.
  exists a, s1, s2, s3. split_and!; try done.
  - destruct Hr3 as (-> & _). by destruct Hr as (-> & _).
  - intros b Hb. by apply (route_cells s3 s r).
  - by rewrite Hi3, Hi2, Hi1.
Qed.

Lemma delete_by_name_undoes_insert_end_witness :
  route abc abc_route ∧ no_match "Depot" abc_route
  ∧ (String.length "Depot" ≤ 63)%nat
  ∧ ∃ a s1 s2 s3,
      create_stop "Depot" 7 1%float 2%float abc = (Some a, s1)
      ∧ insert_end (Some a) s1 = Some s2
      ∧ delete_by_name "Depot" s2 = Some (1, s3)
      ∧ route s3 abc_route.
Proof.
  assert (Hno : no_match "Depot" abc_route).
  { repeat constructor; by vm_compute. }
  assert (Hlen : (String.length "Depot" ≤ 63)%nat) by (simpl; lia).
  split_and!; [exact abc_is_route|assumption..|].
  destruct (delete_by_name_undoes_insert_end abc abc_route "Depot" 7 1%float
              2%float abc_is_route Hno Hlen)
    as (a & s1 & s2 & s3 & E1 & E2 & E3 & Hr3 & _).
  exists a, s1, s2, s3. split_and!; assumption.
Defined.

(** ** The choices of the menu *)

(** X14.  Choice 4 of the menu makes the new stop, looks for the stop to insert
    after in the route as it was (the new stop is not in it yet, whatever
    its name), and links the new stop right after the first stop with that
    name; when no stop has it the new stop goes to the end of the route.
    The files are not touched. *)
Theorem menu_insert_after {W : Type} `{Weight W} `{WeightIO W}
    (sample : list (string * Z * W * W)) (s : State W) r
    (nm after : string) (pass : Z) (dist time : W) (fs : FS) :
  route s r →
  ∃ a s',
    run_command sample (InsertAfter nm after pass dist time) fs s = Some (fs, s')
    ∧ heap s !! a = None
    ∧ route s'
        (match lookup_name after r with
         | Some (i, _) =>
             take (S i) r
             ++ (a, (next_id s, strncpy 63 nm, pass, dist, time))
             :: drop (S i) r
         | None => r ++ [(a, (next_id s, strncpy 63 nm, pass, dist, time))]
         end)
    ∧ head s' = (if head s is None then Some a else head s).
Proof.
  intros Hr. cbn [run_command].
  destruct (create_stop_spec s r nm pass dist time Hr)
    as (a & s1 & -> & Hr1 & Hdet & Hh1 & Hi1 & Hfresh & _).
  change (NAME_LEN - 1)%nat with 63%nat in Hdet.
  rewrite (find_by_name_spec s1 r after Hr1). cbn [mbind option_bind].
  exists a.
  destruct (lookup_name after r) as [[i [e de]]|] eqn:E;
    cbn [fmap option_fmap option_map snd fst].
  - apply lookup_name_Some in E as (r1 & r2 & -> & <- & _).
    destruct (insert_after_spec s1 r1 e de r2 a _ Hr1 Hdet)
      as (s2 & -> & Hr2 & Hh2 & _).
    exists s2. split_and!; [done|done| |].
    + replace (S (length r1)) with (length (r1 ++ [(e, de)]))
        by (rewrite length_app; simpl; lia).
      replace (r1 ++ (e, de) :: r2) with ((r1 ++ [(e, de)]) ++ r2)
        by (by rewrite <-app_assoc).
      rewrite take_app_length, drop_app_length, <-app_assoc. done.
    + rewrite Hh2, Hh1. destruct Hr as (Hhd & _). rewrite Hhd.
      by destruct r1.
  - destruct (insert_end_spec s1 r a _ Hr1 Hdet) as (s2 & -> & Hr2 & Hh2 & _).
    exists s2. split_and!; [done|done|done|]. by rewrite Hh2, Hh1.
Qed.

Lemma menu_insert_after_witness :
  route abc abc_route
  ∧ ∃ a s',
      run_command sample_stops (InsertAfter "D" "a" 7 1%float 2%float) no_files abc
      = Some (no_files, s')
      ∧ route s' [ (1%positive, (1, "A"%string, 10, 1%float, 2%float));
                   (a, (4, "D"%string, 7, 1%float, 2%float));
                   (2%positive, (2, "B"%string, 20, 3%float, 4%float));
                   (3%positive, (3, "C"%string, 30, 5%float, 6%float)) ].
Proof.
  split; [exact abc_is_route|].
  destruct (menu_insert_after sample_stops abc abc_route "D" "a" 7 1%float 2%float
              no_files abc_is_route) as (a & s' & E & _ & Hr' & _).
  exists a, s'. split; assumption.
Defined.

(** ** What the route owns *)

Section Ownership.
Context {W : Type} `{Weight W} `{WeightIO W}.
Implicit Types (h : gmap loc (Stop W)) (l : list loc) (a b : loc) (s : State W).
Implicit Types (r : list (loc * (Z * string * Z * W * W))) (d : Z * string * Z * W * W).

(** The state holds the route [r] and no other stop: every allocated stop
    is a stop of the route.  The names are of at most 63 characters, as the
    63 characters and the final [0] of [name[NAME_LEN]] allow. *)
Definition owned s r : Prop :=
  route s r
  ∧ (∀ b, is_Some (heap s !! b) → b ∈ r.*1)
  ∧ Forall (λ ad, (String.length (d_name ad.2) ≤ 63)%nat) r.

Definition tidy s : Prop := ∃ r, owned s r.

Lemma strncpy_length (n : nat) (nm : string) :
  (String.length (strncpy n nm) ≤ n)%nat.
Proof.
  revert nm. induction n as [|n IH]; intros [|c nm]; simpl; try lia.
  specialize (IH nm). lia.
Qed.

Lemma alloc_frame h h' (P : loc → Prop) :
  (∀ b, data_at h' b = data_at h b) →
  (∀ b, is_Some (h !! b) → P b) → ∀ b, is_Some (h' !! b) → P b.
Proof.
  intros Hd HP b Hb. apply HP. apply data_at_is_Some. rewrite <-Hd.
  by apply data_at_is_Some.
Qed.

(** A new stop, as [create_stop] makes it, linked into the route by one of
    the three insertions. *)
Lemma owned_create s r nm pass (dist time : W) :
  owned s r →
  ∃ a s1, create_stop nm pass dist time s = (Some a, s1)
    ∧ route s1 r
    ∧ detached s1 r (Some a) (next_id s, strncpy 63 nm, pass, dist, time)
    ∧ (∀ b, is_Some (heap s1 !! b) → b ∈ a :: r.*1).
Proof.
  intros (Hr & Hown & _).
  destruct (create_stop_spec s r nm pass dist time Hr)
    as (a & s1 & E & Hr1 & Hdet & _ & _ & _ & Hframe).
  exists a, s1. split_and!; [done..|].
  intros b Hb. destruct (decide (b = a)) as [->|Hne]; [left|right].
  apply Hown. by rewrite <-Hframe.
Qed.

Lemma owned_insert s1 s2 r r' a nm i pass (dist time : W) :
  owned s1 r → route s2 r' →
  r' ≡ₚ (a, (i, strncpy 63 nm, pass, dist, time)) :: r →
  (∀ b, is_Some (heap s2 !! b) → b ∈ a :: r.*1) →
  owned s2 r'.
Proof.
  intros (_ & _ & Hfit) Hr' Hperm Hall. split_and!; [done| |].
  - intros b Hb. rewrite Hperm. by apply Hall.
  - rewrite Hperm. apply Forall_cons. split; [|done].
    apply strncpy_length.
Qed.

Lemma owned_insert_end s r nm pass (dist time : W) :
  owned s r →
  ∃ a s1 s2, create_stop nm pass dist time s = (Some a, s1)
    ∧ insert_end (Some a) s1 = Some s2
    ∧ owned s2 (r ++ [(a, (next_id s, strncpy 63 nm, pass, dist, time))]).
Proof.
  intros Ho. pose proof Ho as (Hr & Hown & Hfit).
  destruct (owned_create s r nm pass dist time Ho)
    as (a & s1 & E1 & Hr1 & Hdet & Hown1).
  destruct (insert_end_spec s1 r a _ Hr1 Hdet) as (s2 & E2 & Hr2 & _ & _ & Hd).
  exists a, s1, s2. split_and!; [done..|].
  split_and!; [done| |].
  - intros b Hb. rewrite fmap_app. apply elem_of_app.
    apply (alloc_frame _ _ (λ b, b ∈ a :: r.*1) Hd Hown1) in Hb.
    apply elem_of_cons in Hb as [->|Hb]; [right; left|by left].
  - apply Forall_app. split; [done|]. apply Forall_singleton.
    apply strncpy_length.
Qed.

Lemma owned_insert_all rows : ∀ s r,
  owned s r → ∃ s' r', insert_all rows s = Some s' ∧ owned s' r'.
Proof.
  induction rows as [|[[[nm pass] dist] time] rows IH]; intros s r Ho.
  - by exists s, r.
  - cbn [insert_all].
    destruct (owned_insert_end s r nm pass dist time Ho)
      as (a & s1 & s2 & -> & -> & Ho2).
    cbn [mbind option_bind]. by eapply IH.
Qed.

Lemma owned_load_loop : ∀ fuel f s r,
  (String.length f < fuel)%nat → owned s r →
  ∃ s' r', load_from_file_loop fuel f s = Some s' ∧ owned s' r'.
Proof.
  induction fuel as [|fuel IH]; intros f s r Hfuel Ho; [lia|].
  cbn [load_from_file_loop].
  destruct (fgets LINE_LEN f) as [[line f']|] eqn:E; [|by exists s, r].
  pose proof (fgets_shorter _ _ _ E) as Hlen.
  assert (Hf : (String.length f' < fuel)%nat) by lia.
  destruct (sscanf_row line) as [n [[[[nm pass] dist] time]|]];
    [|by apply (IH f' s r)].
  destruct (4 <=? n); [|by apply (IH f' s r)].
  destruct (owned_insert_end s r nm pass dist time Ho)
    as (a & s1 & s2 & -> & -> & Ho2).
  cbn [mbind option_bind]. by eapply IH.
Qed.

Lemma owned_clear s r :
  owned s r →
  ∃ s', clear_route s = Some s' ∧ owned s' [] ∧ heap s' = ∅ ∧ head s' = None
        ∧ next_id s' = next_id s.
Proof.
  intros (Hr & Hown & _).
  destruct (clear_route_spec s r Hr) as (s' & E & Hr' & Hi & Hin & Hout).
  assert (He : heap s' = ∅).
  { apply map_eq. intros b. rewrite lookup_empty.
    destruct (decide (b ∈ r.*1)) as [Hb|Hb]; [by apply Hin|].
    rewrite (Hout b Hb). apply eq_None_not_Some. intros Hs. by apply Hb, Hown. }
  exists s'. split_and!; try done.
  - split_and!; [done| |done]. intros b. rewrite He, lookup_empty.
    by intros [? ?].
  - by destruct Hr' as (-> & _).
Qed.

Lemma owned_delete s r nm :
  owned s r → ∃ n s' r', delete_by_name nm s = Some (n, s') ∧ owned s' r'.
Proof.
  intros Ho. pose proof Ho as (Hr & Hown & Hfit).
  destruct (lookup_name nm r) as [[i [a d]]|] eqn:E.
  - destruct (delete_by_name_found s r nm i a d Hr E)
      as (s' & E' & Hr' & _ & Hfree & Hd).
    exists 1, s', (delete i r). split; [done|].
    apply lookup_name_Some in E as (r1 & r2 & -> & <- & _).
    rewrite delete_middle in Hr' |- *.
    split_and!; [done| |].
    + intros b Hb. destruct (decide (b = a)) as [->|Hne].
      { rewrite Hfree in Hb. by destruct Hb. }
      apply data_at_is_Some in Hb. rewrite (Hd b Hne) in Hb.
      apply data_at_is_Some, Hown in Hb.
      rewrite fmap_app, fmap_cons in Hb. rewrite fmap_app.
      set_solver.
    + apply Forall_app in Hfit as [H1 H2]. apply Forall_cons in H2 as [_ H2].
      by apply Forall_app.
  - exists 0, s, r. split; [|done]. by apply (delete_by_name_absent s r).
Qed.

Lemma owned_load s r filename fs :
  owned s r → ∃ n s' r', load_from_file filename fs s = Some (n, s') ∧ owned s' r'.
Proof.
  intros Ho. unfold load_from_file.
  destruct (fopen_r fs filename) as [f|]; [|by exists 0, s, r].
  destruct (owned_clear s r Ho) as (s1 & -> & Ho1 & _).
  cbn [mbind option_bind].
  destruct (fgets LINE_LEN f) as [[line f']|]; [|by exists 0, s1, []].
  destruct (owned_load_loop (S (String.length f')) f' s1 [])
    as (s' & r' & -> & Ho'); [lia|done|].
  by exists 1, s', r'.
Qed.

Lemma run_command_tidy sample c fs s :
  tidy s → ∃ fs' s', run_command sample c fs s = Some (fs', s') ∧ tidy s'.
Proof.
  intros [r Ho]. pose proof Ho as (Hr & Hown & Hfit).
  destruct c as [nm pass dist time|nm after pass dist time
    |nm pos pass dist time|nm|filename|filename|]; cbn [run_command].
  - destruct (owned_insert_end s r nm pass dist time Ho)
      as (a & s1 & s2 & -> & -> & Ho2).
    eexists _, _. split; [done|]. by eexists.
  - destruct (owned_create s r nm pass dist time Ho)
      as (a & s1 & -> & Hr1 & Hdet & Hown1).
    rewrite (find_by_name_spec s1 r after Hr1). cbn [mbind option_bind].
    destruct (lookup_name after r) as [[i [e de]]|] eqn:E;
      cbn [fmap option_fmap option_map snd fst].
    + apply lookup_name_Some in E as (r1 & r2 & -> & _).
      destruct (insert_after_spec s1 r1 e de r2 a _ Hr1 Hdet)
        as (s2 & -> & Hr2 & _ & _ & Hd).
      eexists _, _. split; [done|]. eexists.
      apply (owned_insert s s2 _ _ a nm (next_id s) pass dist time Ho Hr2).
      * rewrite <-!Permutation_middle. apply perm_swap.
      * by apply (alloc_frame _ _ _ Hd).
    + destruct (insert_end_spec s1 r a _ Hr1 Hdet) as (s2 & -> & Hr2 & _ & _ & Hd).
      eexists _, _. split; [done|]. eexists.
      apply (owned_insert s s2 _ _ a nm (next_id s) pass dist time Ho Hr2).
      * by rewrite <-Permutation_cons_append.
      * by apply (alloc_frame _ _ _ Hd).
  - destruct (owned_create s r nm pass dist time Ho)
      as (a & s1 & -> & Hr1 & Hdet & Hown1).
    destruct (insert_at_position_spec s1 r a _ pos Hr1 Hdet)
      as (s2 & -> & Hr2 & _ & _ & Hd).
    eexists _, _. split; [done|]. eexists.
    apply (owned_insert s s2 _ _ a nm (next_id s) pass dist time Ho Hr2).
    + unfold insert_at. case_decide; [done|].
      rewrite <-Permutation_middle. by rewrite take_drop.
    + by apply (alloc_frame _ _ _ Hd).
  - destruct (owned_delete s r nm Ho) as (n & s' & r' & -> & Ho').
    eexists _, _. split; [done|]. by eexists.
  - rewrite (save_to_file_spec s r filename fs Hr). cbn [mbind option_bind].
    case_decide; eexists _, _; (split; [done|]); by eexists.
  - destruct (owned_load s r filename fs Ho) as (n & s' & r' & -> & Ho').
    eexists _, _. split; [done|]. by eexists.
  - unfold populate_with.
    destruct (owned_clear s r Ho) as (s1 & -> & Ho1 & He & Hh & _).
    cbn [mbind option_bind].
    destruct (owned_insert_all sample (mkState (heap s1) (head s1) 1) [])
      as (s' & r' & -> & Ho').
    { destruct Ho1 as (Hr1 & Hown1 & Hfit1). split_and!; [|done..].
      apply (route_frame s1); done. }
    eexists _, _. split; [done|]. by eexists.
Qed.

Lemma reachable_tidy sample s : reachable sample s → tidy s.
Proof.
  induction 1 as [|s c fs fs' s' _ IH E].
  - exists []. split_and!; [|by intros b [? ?]|done].
    split_and!; try done. apply NoDup_nil_2.
  - destruct (run_command_tidy sample c fs s IH) as (fs1 & s1 & E1 & Hc).
    congruence.
Qed.

End Ownership.

(** X15.  In every state of a session the allocated stops are the stops of the
    route and no others: no stop is lost by an insertion, a deletion, a
    load or a repopulation, and none of the route is freed. *)
Theorem session_keeps_no_other_stop {W : Type} `{Weight W} `{WeightIO W}
    (sample : list (string * Z * W * W)) (s : State W) :
  reachable sample s →
  ∃ r, route s r
    ∧ (∀ b, is_Some (heap s !! b) ↔ b ∈ r.*1)
    ∧ size (heap s) = length r.
Proof.
  intros Hs. destruct (reachable_tidy sample s Hs) as (r & Hr & Hown & _).
  exists r. split; [done|].
  assert (Hiff : ∀ b, is_Some (heap s !! b) ↔ b ∈ r.*1).
  { intros b. split; [apply Hown|].
    intros Hb. apply data_at_is_Some. by apply (route_alloc s r). }
  split; [done|].
  pose proof Hr as (_ & Hnd & _).
  rewrite <-(length_fmap fst r), <-(size_list_to_set (C := gset loc) (r.*1)) by done.
  rewrite <-(size_dom (heap s)). f_equal. apply set_eq. intros b.
  rewrite elem_of_dom, elem_of_list_to_set. apply Hiff.
Qed.

Lemma session_keeps_no_other_stop_witness :
  reachable sample_stops abc
  ∧ ∃ r, route abc r
      ∧ (∀ b, is_Some (heap abc !! b) ↔ b ∈ r.*1)
      ∧ size (heap abc) = length r.
Proof.
  split; [exact abc_reachable|].
  exact (session_keeps_no_other_stop sample_stops abc abc_reachable).
Defined.

(** X16.  In every state of a session the name of every allocated stop has at
    most 63 characters: with its final [0] it fits [name[NAME_LEN]]. *)
Theorem session_names_fit {W : Type} `{Weight W} `{WeightIO W}
    (sample : list (string * Z * W * W)) (s : State W) (a : loc) (st : Stop W) :
  reachable sample s → heap s !! a = Some st →
  (String.length (name st) < NAME_LEN)%nat.
Proof.
  intros Hs Ha. destruct (reachable_tidy sample s Hs) as (r & Hr & Hown & Hfit).
  assert (Hin : a ∈ r.*1) by (apply Hown; by rewrite Ha).
  destruct (route_split s r a Hr Hin) as (r1 & da & r2 & ->).
  assert (Hd : data_at (heap s) a = Some da).
  { apply (route_data_at s _ a da Hr). apply elem_of_app. right. left. }
  unfold data_at in Hd. rewrite Ha in Hd. injection Hd as <-.
  apply Forall_app in Hfit as [_ Hfit]. apply Forall_cons in Hfit as [Hfit _].
  unfold NAME_LEN. cbn in Hfit. lia.
Qed.

Lemma session_names_fit_witness :
  reachable sample_stops abc
  ∧ heap abc !! 2%positive
    = Some (mkStop 2 "B" 20 3%float 4%float (Some 1%positive) (Some 3%positive))
  ∧ (String.length "B" < NAME_LEN)%nat.
Proof.
  assert (Hb : heap abc !! 2%positive
    = Some (mkStop 2 "B" 20 3%float 4%float (Some 1%positive) (Some 3%positive)))
    by (vm_compute; reflexivity).
  split_and!; [exact abc_reachable|exact Hb|].
  exact (session_names_fit sample_stops abc 2%positive _ abc_reachable Hb).
Defined.

(** X17.  Choice 0 of the menu calls [clear_route] before it returns: from every
    state of a session this frees every allocated stop, so that nothing is
    left allocated when the program ends. *)
Theorem exit_frees_every_stop {W : Type} `{Weight W} `{WeightIO W}
    (sample : list (string * Z * W * W)) (s : State W) :
  reachable sample s →
  ∃ s', clear_route s = Some s' ∧ heap s' = ∅ ∧ head s' = None.
Proof.
  intros Hs. destruct (reachable_tidy sample s Hs) as (r & Ho).
  destruct (owned_clear s r Ho) as (s' & E & _ & He & Hh & _).
  by exists s'.
Qed.

Lemma exit_frees_every_stop_witness :
  reachable sample_stops abc
  ∧ ∃ s', clear_route abc = Some s' ∧ heap s' = ∅ ∧ head s' = None.
Proof.
  split; [exact abc_reachable|].
  exact (exit_frees_every_stop sample_stops abc abc_reachable).
Defined.

(** ** A route saved and loaded again *)

Section RoundTrip.
Context {W : Type} `{WeightIO W}.
Implicit Types (h : gmap loc (Stop W)) (l : list loc) (a b : loc) (s : State W).
Implicit Types (r : list (loc * (Z * string * Z * W * W))) (d : Z * string * Z * W * W).

(** The four values of a stop that a row of the file carries. *)
Definition row_of d : string * Z * W * W :=
  (d_name d, d_passengers d, d_dist d, d_time d).

(** A name that [%63[^,]] reads back from its line: not empty, of at most
    63 characters, none of them a comma, a newline or a [0]. *)
Definition name_ok (nm : string) : Prop :=
  nm ≠ EmptyString ∧ (String.length nm ≤ 63)%nat
  ∧ chars_all (λ c, plain c ∧ c ≠ ","%char) nm.

(** A weight that [%lf] reads back from what [%.6f] prints of it, before
    the comma or the newline that follows it on the line. *)
Definition reads_back (w : W) : Prop :=
  chars_all plain (printf_f6 w)
  ∧ ∀ (c : ascii) (rest : string), c = ","%char ∨ c = NL →
      scanf_lf (printf_f6 w +:+ String c rest) = Some (w, String c rest).

(** A stop whose line [sscanf] reads back: the passengers are an [int], and
    the line fits in the buffer of [fgets]. *)
Definition row_ok d : Prop :=
  name_ok (d_name d) ∧ is_int (d_passengers d)
  ∧ reads_back (d_dist d) ∧ reads_back (d_time d)
  ∧ (String.length (format_data d) ≤ 255)%nat.

(** The line of a stop without its newline. *)
Definition row_body d : string :=
  print_d (d_id d) +:+ "," +:+ d_name d +:+ "," +:+ print_d (d_passengers d)
  +:+ "," +:+ printf_f6 (d_dist d) +:+ "," +:+ printf_f6 (d_time d).

Lemma format_data_body d :
  format_data d = row_body d +:+ String NL EmptyString.
Proof. unfold format_data, row_body. by rewrite !append_assoc. Qed.

Lemma comma_append (x : string) : "," +:+ x = String "," x.
Proof. done. Qed.

Lemma row_body_plain d : row_ok d → chars_all plain (row_body d).
Proof.
  intros ((_ & _ & Hnm) & _ & [Hd _] & [Ht _] & _). unfold row_body.
  rewrite !chars_all_append. split_and!; try done; try apply print_d_plain.
  by apply (chars_all_impl (λ c, plain c ∧ c ≠ ","%char)); [intros c [? ?]|].
Qed.

(** [sscanf] assigns the four values of the stop on the line that
    [fprintf] wrote for it. *)
Lemma sscanf_row_format_data d :
  row_ok d → sscanf_row (format_data d) = (4, Some (row_of d)).
Proof.
  intros Hok. pose proof (row_body_plain d Hok) as Hplain.
  destruct Hok as ((Hne & Hlen & Hnm) & Hpass & [_ Hd] & [_ Ht] & _).
  unfold sscanf_row. rewrite until_nul_plain.
  2:{ rewrite format_data_body, chars_all_append. split.
      - by apply (chars_all_impl plain); [intros c [? ?]|].
      - by split. }
  unfold format_data. rewrite !comma_append.
  rewrite scan_d_print_d by done. cbn [scan_comma].
  rewrite scan_name_name; [|done| |done].
  2:{ by apply (chars_all_impl (λ c, plain c ∧ c ≠ ","%char)); [intros c [? ?]|]. }
  cbn [scan_comma]. rewrite scan_d_print_d by done.
  rewrite (int_of_long_int _ Hpass). cbn [scan_comma].
  rewrite Hd by (by left). cbn [scan_comma].
  rewrite Ht by (by right). done.
Qed.

Lemma format_rows_cons d ds : format_rows (d :: ds) = format_data d +:+ format_rows ds.
Proof. done. Qed.

(** [fgets] reads the lines of the stops back one by one. *)
Lemma fgets_lines_format_rows ds : ∀ fuel : nat,
  Forall row_ok ds → (String.length (format_rows ds) < fuel)%nat →
  fgets_lines fuel (format_rows ds) = format_data <$> ds.
Proof.
  induction ds as [|d ds IH]; intros fuel Hok Hfuel.
  - destruct fuel; [simpl in Hfuel; lia|]. done.
  - apply Forall_cons in Hok as [Hd Hok].
    destruct fuel as [|fuel]; [lia|].
    rewrite format_rows_cons in Hfuel |- *.
    rewrite append_length in Hfuel.
    pose proof (row_body_plain d Hd) as Hplain.
    destruct Hd as (_ & _ & _ & _ & Hlen).
    rewrite format_data_body in Hlen, Hfuel |- *.
    rewrite append_length in Hlen, Hfuel. cbn [String.length] in Hlen, Hfuel.
    cbn [fgets_lines]. rewrite append_assoc, append_cons.
    change (EmptyString +:+ format_rows ds) with (format_rows ds).
    rewrite fgets_line; [|by apply (chars_all_impl plain); [intros c [? ?]|]|lia].
    cbn [fmap list_fmap]. rewrite format_data_body. f_equal.
    apply IH; [done|lia].
Qed.

Lemma data_lines_saved ds :
  Forall row_ok ds →
  data_lines (csv_header +:+ format_rows ds) = format_data <$> ds.
Proof.
  intros Hok. unfold data_lines, csv_header.
  rewrite (append_assoc "id,name,passengers,dist_to_next,time_to_next").
  change (String NL EmptyString +:+ format_rows ds)
    with (String NL (format_rows ds)).
  rewrite (fgets_line "id,name,passengers,dist_to_next,time_to_next");
    [|repeat (split; [done|]); done|simpl; lia].
  by apply fgets_lines_format_rows; [|lia].
Qed.

Lemma omap_row_of_line_saved ds :
  Forall row_ok ds → omap row_of_line (format_data <$> ds) = row_of <$> ds.
Proof.
  induction 1 as [|d ds Hd _ IH]; [done|].
  cbn [fmap list_fmap omap list_omap].
  assert (E : row_of_line (format_data d) = Some (row_of d)).
  { apply row_of_line_Some. by apply sscanf_row_format_data. }
  rewrite E. f_equal. exact IH.
Qed.

Lemma row_of_assign_ids (rows : list (string * Z * W * W)) : ∀ i,
  Forall (λ row, (String.length row.1.1.1 ≤ 63)%nat) rows →
  row_of <$> assign_ids i rows = rows.
Proof.
  induction rows as [|[[[nm pass] dist] time] rows IH]; intros i Hlen; [done|].
  apply Forall_cons in Hlen as [Hnm Hlen]. cbn [assign_ids fmap list_fmap].
  change (NAME_LEN - 1)%nat with 63%nat.
  rewrite (strncpy_short 63 nm Hnm). f_equal. by apply IH.
Qed.

End RoundTrip.

(** X18.  A route saved to a file and loaded from it comes back with the same
    names, passengers and weights in the same order, and with new
    identifiers from the counter, whatever the route was before the load.
    This holds for the stops whose line reads back: the name is not empty
    and has no comma, newline or [0], the two weights are read by [%lf] as
    they were from what [%.6f] prints, and the line has at most 255
    characters. *)
Theorem save_then_load_round_trip {W : Type} `{WeightIO W} (s s0 : State W)
    r r0 (filename : string) (fs : FS) :
  route s r → r ≠ [] → filename ∉ denied fs → Forall row_ok r.*2 →
  route s0 r0 →
  ∃ fs' s' r',
    save_to_file filename fs s = Some (1, fs')
    ∧ load_from_file filename fs' s0 = Some (1, s')
    ∧ route s' r'
    ∧ row_of <$> r'.*2 = row_of <$> r.*2
    ∧ d_id <$> r'.*2
      = (λ k, next_id_after k (next_id s0)) <$> seq 0 (length r).
Proof.
  intros Hr Hne Hfile Hok Hr0.
  rewrite (save_to_file_spec s r filename fs Hr).
  rewrite decide_True by done.
  set (f := csv_header +:+ format_rows r.*2).
  assert (Ef : fopen_r (write_file fs filename f) filename = Some f).
  { unfold fopen_r, write_file. cbn [files denied].
    rewrite decide_False by done. by rewrite lookup_insert_eq. }
  destruct (load_from_file_open s0 r0 _ filename f Hr0 Ef) as (s1 & _ & _ & _ & Hload).
  assert (Eh : fgets LINE_LEN f
               = Some (csv_header, format_rows r.*2)).
  { unfold f, csv_header.
    rewrite (append_assoc "id,name,passengers,dist_to_next,time_to_next").
    change (String NL EmptyString +:+ format_rows r.*2)
      with (String NL (format_rows r.*2)).
    apply (fgets_line "id,name,passengers,dist_to_next,time_to_next");
      [repeat (split; [done|]); done|simpl; lia]. }
  rewrite Eh in Hload. destruct Hload as (s' & r' & E & Hr' & Hd & _).
  unfold f in Hd. rewrite (data_lines_saved _ Hok) in Hd.
  rewrite (omap_row_of_line_saved _ Hok) in Hd.
  exists (write_file fs filename f), s', r'. split_and!; [done..| |].
  - rewrite Hd. apply row_of_assign_ids.
    apply Forall_fmap. eapply Forall_impl; [exact Hok|].
    by intros d ((_ & Hlen & _) & _).
  - rewrite Hd, assign_ids_ids. by rewrite !length_fmap.
Qed.

Lemma abc_rows_read_back : Forall row_ok abc_route.*2.
Proof.
  assert (Hw : ∀ w : float,
    w ∈ [1%float; 2%float; 3%float; 4%float; 5%float; 6%float] → reads_back w).
  { intros w Hw. repeat (apply elem_of_cons in Hw as [->|Hw]);
      [..|by apply elem_of_nil in Hw];
      (split; [vm_compute; repeat (split; [done|]); done|]);
      intros c rest [->| ->]; vm_compute; reflexivity. }
  repeat apply Forall_cons_2; [..|apply Forall_nil_2];
    (split_and!;
      [ split_and!; [done|simpl; lia|repeat (split; [done|]); done]
      | by vm_compute
      | apply Hw; set_solver
      | apply Hw; set_solver
      | apply Nat.leb_le; vm_compute; reflexivity ]).
Qed.

Lemma save_then_load_round_trip_witness :
  route abc abc_route ∧ abc_route ≠ [] ∧ ("route.csv" ∉ denied no_files)
  ∧ Forall row_ok abc_route.*2
  ∧ route (@init float) []
  ∧ ∃ fs' s' r',
      save_to_file "route.csv" no_files abc = Some (1, fs')
      ∧ load_from_file "route.csv" fs' (@init float) = Some (1, s')
      ∧ route s' r'
      ∧ row_of <$> r'.*2
        = [ ("A"%string, 10, 1%float, 2%float); ("B"%string, 20, 3%float, 4%float);
            ("C"%string, 30, 5%float, 6%float) ].
Proof.
  assert (Hne : abc_route ≠ []) by done.
  assert (Hfile : "route.csv" ∉ denied no_files) by (vm_compute; set_solver).
  assert (Hok : Forall row_ok abc_route.*2) by exact abc_rows_read_back.
  assert (Hinit : route (@init float) []).
  { split_and!; try done. apply NoDup_nil_2. }
  split_and!; [exact abc_is_route|assumption..|].
  destruct (save_then_load_round_trip abc init abc_route [] "route.csv" no_files
              abc_is_route Hne Hfile Hok Hinit)
    as (fs' & s' & r' & E1 & E2 & Hr' & Hrows & _).
  exists fs', s', r'. split_and!; assumption.
Defined.

(** ** The lines of a file *)

Section Lines.
Context {W : Type} `{WeightIO W}.
Implicit Types (s : State W).
Implicit Types (r : list (loc * (Z * string * Z * W * W))).

(** The text of a file made of lines, each ended by a newline. *)
Definition unlines (ls : list string) : string :=
  foldr (λ line out, line +:+ String NL out) EmptyString ls.

(** A line that [fgets] reads in one piece: fewer than 255 characters
    before its newline, and no newline among them. *)
Definition short_line (line : string) : Prop :=
  chars_all (λ c, c ≠ NL) line ∧ (String.length line < 255)%nat.

Lemma fgets_lines_unlines ls : ∀ fuel : nat,
  Forall short_line ls → (String.length (unlines ls) < fuel)%nat →
  fgets_lines fuel (unlines ls) = (λ line, line +:+ String NL EmptyString) <$> ls.
Proof.
  induction ls as [|line ls IH]; intros fuel Hok Hfuel.
  - destruct fuel; [simpl in Hfuel; lia|]. done.
  - apply Forall_cons in Hok as [[Hnl Hlen] Hok].
    destruct fuel as [|fuel]; [lia|].
    cbn [unlines foldr] in Hfuel |- *. fold (unlines ls) in Hfuel |- *.
    rewrite append_length in Hfuel. cbn [String.length] in Hfuel.
    cbn [fgets_lines]. rewrite fgets_line by done.
    cbn [fmap list_fmap]. f_equal. apply IH; [done|lia].
Qed.

Lemma omap_after_fmap {A B C} (f : B → option C) (g : A → B) (xs : list A) :
  omap f (g <$> xs) = omap (λ x, f (g x)) xs.
Proof.
  induction xs as [|x xs IH]; [done|].
  cbn [fmap list_fmap omap list_omap]. destruct (f (g x)); by rewrite <-IH.
Qed.

End Lines.

(** X19.  [load_from_file] reads the file line by line.  On a file of lines of
    fewer than 255 characters it drops the first line, whatever it holds,
    and then makes one stop of each line on which [sscanf] assigns the four
    values, in the order of the file, with identifiers from the counter;
    the other lines are passed over and the load still returns 1. *)
Theorem load_from_file_line_by_line {W : Type} `{WeightIO W} (s : State W) r
    (filename : string) (fs : FS) (first : string) (ls : list string) :
  route s r →
  fopen_r fs filename = Some (unlines (first :: ls)) →
  Forall short_line (first :: ls) →
  ∃ s' r', load_from_file filename fs s = Some (1, s')
    ∧ route s' r'
    ∧ r'.*2
      = assign_ids (next_id s)
          (omap (λ line, row_of_line (line +:+ String NL EmptyString)) ls)
    ∧ (∀ line, row_of_line line = None ↔ (sscanf_row line).1 < 4).
Proof.
  intros Hr Ef Hok. apply Forall_cons in Hok as [[Hnl Hlen] Hok].
  destruct (load_from_file_open s r fs filename _ Hr Ef) as (s1 & _ & _ & _ & Hload).
  assert (Eh : fgets LINE_LEN (unlines (first :: ls))
               = Some (first +:+ String NL EmptyString, unlines ls)).
  { cbn [unlines foldr]. by apply fgets_line. }
  rewrite Eh in Hload. destruct Hload as (s' & r' & E & Hr' & Hd & _).
  exists s', r'. split_and!; [done..| |].
  - rewrite Hd. unfold data_lines. rewrite Eh.
    rewrite (fgets_lines_unlines ls) by (done || lia).
    f_equal. apply omap_after_fmap.
  - intros line. apply row_of_line_None.
Qed.

(** A file whose second row stops after the name. *)
Definition file_with_short_row : list string :=
  [ "id,name,passengers,dist_to_next,time_to_next"; "1,Depot,4,1.5,2.25";
    "2,Yard"; "3,Quay,6,0.5,1" ]%string.

Definition disk : FS :=
  mkFS {[ "route.csv"%string := unlines file_with_short_row ]} ∅.

Lemma load_from_file_line_by_line_witness :
  route abc abc_route
  ∧ fopen_r disk "route.csv" = Some (unlines file_with_short_row)
  ∧ Forall short_line file_with_short_row
  ∧ ∃ s' r', load_from_file "route.csv" disk abc = Some (1, s')
      ∧ route s' r'
      ∧ r'.*2 = [ (4, "Depot"%string, 4, 1.5%float, 2.25%float);
                  (5, "Quay"%string, 6, 0.5%float, 1%float) ].
Proof.
  assert (Ef : fopen_r disk "route.csv" = Some (unlines file_with_short_row))
    by (vm_compute; reflexivity).
  assert (Hok : Forall short_line file_with_short_row).
  { repeat apply Forall_cons_2; [..|apply Forall_nil_2];
      (split; [repeat (split; [done|]); done|simpl; lia]). }
  split_and!; [exact abc_is_route|assumption..|].
  destruct (load_from_file_line_by_line abc abc_route "route.csv" disk _ _
              abc_is_route Ef Hok) as (s' & r' & E & Hr' & Hd & _).
  exists s', r'. split_and!; [assumption..|].
  etransitivity; [exact Hd|]. vm_compute. reflexivity.
Defined.

Lemma load_succeeds_after_header_witness :
  route abc abc_route
  ∧ fopen_r disk "route.csv" = Some (unlines file_with_short_row)
  ∧ unlines file_with_short_row ≠ EmptyString
  ∧ ∃ s' r', load_from_file "route.csv" disk abc = Some (1, s')
      ∧ route s' r' ∧ length r' = 2%nat.
Proof.
  assert (Ef : fopen_r disk "route.csv" = Some (unlines file_with_short_row))
    by (vm_compute; reflexivity).
  assert (Hne : unlines file_with_short_row ≠ EmptyString) by done.
  split_and!; [exact abc_is_route|assumption..|].
  destruct (load_succeeds_after_header abc abc_route "route.csv" disk _
              abc_is_route Ef Hne) as (s' & r' & E & Hr' & Hlen & _).
  exists s', r'. split_and!; [assumption..|].
  etransitivity; [exact Hlen|]. vm_compute. reflexivity.
Defined.

(** ** The empty route *)

(** X21.  Deleting the only stop of the route leaves the empty route, on which
    every function takes its short way out: the two searches return
    [NULL], the totals are [0.0], [distance_between], [save_to_file] and
    [delete_by_name] return 0 and change nothing, and [clear_route] has
    nothing to free. *)
Theorem delete_sole_stop_empties {W : Type} `{Weight W} `{WeightIO W}
    (s : State W) (a : loc) d (nm : string) :
  route s [(a, d)] → strcasecmp (d_name d) nm = 0 →
  ∃ s', delete_by_name nm s = Some (1, s')
    ∧ head s' = None
    ∧ heap s' !! a = None
    ∧ (∀ nm', find_by_name nm' s' = Some None)
    ∧ (∀ i, find_by_id i s' = Some None)
    ∧ total_distance_time s' = Some (w_zero, w_zero)
    ∧ (∀ x y, distance_between x y s' = Some (0, (w_zero, w_zero)))
    ∧ (∀ filename fs, save_to_file filename fs s' = Some (0, fs))
    ∧ (∀ nm', delete_by_name nm' s' = Some (0, s'))
    ∧ clear_route s' = Some s'.
Proof.
  intros Hr Hm.
  assert (Hl : lookup_name nm [(a, d)] = Some (0%nat, (a, d))).
  { rewrite lookup_name_cons. by rewrite decide_True. }
  destruct (delete_by_name_found s _ nm _ a d Hr Hl) as (s' & E & Hr' & _ & Hfree & _).
  cbn [delete list_delete] in Hr'. pose proof Hr' as (Hhd & _). simpl in Hhd.
  exists s'. split_and!; try done.
  - intros nm'. unfold find_by_name. by rewrite Hhd.
  - intros i. unfold find_by_id. by rewrite Hhd.
  - unfold total_distance_time. by rewrite Hhd.
  - intros x y. unfold distance_between. by rewrite Hhd.
  - intros filename fs. unfold save_to_file. by rewrite Hhd.
  - intros nm'. unfold delete_by_name, find_by_name. by rewrite Hhd.
  - unfold clear_route. by rewrite Hhd.
Qed.

(** The route of the single stop A. *)
Definition only_a : State float :=
  state_after [InsertEnd "A" 10 1%float 2%float].

Lemma only_a_route :
  route only_a [(1%positive, (1, "A"%string, 10, 1%float, 2%float))].
Proof.
  split_and!.
  - vm_compute. done.
  - vm_compute. repeat (constructor; [set_solver|]). constructor.
  - vm_compute. done.
  - repeat constructor.
Qed.

Lemma delete_sole_stop_empties_witness :
  route only_a [(1%positive, (1, "A"%string, 10, 1%float, 2%float))]
  ∧ strcasecmp "A" "a" = 0
  ∧ ∃ s', delete_by_name "a" only_a = Some (1, s')
      ∧ head s' = None
      ∧ total_distance_time s' = Some (0%float, 0%float).
Proof.
  assert (Hm : strcasecmp "A" "a" = 0) by (vm_compute; reflexivity).
  split_and!; [exact only_a_route|exact Hm|].
  destruct (delete_sole_stop_empties only_a 1%positive
              (1, "A"%string, 10, 1%float, 2%float) "a" only_a_route Hm)
    as (s' & E & Hh & _ & _ & _ & Ht & _).
  exists s'. split_and!; assumption.
Defined.

(** ** Whole sessions *)

Section Sessions.
Context {W : Type} `{Weight W} `{WeightIO W}.
Implicit Types (s : State W).

Lemma run_session_returns sample cs : ∀ fs s,
  cyclic s → ∃ fs' s', run_session sample cs fs s = Some (fs', s') ∧ cyclic s'.
Proof.
  induction cs as [|c cs IH]; intros fs s Hc; cbn [run_session].
  - by exists fs, s.
  - destruct (run_command_cyclic sample c fs s Hc) as (fs1 & s1 & -> & Hc1).
    cbn [mbind option_bind]. by apply IH.
Qed.

End Sessions.

(** X22.  No sequence of choices of the menu makes the program fault.  From the
    empty route every choice returns: no [NULL] and no freed stop is
    dereferenced and every loop over the route ends.  In the state
    reached, the searches, the two metrics and the saving return as
    well. *)
Theorem session_never_faults {W : Type} `{Weight W} `{WeightIO W}
    (sample : list (string * Z * W * W)) (cs : list command) (fs : FS) :
  ∃ fs' s', run_session sample cs fs init = Some (fs', s')
    ∧ reachable sample s'
    ∧ (∀ nm, is_Some (find_by_name nm s'))
    ∧ (∀ i, is_Some (find_by_id i s'))
    ∧ is_Some (total_distance_time s')
    ∧ (∀ x y, is_Some (distance_between x y s'))
    ∧ (∀ filename, is_Some (save_to_file filename fs' s')).
Proof.
  assert (Hinit : reachable sample (@init W)) by constructor.
  destruct (run_session_returns sample cs fs init) as (fs' & s' & E & [r Hr]).
  { by apply (reachable_cyclic sample). }
  exists fs', s'. split; [done|]. split.
  { by apply (run_session_reachable sample cs fs init fs' s'). }
  split_and!.
  - intros nm. by rewrite (find_by_name_spec s' r nm Hr).
  - intros i. by rewrite (find_by_id_spec s' r i Hr).
  - by rewrite (total_distance_time_spec s' r Hr).
  - intros x y. pose proof (distance_between_spec s' r x y Hr) as Hd.
    destruct (lookup_name x r) as [[i ?]|]; [destruct (lookup_name y r) as [[j ?]|]|];
      by rewrite Hd.
  - intros filename. by rewrite (save_to_file_spec s' r filename fs' Hr).
Qed.

(** ** Reading the answers of the user *)

(** The string of [buf] after [if (L && buf[L-1] == '\n') buf[L-1] = 0]:
    without the newline that ends it, when it ends with one. *)
Fixpoint strip_newline (s : string) : string :=
  match s with
  | EmptyString => EmptyString
  | String c rest =>
      match rest with
      | EmptyString => if decide (c = NL) then EmptyString else s
      | String _ _ => String c (strip_newline rest)
      end
  end.

(** [read_line (buf, n)] on the unread part of the standard input: the
    string left in [buf] and what is left of the input.  At the end of the
    input [buf] is the empty string. *)
Definition read_line (n : nat) (stdin : string) : string * string :=
  match fgets n stdin with
  | Some (line, rest) => (strip_newline (until_nul line), rest)
  | None => (EmptyString, stdin)
  end.

(** The [while (1)] loop of [read_int]: an empty line, or the end of the
    input, gives 0; a line that [strtol] converts gives its value as an
    [int]; on any other line the question is asked again. *)
Fixpoint read_int_loop (fuel : nat) (stdin : string) : option (Z * string) :=
  match fuel with
  | O => None
  | S fuel' =>
      let '(tmp, rest) := read_line 64 stdin in
      match tmp with
      | EmptyString => Some (0, rest)
      | String _ _ =>
          match scan_d tmp with
          | Some (v, _) => Some (v, rest)
          | None => read_int_loop fuel' rest
          end
      end
  end.

Definition read_int (stdin : string) : option (Z * string) :=
  read_int_loop (S (String.length stdin)) stdin.

Lemma strip_newline_line (line : string) :
  chars_all (λ c, c ≠ NL) line →
  strip_newline (line +:+ String NL EmptyString) = line
  ∧ strip_newline line = line.
Proof.
  induction line as [|c line IH]; intros Hl.
  - split; [|done]. change (EmptyString +:+ String NL EmptyString)
      with (String NL EmptyString). cbn [strip_newline]. by rewrite decide_True.
  - destruct Hl as [Hc Hl]. destruct (IH Hl) as [IH1 IH2].
    rewrite append_cons. cbn [strip_newline]. split.
    + destruct line as [|c' line].
      * change (EmptyString +:+ String NL EmptyString) with (String NL EmptyString).
        change (EmptyString +:+ String NL EmptyString)
          with (String NL EmptyString) in IH1.
        by rewrite IH1.
      * rewrite append_cons in IH1 |- *. by rewrite IH1.
    + destruct line as [|c' line]; [by rewrite decide_False|]. by rewrite IH2.
Qed.

Lemma fgets_chars_cut (kept left : string) :
  chars_all (λ c, c ≠ NL) kept →
  fgets_chars (String.length kept) (kept +:+ left) = (kept, left).
Proof.
  induction kept as [|c kept IH]; intros Hk.
  - change (EmptyString +:+ left) with left. by destruct left.
  - destruct Hk as [Hc Hk]. rewrite append_cons. cbn [String.length fgets_chars].
    rewrite decide_False by done. by rewrite IH.
Qed.

Lemma fgets_Some (n : nat) (s : string) :
  s ≠ EmptyString → fgets n s = Some (fgets_chars (n - 1) s).
Proof. by destruct s. Qed.

Lemma append_not_empty (a b : string) (c : ascii) :
  a +:+ String c b ≠ EmptyString.
Proof. by destruct a. Qed.

Lemma wrap_int_is_int (z : Z) : is_int (wrap_int z).
Proof.
  unfold is_int, wrap_int, INT_MIN, INT_MAX.
  pose proof (Z.mod_pos_bound (z + 2 ^ 31) (2 ^ 32) ltac:(lia)). lia.
Qed.

Lemma scan_d_is_int (s : string) v rest : scan_d s = Some (v, rest) → is_int v.
Proof.
  unfold scan_d. destruct (skip_ws s) as [|c s1]; [done|].
  destruct (match String c s1 with
            | String "-" rest => (true, rest)
            | String "+" rest => (false, rest)
            | _ => (false, String c s1)
            end) as [neg s2].
  destruct (starts_with_digit s2); [|done].
  destruct (scan_digits s2 0) as [v' rest']. intros [= <- _].
  apply wrap_int_is_int.
Qed.

Lemma read_line_shorter n stdin buf rest :
  read_line n stdin = (buf, rest) →
  (String.length rest ≤ String.length stdin)%nat
  ∧ (buf ≠ EmptyString → String.length rest < String.length stdin)%nat.
Proof.
  unfold read_line, fgets. destruct stdin as [|c stdin].
  { intros [= <- <-]. split; [done|]. by intros ?. }
  destruct (fgets_chars (n - 1) (String c stdin)) as [line f'] eqn:E.
  intros [= <- <-]. pose proof (fgets_chars_length _ _ _ _ E) as Hlen.
  cbn [String.length] in Hlen |- *.
  split; [lia|]. intros Hne.
  destruct line as [|c' line]; [done|]. cbn [String.length] in Hlen. lia.
Qed.

Lemma read_int_loop_returns : ∀ fuel stdin,
  (String.length stdin < fuel)%nat →
  ∃ v rest, read_int_loop fuel stdin = Some (v, rest) ∧ is_int v
            ∧ (String.length rest ≤ String.length stdin)%nat.
Proof.
  induction fuel as [|fuel IH]; intros stdin Hfuel; [lia|].
  cbn [read_int_loop]. destruct (read_line 64 stdin) as [tmp rest] eqn:E.
  destruct (read_line_shorter _ _ _ _ E) as [Hle Hlt].
  destruct tmp as [|c tmp].
  { exists 0, rest. split_and!; [done| |done]. unfold is_int, INT_MIN, INT_MAX. lia. }
  destruct (scan_d (String c tmp)) as [[v r]|] eqn:Es.
  - exists v, rest. split_and!; [done| |done]. by eapply scan_d_is_int.
  - specialize (Hlt ltac:(done)).
    destruct (IH rest ltac:(lia)) as (v & rest' & -> & Hv & Hr).
    exists v, rest'. split_and!; [done..|lia].
Qed.

Lemma read_int_loop_fuel : ∀ fuel1 fuel2 stdin,
  (String.length stdin < fuel1)%nat → (String.length stdin < fuel2)%nat →
  read_int_loop fuel1 stdin = read_int_loop fuel2 stdin.
Proof.
  induction fuel1 as [|fuel1 IH]; intros fuel2 stdin H1 H2; [lia|].
  destruct fuel2 as [|fuel2]; [lia|]. cbn [read_int_loop].
  destruct (read_line 64 stdin) as [tmp rest] eqn:E.
  destruct (read_line_shorter _ _ _ _ E) as [Hle Hlt].
  destruct tmp as [|c tmp]; [done|].
  destruct (scan_d (String c tmp)) as [[v r]|]; [done|].
  specialize (Hlt ltac:(done)). apply IH; lia.
Qed.

Lemma read_line_short (n : nat) (line rest : string) :
  chars_all plain line → (String.length line < n - 1)%nat →
  read_line n (line +:+ String NL rest) = (line, rest).
Proof.
  intros Hk Hlen.
  assert (Hknl : chars_all (λ c, c ≠ NL) line)
    by (by apply (chars_all_impl plain); [intros c [? ?]|]).
  unfold read_line. rewrite fgets_Some by apply append_not_empty.
  rewrite (fgets_chars_line line rest (n - 1)) by done.
  rewrite until_nul_plain.
  2:{ rewrite chars_all_append. split; [|by split].
      by apply (chars_all_impl plain); [intros c [? ?]|]. }
  by rewrite (proj1 (strip_newline_line line Hknl)).
Qed.

Lemma read_line_long (n : nat) (kept left : string) :
  chars_all plain kept → (0 < n - 1)%nat → String.length kept = (n - 1)%nat →
  read_line n (kept +:+ left) = (kept, left).
Proof.
  intros Hk Hn Hlen.
  assert (Hknl : chars_all (λ c, c ≠ NL) kept)
    by (by apply (chars_all_impl plain); [intros c [? ?]|]).
  unfold read_line. rewrite fgets_Some.
  2:{ destruct kept; [simpl in Hlen; lia|done]. }
  rewrite <-Hlen. rewrite fgets_chars_cut by done.
  rewrite until_nul_plain by (by apply (chars_all_impl plain); [intros c [? ?]|]).
  by rewrite (proj2 (strip_newline_line kept Hknl)).
Qed.

Lemma digits_of_length (fuel : nat) : ∀ (n : Z) (acc : string),
  (String.length (digits_of fuel n acc) ≤ fuel + String.length acc)%nat.
Proof.
  induction fuel as [|fuel IH]; intros n acc; cbn [digits_of]; [lia|].
  cbv zeta. destruct (n <? 10).
  - cbn [String.length]. lia.
  - etransitivity; [apply IH|]. cbn [String.length]. lia.
Qed.

Lemma print_d_length (z : Z) : is_int z → (String.length (print_d z) ≤ 33)%nat.
Proof.
  unfold is_int, INT_MIN, INT_MAX. intros Hz.
  assert (Hn : ∀ n, 0 ≤ n ≤ 2 ^ 31 → (String.length (print_nat n) ≤ 32)%nat).
  { intros n Hn. unfold print_nat.
    etransitivity; [apply digits_of_length|]. cbn [String.length].
    destruct (decide (n = 0)) as [->|Hne]; [simpl; lia|].
    assert (Z.log2 n ≤ 31).
    { rewrite <-(Z.log2_pow2 31) by lia. apply Z.log2_le_mono. lia. }
    pose proof (Z.log2_nonneg n). lia. }
  unfold print_d. destruct (z <? 0) eqn:E.
  - cbn [String.length]. apply Z.ltb_lt in E. specialize (Hn (- z)). lia.
  - apply Z.ltb_ge in E. specialize (Hn z). lia.
Qed.

(** X23.  [read_line] gives a line of the input without its newline when the
    line is shorter than the buffer.  A line of [n - 1] characters or more
    is cut after [n - 1] characters, and what is left of it, with its
    newline, stays in the input for the next call.  At the end of the input
    the string is empty. *)
Theorem read_line_cuts_long_lines (n : nat) (kept left rest : string) :
  chars_all plain kept →
  read_line n EmptyString = (EmptyString, EmptyString)
  ∧ ((String.length kept < n - 1)%nat →
       read_line n (kept +:+ String NL rest) = (kept, rest))
  ∧ ((0 < n - 1)%nat → String.length kept = (n - 1)%nat →
       read_line n (kept +:+ left +:+ String NL rest)
       = (kept, left +:+ String NL rest)).
Proof.
  intros Hk. split; [done|]. split.
  - intros Hlen. by apply read_line_short.
  - intros Hn Hlen. by apply read_line_long.
Qed.

Lemma read_line_cuts_long_lines_witness :
  chars_all plain "Airport"
  ∧ read_line 8 ("Airport" +:+ " Road" +:+ String NL "12")
    = ("Airport"%string, " Road" +:+ String NL "12").
Proof.
  assert (Hk : chars_all plain "Airport") by (repeat (split; [done|]); done).
  split; [assumption|].
  destruct (read_line_cuts_long_lines 8 "Airport" " Road" "12" Hk)
    as (_ & _ & Hcut).
  apply Hcut; simpl; lia.
Defined.

(** X24.  [read_int] always returns, with a value of an [int], and never gives
    back more input than it was given.  It returns 0 at the end of the
    input and on an empty line; it returns the number written by a line
    that holds one; and a line that does not start with a number is passed
    over, the answer being read from the lines after it. *)
Theorem read_int_takes_first_number (stdin : string) :
  (∃ v rest, read_int stdin = Some (v, rest) ∧ is_int v
     ∧ (String.length rest ≤ String.length stdin)%nat)
  ∧ read_int EmptyString = Some (0, EmptyString)
  ∧ read_int (String NL stdin) = Some (0, stdin)
  ∧ (∀ z, is_int z → read_int (print_d z +:+ String NL stdin) = Some (z, stdin))
  ∧ (∀ line, chars_all plain line → (String.length line < 63)%nat →
       line ≠ EmptyString → scan_d line = None →
       read_int (line +:+ String NL stdin) = read_int stdin).
Proof.
  split; [apply read_int_loop_returns; lia|].
  split; [done|]. split; [done|]. split.
  - intros z Hz. unfold read_int. cbn [read_int_loop].
    pose proof (print_d_length z Hz) as Hlen.
    rewrite read_line_short; [|apply print_d_plain|simpl; lia].
    pose proof (scan_d_print_d z EmptyString eq_refl) as Hs.
    rewrite append_nil_r in Hs. rewrite Hs, (int_of_long_int z Hz).
    destruct (print_d z) eqn:E; [|done].
    exfalso. unfold print_d in E. destruct (z <? 0); [done|].
    destruct (print_nat_head z EmptyString) as (c & r & Hc & _).
    rewrite append_nil_r in Hc. congruence.
  - intros line Hplain Hlen Hne Hs. unfold read_int.
    set (answer := read_int_loop (S (String.length stdin)) stdin).
    cbn [read_int_loop].
    rewrite read_line_short; [|done|simpl; lia].
    destruct line as [|c line]; [done|]. rewrite Hs.
    apply read_int_loop_fuel; [|lia].
    rewrite append_length. cbn [String.length]. lia.
Qed.

(** ** Letter case *)

Section LetterCase.
Context {W : Type}.
Implicit Types (s : State W).
Implicit Types (r : list (loc * (Z * string * Z * W * W))).

(** A C string: no character of it is the final [0]. *)
Definition c_string (x : string) : Prop := chars_all (λ c, c ≠ NUL) x.

(** The string in lower case. *)
Fixpoint lower (x : string) : string :=
  match x with
  | EmptyString => EmptyString
  | String c rest => String (tolower c) (lower rest)
  end.

Lemma tolower_not_NUL (c : ascii) : c ≠ NUL → uchar (tolower c) ≠ 0.
Proof.
  destruct c as [[|] [|] [|] [|] [|] [|] [|] [|]]; intros Hc;
    try (by vm_compute); by destruct Hc.
Qed.

Lemma uchar_inj (c d : ascii) : uchar c = uchar d → c = d.
Proof.
  unfold uchar. intros E. apply Nat2Z.inj in E.
  by rewrite <-(ascii_nat_embedding c), <-(ascii_nat_embedding d), E.
Qed.

Lemma strcasecmp_lower (a : string) : ∀ b : string,
  c_string a → c_string b →
  strcasecmp a b = 0 ↔ lower a = lower b.
Proof.
  induction a as [|c a IH]; intros [|d b] Ha Hb; cbn [strcasecmp lower].
  - done.
  - destruct Hb as [Hd _]. pose proof (tolower_not_NUL d Hd). split; [lia|done].
  - destruct Ha as [Hc _]. pose proof (tolower_not_NUL c Hc). split; [lia|done].
  - destruct Ha as [_ Ha]. destruct Hb as [_ Hb]. case_decide as E.
    + rewrite (IH b Ha Hb). rewrite E. split; [by intros ->|by intros [= ->]].
    + split; [|by intros [= ? _]].
      intros Hz. exfalso. apply E, uchar_inj. lia.
Qed.

Lemma list_find_iff {A} (P Q : A → Prop) `{!∀ x, Decision (P x)}
    `{!∀ x, Decision (Q x)} (xs : list A) :
  Forall (λ x, P x ↔ Q x) xs → list_find P xs = list_find Q xs.
Proof.
  induction 1 as [|x xs Hx _ IH]; [done|]. cbn [list_find].
  destruct (decide (P x)), (decide (Q x)); [done|tauto|tauto|by rewrite IH].
Qed.

Lemma lookup_name_same_case r (nm nm' : string) :
  c_string nm → c_string nm' → Forall (λ ad, c_string (d_name ad.2)) r →
  strcasecmp nm nm' = 0 →
  lookup_name nm r = lookup_name nm' r.
Proof.
  intros Hn Hn' Hr Hz. apply list_find_iff.
  eapply Forall_impl; [exact Hr|]. intros [a d] Hd. cbn [snd] in Hd |- *.
  rewrite !strcasecmp_lower by done.
  apply strcasecmp_lower in Hz; [|done..]. by rewrite Hz.
Qed.

End LetterCase.

(** X25.  The search by name does not see letter case: two names that differ by
    the case of their letters only give the same stop to [find_by_name],
    and the same deletion to [delete_by_name].  The names are C strings,
    which hold no [0]. *)
Theorem find_by_name_ignores_case {W : Type} (s : State W) r (nm nm' : string) :
  route s r →
  c_string nm → c_string nm' → Forall (λ ad, c_string (d_name ad.2)) r →
  strcasecmp nm nm' = 0 →
  find_by_name nm s = find_by_name nm' s
  ∧ delete_by_name nm s = delete_by_name nm' s.
Proof.
  intros Hr Hn Hn' Hnames Hz.
  assert (E : find_by_name nm s = find_by_name nm' s).
  { rewrite (find_by_name_spec s r nm Hr), (find_by_name_spec s r nm' Hr).
    by rewrite (lookup_name_same_case r nm nm'). }
  split; [done|]. unfold delete_by_name. by rewrite E.
Qed.

Lemma find_by_name_ignores_case_witness :
  route abc abc_route
  ∧ c_string "b" ∧ c_string "B"
  ∧ Forall (λ ad, c_string (d_name ad.2)) abc_route
  ∧ strcasecmp "b" "B" = 0
  ∧ find_by_name "b" abc = find_by_name "B" abc.
Proof.
  assert (H1 : c_string "b") by (split; done).
  assert (H2 : c_string "B") by (split; done).
  assert (H3 : Forall (λ ad, c_string (d_name ad.2)) abc_route).
  { repeat constructor; done. }
  assert (H4 : strcasecmp "b" "B" = 0) by (vm_compute; reflexivity).
  split_and!; [exact abc_is_route|assumption..|].
  by destruct (find_by_name_ignores_case abc abc_route "b" "B" abc_is_route
                 H1 H2 H3 H4) as [E _].
Defined.

(** ** The row of a stop without a name *)

Lemma until_nul_append (a b : string) :
  chars_all (λ c, c ≠ NUL) a → until_nul (a +:+ b) = a +:+ until_nul b.
Proof.
  induction a as [|c a IH]; intros Ha; [done|]. destruct Ha as [Hc Ha].
  rewrite !append_cons. cbn [until_nul]. rewrite decide_False by done.
  by rewrite IH.
Qed.

(** X26.  A stop whose name is empty is written by [save_to_file] as a row whose
    name field is empty, on which [sscanf] assigns nothing: such a row is
    passed over by [load_from_file], whatever the other fields are. *)
Theorem empty_name_is_not_loaded {W : Type} `{WeightIO W}
    (d : Z * string * Z * W * W) :
  d_name d = EmptyString →
  sscanf_row (format_data d) = (0, None)
  ∧ row_of_line (format_data d) = None.
Proof.
  intros Hn.
  assert (E : sscanf_row (format_data d) = (0, None)).
  { unfold sscanf_row, format_data. rewrite Hn. rewrite !comma_append.
    change (EmptyString +:+ ?x) with x.
    rewrite until_nul_append.
    2:{ apply (chars_all_impl plain); [by intros c [? ?]|apply print_d_plain]. }
    cbn [until_nul]. rewrite !decide_False by done.
    rewrite scan_d_print_d by done. cbn [scan_comma]. done. }
  split; [done|]. apply row_of_line_None. by rewrite E.
Qed.

Lemma empty_name_is_not_loaded_witness :
  d_name (7, EmptyString, 3, 1%float, 2%float) = EmptyString
  ∧ sscanf_row (format_data (7, EmptyString, 3, 1%float, 2%float)) = (0, None).
Proof.
  split; [reflexivity|].
  by destruct (empty_name_is_not_loaded (7, EmptyString, 3, 1%float, 2%float) eq_refl).
Defined.

(** ** Sums of legs that do not round *)

Section Rounding.
Context {W : Type} `{Weight W}.
Implicit Types (ds : list (Z * string * Z * W * W)).

(** [val] gives the number that a weight stands for, when it stands for
    one.  The addition of [x] and [y] is exact for [val] when both stand
    for numbers and the result stands for their sum. *)
Definition adds_exactly (val : W → option Z) (x y : W) : Prop :=
  match val x, val y with
  | Some vx, Some vy => val (w_add x y) = Some (vx + vy)
  | _, _ => False
  end.

(** Every addition of the sum of [xs] onto [acc], from left to right, is
    exact. *)
Fixpoint sums_exactly (val : W → option Z) (acc : W) (xs : list W) : Prop :=
  match xs with
  | [] => True
  | x :: xs' => adds_exactly val acc x ∧ sums_exactly val (w_add acc x) xs'
  end.

(** No addition rounds: none of the three sums that [distance_between]
    from the stop at [i] to the stop at [j], [distance_between] from [j] to
    [i] and [total_distance_time] make of the weights [f] of the stops, and
    not the addition of the first two results. *)
Definition legs_exact (val : W → option Z) (f : Z * string * Z * W * W → W)
    ds (i j : nat) : Prop :=
  sums_exactly val w_zero (f <$> arc i j ds)
  ∧ sums_exactly val w_zero (f <$> arc j i ds)
  ∧ sums_exactly val w_zero (f <$> ds)
  ∧ adds_exactly val (foldl w_add w_zero (f <$> arc i j ds))
                     (foldl w_add w_zero (f <$> arc j i ds)).

Definition no_rounding (val : W → option Z) ds (i j : nat) : Prop :=
  val w_zero = Some 0
  ∧ legs_exact val d_dist ds i j ∧ legs_exact val d_time ds i j.

(** The number that a list of weights adds up to. *)
Definition number_of (val : W → option Z) (xs : list W) : Z :=
  foldr (λ x n, default 0 (val x) + n) 0 xs.

Lemma number_of_app val (xs ys : list W) :
  number_of val (xs ++ ys) = number_of val xs + number_of val ys.
Proof. induction xs as [|x xs IH]; simpl; [done|]. rewrite IH. lia. Qed.

Lemma sums_exactly_number val (xs : list W) : ∀ (acc : W) (va : Z),
  val acc = Some va → sums_exactly val acc xs →
  val (foldl w_add acc xs) = Some (va + number_of val xs).
Proof.
  induction xs as [|x xs IH]; intros acc va Ha Hs; simpl.
  - by rewrite Z.add_0_r.
  - destruct Hs as [Hx Hs]. unfold adds_exactly in Hx. rewrite Ha in Hx.
    destruct (val x) as [vx|] eqn:Ex; [|done]. simpl.
    rewrite (IH _ (va + vx) Hx Hs). f_equal. lia.
Qed.

Lemma foldl_add_leg_fst ds : ∀ acc : W * W,
  (foldl add_leg acc ds).1 = foldl w_add acc.1 (d_dist <$> ds).
Proof. induction ds as [|d ds IH]; intros acc; simpl; [done|]. by rewrite IH. Qed.

Lemma foldl_add_leg_snd ds : ∀ acc : W * W,
  (foldl add_leg acc ds).2 = foldl w_add acc.2 (d_time <$> ds).
Proof. induction ds as [|d ds IH]; intros acc; simpl; [done|]. by rewrite IH. Qed.

Lemma arc_fmap {A B} (g : A → B) (i j : nat) (xs : list A) :
  g <$> arc i j xs = arc i j (g <$> xs).
Proof.
  unfold arc. case_decide.
  - by rewrite fmap_take, fmap_drop.
  - by rewrite fmap_app, fmap_take, fmap_drop.
Qed.

(** The two arcs between two places of a list hold the elements of the
    list, each once. *)
Lemma arcs_number val (xs : list W) (i j : nat) :
  i ≠ j →
  number_of val (arc i j xs) + number_of val (arc j i xs) = number_of val xs.
Proof.
  assert (Hlt : ∀ i j, (i < j)%nat →
    number_of val (arc i j xs) + number_of val (arc j i xs) = number_of val xs).
  { clear i j. intros i j Hij. unfold arc.
    rewrite decide_True by done. rewrite decide_False by lia.
    transitivity (number_of val
      (take i xs ++ take (j - i) (drop i xs) ++ drop j xs)).
    - rewrite !number_of_app. lia.
    - f_equal. rewrite <-(take_drop i xs) at 4. f_equal.
      rewrite <-(take_drop (j - i) (drop i xs)) at 2. f_equal.
      rewrite drop_drop. f_equal. lia. }
  intros Hij. destruct (decide (i < j)%nat); [by apply Hlt|].
  rewrite Z.add_comm. apply Hlt. lia.
Qed.

Lemma legs_exact_sum val (f : Z * string * Z * W * W → W) ds (i j : nat) :
  (∀ x y v, val x = Some v → val y = Some v → x = y) →
  val w_zero = Some 0 → legs_exact val f ds i j → i ≠ j →
  w_add (foldl w_add w_zero (f <$> arc i j ds))
        (foldl w_add w_zero (f <$> arc j i ds))
  = foldl w_add w_zero (f <$> ds).
Proof.
  intros Hinj Hz (Hab & Hba & Ht & Hadd) Hij.
  pose proof (sums_exactly_number val _ _ 0 Hz Hab) as Eab.
  pose proof (sums_exactly_number val _ _ 0 Hz Hba) as Eba.
  pose proof (sums_exactly_number val _ _ 0 Hz Ht) as Et.
  unfold adds_exactly in Hadd. rewrite Eab, Eba in Hadd.
  eapply Hinj; [exact Hadd|]. rewrite Et. f_equal.
  rewrite !arc_fmap. pose proof (arcs_number val (f <$> ds) i j Hij). lia.
Qed.

End Rounding.

(** *** The numbers of the doubles *)

(** The number that a double stands for, counted in units of 2^-1074, of
    which every finite double is a whole multiple.  The infinities, the
    NaN and the negative zero stand for none. *)
Definition double_units (x : float) : option Z :=
  match Prim2SF x with
  | S754_zero false => Some 0
  | S754_finite s m e =>
      Some ((if s then Z.neg m else Z.pos m) * 2 ^ (e + 1074))
  | _ => None
  end.

Lemma digits2_pos_bounds (m : positive) :
  2 ^ (Z.pos (digits2_pos m) - 1) ≤ Z.pos m < 2 ^ Z.pos (digits2_pos m).
Proof.
  induction m as [m IH|m IH|]; cbn [digits2_pos]; [| |by vm_compute].
  - rewrite Pos2Z.inj_succ. change (Z.pos m~1) with (2 * Z.pos m + 1).
    replace (Z.succ (Z.pos (digits2_pos m)) - 1)
      with (Z.succ (Z.pos (digits2_pos m) - 1)) by lia.
    rewrite !Z.pow_succ_r by lia. lia.
  - rewrite Pos2Z.inj_succ. change (Z.pos m~0) with (2 * Z.pos m).
    replace (Z.succ (Z.pos (digits2_pos m)) - 1)
      with (Z.succ (Z.pos (digits2_pos m) - 1)) by lia.
    rewrite !Z.pow_succ_r by lia. lia.
Qed.

(** A mantissa and an exponent in canonical form: the mantissa has 53
    binary digits, or fewer at the least exponent. *)
Lemma bounded_digits (m : positive) (e : Z) :
  bounded prec emax m e = true →
  -1074 ≤ e ∧ Z.pos (digits2_pos m) ≤ 53
  ∧ (-1074 < e → Z.pos (digits2_pos m) = 53).
Proof.
  unfold bounded, canonical_mantissa, fexp, SpecFloat.emin, prec, emax.
  intros Hb. apply andb_prop in Hb as [Hc _]. apply Z.eqb_eq in Hc. lia.
Qed.

Lemma canonical_unique (m1 m2 : positive) (e1 e2 : Z) :
  bounded prec emax m1 e1 = true → bounded prec emax m2 e2 = true →
  Z.pos m1 * 2 ^ (e1 + 1074) = Z.pos m2 * 2 ^ (e2 + 1074) →
  m1 = m2 ∧ e1 = e2.
Proof.
  assert (Hlt : ∀ m1 m2 e1 e2,
    bounded prec emax m1 e1 = true → bounded prec emax m2 e2 = true →
    Z.pos m1 * 2 ^ (e1 + 1074) = Z.pos m2 * 2 ^ (e2 + 1074) → ¬ e1 < e2).
  { clear. intros m1 m2 e1 e2 H1 H2 E Hlt.
    apply bounded_digits in H1 as (He1 & Hd1 & _).
    apply bounded_digits in H2 as (He2 & _ & Hd2).
    specialize (Hd2 ltac:(lia)).
    pose proof (digits2_pos_bounds m1) as [_ Hm1].
    pose proof (digits2_pos_bounds m2) as [Hm2 _]. rewrite Hd2 in Hm2.
    replace (e2 + 1074) with ((e2 - e1) + (e1 + 1074)) in E by lia.
    rewrite (Z.pow_add_r 2 (e2 - e1) (e1 + 1074)) in E by lia.
    assert (Hp : 0 < 2 ^ (e1 + 1074)) by (apply Z.pow_pos_nonneg; lia).
    assert (E' : Z.pos m1 = Z.pos m2 * 2 ^ (e2 - e1)) by nia.
    assert (Hk : 2 ^ 1 ≤ 2 ^ (e2 - e1)) by (apply Z.pow_le_mono_r; lia).
    assert (Hd : 2 ^ Z.pos (digits2_pos m1) ≤ 2 ^ 53)
      by (apply Z.pow_le_mono_r; lia).
    change (2 ^ 1) with 2 in Hk. change (2 ^ (53 - 1)) with (2 ^ 52) in Hm2.
    assert (2 ^ 53 = 2 * 2 ^ 52) by done. nia. }
  intros H1 H2 E.
  assert (e1 = e2) as ->.
  { pose proof (Hlt m1 m2 e1 e2 H1 H2 E).
    pose proof (Hlt m2 m1 e2 e1 H2 H1 (eq_sym E)). lia. }
  split; [|done].
  assert (Hp : 0 < 2 ^ (e2 + 1074)).
  { apply bounded_digits in H1 as (He & _). apply Z.pow_pos_nonneg; lia. }
  assert (Z.pos m1 = Z.pos m2) by nia. congruence.
Qed.

(** Two doubles that stand for the same number are the same double. *)
Lemma double_units_inj (x y : float) (v : Z) :
  double_units x = Some v → double_units y = Some v → x = y.
Proof.
  unfold double_units. intros Hx Hy.
  rewrite <-(SF2Prim_Prim2SF x), <-(SF2Prim_Prim2SF y).
  pose proof (Prim2SF_valid x) as Vx. pose proof (Prim2SF_valid y) as Vy.
  destruct (Prim2SF x) as [[|]| | |sx mx ex]; try done;
    destruct (Prim2SF y) as [[|]| | |sy my ey]; try done;
    injection Hx as <-; injection Hy as Hy; cbn [valid_binary] in Vx, Vy.
  - exfalso. pose proof (bounded_digits _ _ Vy) as (He & _).
    assert (0 < 2 ^ (ey + 1074)) by (apply Z.pow_pos_nonneg; lia).
    destruct sy; nia.
  - exfalso. pose proof (bounded_digits _ _ Vx) as (He & _).
    assert (0 < 2 ^ (ex + 1074)) by (apply Z.pow_pos_nonneg; lia).
    destruct sx; nia.
  - pose proof (bounded_digits _ _ Vx) as (Hex & _).
    pose proof (bounded_digits _ _ Vy) as (Hey & _).
    assert (0 < 2 ^ (ex + 1074)) by (apply Z.pow_pos_nonneg; lia).
    assert (0 < 2 ^ (ey + 1074)) by (apply Z.pow_pos_nonneg; lia).
    assert (sx = sy) as ->.
    { destruct sx, sy; try done; exfalso; nia. }
    destruct (canonical_unique mx my ex ey Vx Vy) as [-> ->]; [|done].
    destruct sy; [|lia].
    rewrite <-!Pos2Z.opp_pos in Hy. lia.
Qed.

(** C3, as the code has it.  For two names that [find_by_name] resolves to
    two different stops of the route, both calls of [distance_between]
    return 1, whatever the weights are: each has added up from [0.0], in
    traversal order, the weights of the stops of one of the two arcs between
    the stops, as [total_distance_time] does with the stops of the whole
    route.  The two results add up to the total, for the distance and for
    the time, when none of these additions rounds: the three sums and the
    addition of the two results are exact for a measure [val] of the
    weights that tells them apart, as [double_units] is for the doubles. *)
Theorem distance_between_sums_to_total {W : Type} `{Weight W}
    (val : W → option Z) (s : State W) r (a_name b_name : string)
    (i j : nat) ad bd :
  route s r →
  lookup_name a_name r = Some (i, ad) →
  lookup_name b_name r = Some (j, bd) →
  i ≠ j →
  find_by_name a_name s = Some (Some ad.1)
  ∧ find_by_name b_name s = Some (Some bd.1)
  ∧ ad.1 ≠ bd.1
  ∧ distance_between a_name b_name s
    = Some (1, foldl add_leg (w_zero, w_zero) (arc i j r).*2)
  ∧ distance_between b_name a_name s
    = Some (1, foldl add_leg (w_zero, w_zero) (arc j i r).*2)
  ∧ total_distance_time s = Some (foldl add_leg (w_zero, w_zero) r.*2)
  ∧ ((∀ x y v, val x = Some v → val y = Some v → x = y) →
     no_rounding val r.*2 i j →
     w_add (foldl add_leg (w_zero, w_zero) (arc i j r).*2).1
           (foldl add_leg (w_zero, w_zero) (arc j i r).*2).1
     = (foldl add_leg (w_zero, w_zero) r.*2).1
     ∧ w_add (foldl add_leg (w_zero, w_zero) (arc i j r).*2).2
             (foldl add_leg (w_zero, w_zero) (arc j i r).*2).2
       = (foldl add_leg (w_zero, w_zero) r.*2).2).
Proof.
  intros Hr Ha Hb Hij.
  pose proof (distance_between_spec s r a_name b_name Hr) as Hab.
  pose proof (distance_between_spec s r b_name a_name Hr) as Hba.
  rewrite Ha, Hb in Hab. rewrite Ha, Hb in Hba.
  rewrite decide_False in Hab by done. rewrite decide_False in Hba by done.
  split_and!; [| | |done|done|by apply total_distance_time_spec|].
  - by rewrite (find_by_name_spec s r a_name Hr), Ha.
  - by rewrite (find_by_name_spec s r b_name Hr), Hb.
  - apply list_find_Some in Ha as (Hi & _). apply list_find_Some in Hb as (Hj & _).
    destruct Hr as (_ & Hnd & _). intros E. apply Hij.
    apply (NoDup_lookup _ _ _ ad.1 Hnd); rewrite list_lookup_fmap;
      [by rewrite Hi|by rewrite Hj, E].
  - intros Hinj (Hz & Hd & Ht).
    rewrite !foldl_add_leg_fst, !foldl_add_leg_snd. cbn [fst snd].
    rewrite !(arc_fmap snd). split; by apply (legs_exact_sum val).
Qed.

Lemma distance_between_sums_to_total_witness :
  route abc abc_route
  ∧ lookup_name "A" abc_route
    = Some (0%nat, (1%positive, (1, "A"%string, 10, 1%float, 2%float)))
  ∧ lookup_name "C" abc_route
    = Some (2%nat, (3%positive, (3, "C"%string, 30, 5%float, 6%float)))
  ∧ 0%nat ≠ 2%nat
  ∧ (∀ x y v, double_units x = Some v → double_units y = Some v → x = y)
  ∧ no_rounding double_units abc_route.*2 0 2
  ∧ distance_between "A" "C" abc = Some (1, (4%float, 6%float))
  ∧ distance_between "C" "A" abc = Some (1, (5%float, 6%float))
  ∧ total_distance_time abc = Some (9%float, 12%float)
  ∧ (4 + 5 = 9)%float ∧ (6 + 6 = 12)%float.
Proof.
  assert (Ha : lookup_name "A" abc_route
    = Some (0%nat, (1%positive, (1, "A"%string, 10, 1%float, 2%float)))) by done.
  assert (Hc : lookup_name "C" abc_route
    = Some (2%nat, (3%positive, (3, "C"%string, 30, 5%float, 6%float)))) by done.
  assert (Hne : 0%nat ≠ 2%nat) by lia.
  assert (Hexact : no_rounding double_units abc_route.*2 0 2).
  { unfold no_rounding, legs_exact. split_and!; vm_compute; repeat split. }
  destruct (distance_between_sums_to_total double_units abc abc_route "A" "C"
              0 2 _ _ abc_is_route Ha Hc Hne)
    as (_ & _ & _ & Eac & Eca & Et & Hsum).
  destruct (Hsum double_units_inj Hexact) as [Hd Htm].
  split_and!;
    [ exact abc_is_route | exact Ha | exact Hc | exact Hne
    | exact double_units_inj | exact Hexact | exact Eac | exact Eca
    | exact Et | exact Hd | exact Htm ].
Defined.

(** ** The identifiers of a session *)

Section Identifiers.
Context {W : Type} `{Weight W} `{WeightIO W}.
Implicit Types (h : gmap loc (Stop W)) (l : list loc) (a b : loc) (s : State W).
Implicit Types (r : list (loc * (Z * string * Z * W * W))) (d : Z * string * Z * W * W).

(** The number of stops that a choice of the menu creates. *)
Definition stops_created (sample : list (string * Z * W * W))
    (c : command (W := W)) (fs : FS) : nat :=
  match c with
  | InsertEnd _ _ _ _ | InsertAfter _ _ _ _ _ | InsertAtPosition _ _ _ _ _ => 1
  | DeleteByName _ | SaveToFile _ => 0
  | LoadFromFile filename =>
      match fopen_r fs filename with
      | Some f => length (omap row_of_line (data_lines f))
      | None => 0
      end
  | PopulateSample => length sample
  end.

(** The value from which the choice counts the identifiers:
    [populate_sample] starts again from 1. *)
Definition counter_before (c : command (W := W)) s : Z :=
  match c with
  | PopulateSample => 1
  | _ => next_id s
  end.

(** The choice does not take the counter of identifiers past [INT_MAX]. *)
Definition no_overflow (sample : list (string * Z * W * W))
    (c : command (W := W)) (fs : FS) s : Prop :=
  counter_before c s + Z.of_nat (stops_created sample c fs) ≤ INT_MAX.

(** The states of the sessions in which the counter of identifiers has not
    overflowed. *)
Inductive steady (sample : list (string * Z * W * W)) : State W → Prop :=
  | steady_init : steady sample init
  | steady_step s c fs fs' s' :
      steady sample s → no_overflow sample c fs s →
      run_command sample c fs s = Some (fs', s') →
      steady sample s'.











Lemma steady_reachable sample s : steady sample s → reachable sample s.
Proof.
  induction 1 as [|s c fs fs' s' _ IH _ E]; [constructor|].
  by eapply reachable_step.
Qed.


End Identifiers.

Section SteadySessions.
Context {W : Type} `{Weight W} `{WeightIO W}.
Implicit Types (s : State W).



End SteadySessions.




(** ** The claims on the files *)

(** C5, as the code has it.  Choice 10 of the menu followed by choice 11
    on the same file brings a route back with the same names, passengers
    and weights in the same order, when the route has a stop, the file
    opens for writing, and the line of every stop reads back: the name is
    not empty, of at most 63 characters, without comma, newline or [0]; the
    passengers are an [int]; [%lf] reads each weight back as it was from
    what [%.6f] prints of it; the line has at most 255 characters. *)
Theorem save_load_round_trip {W : Type} `{Weight W} `{WeightIO W}
    (sample : list (string * Z * W * W)) (s : State W) r
    (filename : string) (fs : FS) :
  route s r → r ≠ [] → filename ∉ denied fs → Forall row_ok r.*2 →
  ∃ fs' s' r',
    save_to_file filename fs s = Some (1, fs')
    ∧ load_from_file filename fs' s = Some (1, s')
    ∧ run_session sample [SaveToFile filename; LoadFromFile filename] fs s
      = Some (fs', s')
    ∧ route s' r'
    ∧ length r' = length r
    ∧ row_of <$> r'.*2 = row_of <$> r.*2.
Proof.
  intros Hr Hne Hfile Hok.
  pose proof (save_to_file_spec s r filename fs Hr) as Es.
  rewrite decide_True in Es by done.
  set (f := csv_header +:+ format_rows r.*2) in Es.
  assert (Ef : fopen_r (write_file fs filename f) filename = Some f).
  { unfold fopen_r, write_file. cbn [files denied].
    rewrite decide_False by done. by rewrite lookup_insert_eq. }
  destruct (load_from_file_open s r _ filename f Hr Ef) as (s1 & _ & _ & _ & Hload).
  assert (Eh : fgets LINE_LEN f = Some (csv_header, format_rows r.*2)).
  { unfold f, csv_header.
    rewrite (append_assoc "id,name,passengers,dist_to_next,time_to_next").
    change (String NL EmptyString +:+ format_rows r.*2)
      with (String NL (format_rows r.*2)).
    apply (fgets_line "id,name,passengers,dist_to_next,time_to_next");
      [repeat (split; [done|]); done|simpl; lia]. }
  rewrite Eh in Hload. destruct Hload as (s' & r' & El & Hr' & Hd & _).
  unfold f in Hd. rewrite (data_lines_saved _ Hok) in Hd.
  rewrite (omap_row_of_line_saved _ Hok) in Hd.
  assert (Hrows : row_of <$> r'.*2 = row_of <$> r.*2).
  { rewrite Hd. apply row_of_assign_ids.
    apply Forall_fmap. eapply Forall_impl; [exact Hok|].
    by intros d ((_ & Hlen & _) & _). }
  exists (write_file fs filename f), s', r'. split_and!; [done..| |done| |done].
  - cbn [run_session run_command]. rewrite Es. cbn [mbind option_bind].
    rewrite El. done.
  - apply (f_equal length) in Hrows. by rewrite !length_fmap in Hrows.
Qed.

Lemma save_load_round_trip_witness :
  route abc abc_route ∧ abc_route ≠ [] ∧ ("route.csv" ∉ denied no_files)
  ∧ Forall row_ok abc_route.*2
  ∧ ∃ fs' s' r',
      run_session sample_stops [SaveToFile "route.csv"; LoadFromFile "route.csv"]
        no_files abc = Some (fs', s')
      ∧ route s' r'
      ∧ row_of <$> r'.*2
        = [ ("A"%string, 10, 1%float, 2%float); ("B"%string, 20, 3%float, 4%float);
            ("C"%string, 30, 5%float, 6%float) ].
Proof.
  assert (Hne : abc_route ≠ []) by done.
  assert (Hfile : "route.csv" ∉ denied no_files) by (vm_compute; set_solver).
  split_and!; [exact abc_is_route|exact Hne|exact Hfile|exact abc_rows_read_back|].
  destruct (save_load_round_trip sample_stops abc abc_route "route.csv" no_files
              abc_is_route Hne Hfile abc_rows_read_back)
    as (fs' & s' & r' & _ & _ & E & Hr' & _ & Hrows).
  exists fs', s', r'. split_and!; assumption.
Defined.

(** The route of one stop whose distance has seven decimals. *)
Definition seven_decimals : State float :=
  state_after [InsertEnd "A" 1 0.1234567%float 1%float].

(** C5 fails as stated: the file keeps six decimals of a weight.  The stop
    A with the distance 0.1234567 is saved as 0.123457, and loaded with
    that distance. *)
Lemma round_trip_keeps_six_decimals :
  reachable sample_stops seven_decimals
  ∧ route seven_decimals
      [(1%positive, (1, "A"%string, 1, 0.1234567%float, 1%float))]
  ∧ ∃ fs' s',
      run_session sample_stops [SaveToFile "route.csv"; LoadFromFile "route.csv"]
        no_files seven_decimals = Some (fs', s')
      ∧ fopen_r fs' "route.csv"
        = Some (csv_header +:+ "1,A,1,0.123457,1.000000" +:+ String NL EmptyString)
      ∧ route s' [(1%positive, (2, "A"%string, 1, 0.123457%float, 1%float))]
      ∧ 0.123457%float ≠ 0.1234567%float.
Proof.
  split; [apply state_after_reachable; vm_compute; eauto|].
  split.
  { split_and!.
    - vm_compute. done.
    - vm_compute. repeat (constructor; [set_solver|]). constructor.
    - vm_compute. done.
    - repeat constructor. }
  eexists _, _. split; [vm_compute; reflexivity|].
  split; [vm_compute; reflexivity|]. split.
  { split_and!.
    - vm_compute. done.
    - vm_compute. repeat (constructor; [set_solver|]). constructor.
    - vm_compute. done.
    - repeat constructor. }
  intros E.
  apply (f_equal (λ x, PrimFloat.eqb x 0.1234567%float)) in E.
  vm_compute in E. discriminate.
Qed.



(** C10.  When the file opens and its first line can be read,
    [load_from_file] returns 1 however many of the other lines give a stop:
    with no line after the first, or only lines on which [sscanf] assigns
    fewer than four values, it returns 1 and leaves the route empty. *)
Theorem load_reports_success_after_header {W : Type} `{WeightIO W}
    (s : State W) r (filename : string) (fs : FS) (f first rest : string) :
  route s r → fopen_r fs filename = Some f →
  fgets LINE_LEN f = Some (first, rest) →
  ∃ s' r', load_from_file filename fs s = Some (1, s')
    ∧ route s' r'
    ∧ length r' = length (omap row_of_line (data_lines f))
    ∧ (rest = EmptyString → r' = [] ∧ head s' = None)
    ∧ (Forall (λ line, (sscanf_row line).1 < 4) (data_lines f) →
         r' = [] ∧ head s' = None).
Proof.
  intros Hr Ef Eh.
  destruct (load_from_file_open s r fs filename f Hr Ef) as (s1 & _ & _ & _ & Hload).
  rewrite Eh in Hload. destruct Hload as (s' & r' & E & Hr' & Hd & _).
  assert (Hlen : ∀ (rows : list (string * Z * W * W)) i,
    length (assign_ids i rows) = length rows).
  { induction rows as [|[[[??]?]?] rows IH]; intros i; simpl; [done|]. by rewrite IH. }
  assert (Hempty : omap row_of_line (data_lines f) = [] → r' = [] ∧ head s' = None).
  { intros Hnone. rewrite Hnone in Hd. simpl in Hd. apply fmap_nil_inv in Hd.
    subst r'. split; [done|]. by destruct Hr' as (-> & _). }
  exists s', r'. split_and!; [done..| | |].
  - by rewrite <-(length_fmap snd r'), Hd, Hlen.
  - intros ->. apply Hempty. unfold data_lines. by rewrite Eh.
  - intros Hall. apply Hempty. by apply omap_row_of_line_nil.
Qed.

(** A file that holds the header line and nothing else. *)
Definition header_only : FS :=
  mkFS {[ "route.csv"%string := csv_header ]} ∅.

Lemma load_reports_success_after_header_witness :
  route abc abc_route
  ∧ fopen_r header_only "route.csv" = Some csv_header
  ∧ fgets LINE_LEN csv_header = Some (csv_header, EmptyString)
  ∧ ∃ s', load_from_file "route.csv" header_only abc = Some (1, s')
      ∧ route s' [] ∧ head s' = None.
Proof.
  assert (Ef : fopen_r header_only "route.csv" = Some csv_header)
    by (vm_compute; reflexivity).
  assert (Eh : fgets LINE_LEN csv_header = Some (csv_header, EmptyString))
    by (vm_compute; reflexivity).
  split_and!; [exact abc_is_route|exact Ef|exact Eh|].
  destruct (load_reports_success_after_header abc abc_route "route.csv" header_only
              _ _ _ abc_is_route Ef Eh) as (s' & r' & E & Hr' & _ & Hrest & _).
  destruct (Hrest eq_refl) as [-> Hh].
  exists s'. split_and!; assumption.
Defined.
